(** * CSS range parser (server/src/languages/css/css-range-parser.ts)

    A shallow embedding of [CSSRangeParser] together with the part of the
    ECMAScript regular-expression semantics its patterns rely on, and the
    properties of the parser that the specification states. *)

From Stdlib Require Import String Ascii.
From Stdlib Require Import List NArith ZArith Bool Lia Arith.
Import ListNotations.

(** ** Strings

    A JavaScript string is a sequence of UTF-16 code units. *)

Definition cu := N.
Bind Scope N_scope with cu.
Definition jsstring := list cu.

Definition ch (a : ascii) : cu := N_of_ascii a.
Definition str (s : string) : jsstring := map N_of_ascii (list_ascii_of_string s).

Definition QUOTE : cu := 34%N.
Definition LF : cu := 10%N.

Fixpoint str_eqb (a b : jsstring) : bool :=
  match a, b with
  | [], [] => true
  | x :: a', y :: b' => N.eqb x y && str_eqb a' b'
  | _, _ => false
  end.

(** [s.startsWith(p)] *)
Fixpoint startsWith (p s : jsstring) : bool :=
  match p, s with
  | [], _ => true
  | x :: p', y :: s' => N.eqb x y && startsWith p' s'
  | _ :: _, [] => false
  end.

(** [s.slice(a, b)] for [0 <= a <= b]. *)
Definition substring (s : jsstring) (a b : nat) : jsstring :=
  firstn (b - a) (skipn a s).

(** ** Character classes *)

Definition inRange (lo hi c : cu) : bool := (N.leb lo c && N.leb c hi)%bool.

(** [\s]: WhiteSpace and LineTerminator code points. *)
Definition isSpace (c : cu) : bool :=
  (inRange 9 13 c || N.eqb c 32 || N.eqb c 160 || N.eqb c 5760
   || inRange 8192 8202 c || N.eqb c 8232 || N.eqb c 8233 || N.eqb c 8239
   || N.eqb c 8287 || N.eqb c 12288 || N.eqb c 65279)%bool.

(** [\w] *)
Definition isWord (c : cu) : bool :=
  (inRange 48 57 c || inRange 65 90 c || N.eqb c 95 || inRange 97 122 c)%bool.

Definition isLineTerminator (c : cu) : bool :=
  (N.eqb c 10 || N.eqb c 13 || N.eqb c 8232 || N.eqb c 8233)%bool.

(** [.] without the [s] flag, and [[\s\S]] (also [.] with the [s] flag). *)
Definition dot (c : cu) : bool := negb (isLineTerminator c).
Definition anyChar (c : cu) : bool := true.

Definition oneOf (l : list cu) (c : cu) : bool := existsb (N.eqb c) l.
Definition noneOf (l : list cu) (c : cu) : bool := negb (oneOf l c).

(** [String.prototype.trimLeft / trimRight / trim] strip the same code
    units that [\s] matches. *)
Fixpoint trimLeft (s : jsstring) : jsstring :=
  match s with
  | c :: s' => if isSpace c then trimLeft s' else s
  | [] => []
  end.

Definition trimRight (s : jsstring) : jsstring := rev (trimLeft (rev s)).
Definition trim (s : jsstring) : jsstring := trimRight (trimLeft s).

(** ** Regular expressions

    The constructs used by the parser's patterns, with the backtracking
    semantics of ECMAScript (alternatives left to right, greedy and lazy
    quantifiers, an iteration of a quantifier that consumes nothing is
    rejected).  No pattern of the parser has a capture group inside a
    quantified group, so captures need no reset between iterations. *)

Inductive regex : Type :=
| Empty
| Char (p : cu -> bool)
| Seq (r1 r2 : regex)
| Alt (r1 r2 : regex)
| Star (greedy : bool) (r : regex)
| Group (i : nat) (r : regex)
| Bol
| Eol
| LookBehind (r : regex).

(** [r+] and [r+?]: one mandatory iteration, then [r*] resp. [r*?]. *)
Definition Plus (greedy : bool) (r : regex) : regex := Seq r (Star greedy r).
(** [r?] *)
Definition Opt (r : regex) : regex := Alt r Empty.
Definition lit (a : ascii) : regex := Char (N.eqb (ch a)).

(** Matcher state: the offset reached, the code unit before it, the text
    from it on, and the spans of the capture groups closed so far. *)
Record MState : Type := mkMState {
  pos : nat;
  prev : option cu;
  rest : jsstring;
  caps : list (nat * (nat * nat))
}.

Definition orElse {A} (a : option A) (b : unit -> option A) : option A :=
  match a with
  | Some x => Some x
  | None => b tt
  end.

Definition advance (c : cu) (t : jsstring) (s : MState) : MState :=
  mkMState (S (pos s)) (Some c) t (caps s).

Definition setCap (i : nat) (from : nat) (s : MState) : MState :=
  mkMState (pos s) (prev s) (rest s) ((i, (from, pos s)) :: caps s).

(** The lookbehinds of the parser look one code unit back at most: their
    bodies are alternations of [^] and character classes. *)
Fixpoint behind (r : regex) (s : MState) : bool :=
  match r with
  | Bol => Nat.eqb (pos s) 0
  | Char p => match prev s with Some c => p c | None => false end
  | Alt r1 r2 => (behind r1 s || behind r2 s)%bool
  | _ => false
  end.

(** The iterations of a quantifier [r*] ([greedy]) or [r*?], where [body]
    matches [r]: an iteration that ends where it started is rejected.
    Every accepted iteration consumes a code unit, so [fuel], one more
    than the length of the remaining text, is never used up. *)
Fixpoint starLoop (body : (MState -> option MState) -> MState -> option MState)
    (greedy : bool) (k : MState -> option MState) (fuel : nat) (s : MState)
    {struct fuel} : option MState :=
  match fuel with
  | O => k s
  | S fuel' =>
      let again := fun _ : unit =>
        body (fun s' => if Nat.eqb (pos s') (pos s) then None
                        else starLoop body greedy k fuel' s') s in
      if greedy then orElse (again tt) (fun _ => k s)
      else orElse (k s) again
  end.

(** [m r k s]: match [r] at [s], then continue with [k]; the first
    success in backtracking order. *)
Fixpoint m (r : regex) (k : MState -> option MState) (s : MState) {struct r}
  : option MState :=
  match r with
  | Empty => k s
  | Char p =>
      match rest s with
      | c :: t => if p c then k (advance c t s) else None
      | [] => None
      end
  | Seq r1 r2 => m r1 (m r2 k) s
  | Alt r1 r2 => orElse (m r1 k s) (fun _ => m r2 k s)
  | Star greedy r' => starLoop (m r') greedy k (S (length (rest s))) s
  | Group i r' => m r' (fun s' => k (setCap i (pos s) s')) s
  | Bol => if Nat.eqb (pos s) 0 then k s else None
  | Eol => match rest s with [] => k s | _ :: _ => None end
  | LookBehind r' => if behind r' s then k s else None
  end.

(** The result of [RegExp.prototype.exec]. *)
Record Match : Type := mkMatch {
  index : nat;
  lastIndex : nat;
  groups : list (nat * (nat * nat))
}.

Fixpoint getCap (i : nat) (l : list (nat * (nat * nat))) : option (nat * nat) :=
  match l with
  | [] => None
  | (j, sp) :: l' => if Nat.eqb i j then Some sp else getCap i l'
  end.

(** [match[i]] for [i >= 1]: [None] is [undefined]. *)
Definition group (text : jsstring) (mt : Match) (i : nat) : option jsstring :=
  match getCap i (groups mt) with
  | Some (a, b) => Some (substring text a b)
  | None => None
  end.

(** [match[0]] *)
Definition matched (text : jsstring) (mt : Match) : jsstring :=
  substring text (index mt) (lastIndex mt).

(** The leftmost start offset at or after the state's at which [r]
    matches. *)
Fixpoint search (r : regex) (p : nat) (pv : option cu) (t : jsstring)
  : option Match :=
  match m r Some (mkMState p pv t []) with
  | Some s => Some (mkMatch p (pos s) (caps s))
  | None =>
      match t with
      | [] => None
      | c :: t' => search r (S p) (Some c) t'
      end
  end.

Definition lastCu (s : jsstring) : option cu :=
  match rev s with
  | c :: _ => Some c
  | [] => None
  end.

(** [re.lastIndex = from; re.exec(text)] for a pattern with the [g] flag;
    without the flag [from] is 0. *)
Definition exec (r : regex) (text : jsstring) (from : nat) : option Match :=
  if Nat.ltb (length text) from then None
  else search r from (lastCu (firstn from text)) (skipn from text).

(** [while (match = re.exec(text)) ...] for a global pattern: the matches
    in order.  Every pattern it is used with consumes at least one code
    unit per match, so [lastIndex] grows and the loop ends within
    [length text + 1] rounds (see [execAll_fuel]). *)
Fixpoint execLoop (fuel : nat) (r : regex) (text : jsstring) (from : nat)
  : list Match :=
  match fuel with
  | O => []
  | S fuel' =>
      match exec r text from with
      | Some mt => mt :: execLoop fuel' r text (lastIndex mt)
      | None => []
      end
  end.

Definition execAll (r : regex) (text : jsstring) : list Match :=
  execLoop (S (length text)) r text 0.

(** [text.match(re)] and [re.test(text)] for a pattern without the [g]
    flag start at offset 0. *)
Definition matchStr (r : regex) (text : jsstring) : option Match :=
  exec r text 0.

Definition test (r : regex) (text : jsstring) : bool :=
  match exec r text 0 with
  | Some _ => true
  | None => false
  end.

(** [re.test(text)] for a pattern with the [g] flag: it starts at
    [re.lastIndex] and leaves the new [lastIndex] behind. *)
Definition testGlobal (r : regex) (text : jsstring) (from : nat) : bool * nat :=
  match exec r text from with
  | Some mt => (true, lastIndex mt)
  | None => (false, 0)
  end.

(** [GetSubstitution] for a pattern without capture groups: [$$], [$&],
    [$`] and [$'] are expanded, every other [$] stands for itself. *)
Fixpoint getSubstitution (whole before after : jsstring) (tpl : jsstring)
  : jsstring :=
  match tpl with
  | [] => []
  | c :: t =>
      if N.eqb c (ch "$") then
        match t with
        | d :: t' =>
            if N.eqb d (ch "$") then ch "$" :: getSubstitution whole before after t'
            else if N.eqb d (ch "&") then whole ++ getSubstitution whole before after t'
            else if N.eqb d (ch "`") then before ++ getSubstitution whole before after t'
            else if N.eqb d (ch "'") then after ++ getSubstitution whole before after t'
            else c :: getSubstitution whole before after t
        | [] => [c]
        end
      else c :: getSubstitution whole before after t
  end.

(** [text.replace(re, tpl)] for a pattern with the [g] flag: [copied] is
    the offset up to which the text has been handed over.  After an empty
    match the search resumes one code unit further. *)
Fixpoint replaceLoop (fuel : nat) (r : regex) (text tpl : jsstring)
    (from copied : nat) : jsstring :=
  match fuel with
  | O => skipn copied text
  | S fuel' =>
      match exec r text from with
      | None => skipn copied text
      | Some mt =>
          substring text copied (index mt)
          ++ getSubstitution (matched text mt) (firstn (index mt) text)
               (skipn (lastIndex mt) text) tpl
          ++ replaceLoop fuel' r text tpl
               (if Nat.eqb (lastIndex mt) (index mt) then S (lastIndex mt)
                else lastIndex mt)
               (lastIndex mt)
      end
  end.

Definition replaceAll (r : regex) (text tpl : jsstring) : jsstring :=
  replaceLoop (S (S (length text))) r text tpl 0 0.

(** ** The patterns of the parser *)

Definition isTerminator : cu -> bool := oneOf [ch ";"; ch "{"; ch "}"].
Definition isWordOrDash (c : cu) : bool := (isWord c || N.eqb c (ch "-"))%bool.
Definition isCombinator (c : cu) : bool :=
  (isSpace c || oneOf [ch "+"; ch ">"; ch "~"] c)%bool.
Definition quoteRE : regex := Char (N.eqb QUOTE).

(** [\(.*?\)], [".*?"], ['.*?'], [\[.*?\]]: an opening delimiter, as few
    code units as possible, the closing delimiter. *)
Definition spanRE (anyp : cu -> bool) (opening closing : regex) : regex :=
  Seq opening (Seq (Star false (Char anyp)) closing).

(** [(?:\(.*?\)|".*?"|'.*?'|[\s\S])*?]: one round of the group, and
    the group under its lazy star. *)
Definition fragmentStepRE : regex :=
  Alt (spanRE dot (lit "(") (lit ")"))
  (Alt (spanRE dot quoteRE quoteRE)
  (Alt (spanRE dot (lit "'") (lit "'"))
       (Char anyChar))).

Definition fragmentRE : regex := Star false fragmentStepRE.

(** [\/\/.*] and [\/\*[\s\S]*?\*\/] *)
Definition lineCommentRE : regex :=
  Seq (lit "/") (Seq (lit "/") (Star true (Char dot))).
Definition blockCommentRE : regex :=
  Seq (lit "/") (Seq (lit "*")
    (Seq (Star false (Char anyChar)) (Seq (lit "*") (lit "/")))).

(** [/\s*(?:\/\/.*|\/\*[\s\S]*?\*\/|((?:\(.*?\)|".*?"|'.*?'|[\s\S])*?)([;{}]))/g] *)
Definition blockRE : regex :=
  Seq (Star true (Char isSpace))
    (Alt lineCommentRE
    (Alt blockCommentRE
         (Seq (Group 1 fragmentRE) (Group 2 (Char isTerminator))))).

(** [/\s+/g] *)
Definition spacesRE : regex := Plus true (Char isSpace).

(** [/^@[\w-]+/] *)
Definition commandRE : regex :=
  Seq Bol (Seq (lit "@") (Plus true (Char isWordOrDash))).

(** [/((?:\[.*?\]|\(.*?\)|.)+?)(?:,|$)/gs] *)
Definition namesRE : regex :=
  Seq (Group 1 (Plus false
         (Alt (spanRE anyChar (lit "[") (lit "]"))
         (Alt (spanRE anyChar (lit "(") (lit ")"))
              (Char anyChar)))))
      (Alt (lit ",") Eol).

(** [/(?<=^|[\s+>~])&/g] *)
Definition referenceRE : regex :=
  Seq (LookBehind (Alt Bol (Char isCombinator))) (lit "&").

(** [/^&(?:[^\w-]|$)/] *)
Definition singleReferenceRE : regex :=
  Seq Bol (Seq (lit "&") (Alt (Char (fun c => negb (isWordOrDash c))) Eol)).

(** [/^[#.]?\w[\w-]*/] *)
Definition mainRE : regex :=
  Seq Bol (Seq (Opt (Char (oneOf [ch "#"; ch "."])))
    (Seq (Char isWord) (Star true (Char isWordOrDash)))).

(** [/^[\w]/] *)
Definition tagRE : regex := Seq Bol (Char isWord).

(** [/(?:\[[^\]]*?\]|\([^)]*?\)|[^\s+>~])+?$/] *)
Definition descendantRE : regex :=
  Seq (Plus false
         (Alt (spanRE (noneOf [ch "]"]) (lit "[") (lit "]"))
         (Alt (spanRE (noneOf [ch ")"]) (lit "(") (lit ")"))
              (Char (fun c => negb (isCombinator c))))))
      Eol.

(** ** Data model *)

Record LeafName : Type := mkLeafName {
  raw : jsstring;
  full : jsstring;
  isSelector : bool
}.

(** A [LeafRange] object.  The objects live in the list [ranges] of
    [Scan]; a reference to one of them ([current], the entries of
    [stack], [parent]) is its index there, so an assignment to
    [current.end] is seen through every reference.  [end_ = 0] means
    not closed. *)
Record LeafRange : Type := mkLeafRange {
  names : list LeafName;
  start : Z;
  end_ : Z;
  parent : option nat
}.

Record FullMainName : Type := mkFullMainName {
  fmFull : jsstring;
  fmMain : jsstring
}.

(** [range] holds the two offsets that [formatToNamedRanges] hands to
    [document.positionAt]; the conversion to line and column belongs to
    the text document. *)
Record NamedRange : Type := mkNamedRange {
  nrNames : list FullMainName;
  range : Z * Z
}.

Record TextDocument : Type := mkTextDocument {
  getText : jsstring;
  docLanguageId : jsstring
}.

(** The fields of [CSSRangeParser] that the constructor fixes. *)
Record CSSRangeParser : Type := mkCSSRangeParser {
  supportsNesting : bool;
  document : TextDocument;
  languageId : jsstring
}.

(** The fields of [CSSRangeParser] that [parse] works on, and the
    [LeafRange] objects: [ranges] holds, oldest first, the objects that
    the fields may still refer to from an earlier call, then the local
    [ranges] array of the running call.  After [new CSSRangeParser] it
    is that array alone.  The head of [stack] is its top. *)
Record Scan : Type := mkScan {
  ranges : list LeafRange;
  stack : list nat;
  current : option nat;
  ignoreDeep : nat
}.

Definition supportedLanguages : list jsstring :=
  [str "css"; str "less"; str "scss"].

(** Modelled from the spec: [CSSService.isLanguageSupportsNesting], which
    is not part of the parser's file; LESS and SCSS are the
    nesting-capable dialects, plain CSS is not. *)
Definition isLanguageSupportsNesting (languageId : jsstring) : bool :=
  (str_eqb languageId (str "less") || str_eqb languageId (str "scss"))%bool.

(** [new CSSRangeParser(document)] *)
Definition newParser (doc : TextDocument) : CSSRangeParser :=
  let languageId :=
    if existsb (str_eqb (docLanguageId doc)) supportedLanguages
    then docLanguageId doc else str "css" in
  mkCSSRangeParser (isLanguageSupportsNesting languageId) doc languageId.

(** The state the field initialisers leave. *)
Definition initScan : Scan := mkScan [] [] None 0.

(** ** The methods of [CSSRangeParser] *)

Definition shouldIgnoreDeeply (declaration : jsstring) : bool :=
  startsWith (str "@keyframes") declaration.

(** The [while (match = re.exec(selectors))] loop of [parseToNames] over
    the matches of [namesRE]. *)
Fixpoint namesOfMatches (ignoreDeep : nat) (selectors : jsstring)
    (ms : list Match) : list LeafName :=
  match ms with
  | [] => []
  | mt :: ms' =>
      let name := match group selectors mt 1 with
                  | Some g => trim g
                  | None => []
                  end in
      match name with
      | [] => namesOfMatches ignoreDeep selectors ms'
      | _ :: _ =>
          mkLeafName name name (Nat.eqb ignoreDeep 0)
          :: namesOfMatches ignoreDeep selectors ms'
      end
  end.

Definition parseToNames (P : CSSRangeParser) (ignoreDeep : nat)
    (selectors : jsstring) : list LeafName :=
  match matchStr commandRE selectors with
  | Some mt =>
      let command := matched selectors mt in
      if (str_eqb (languageId P) (str "scss")
          && str_eqb command (str "@at-root"))%bool
      then
        let selectors' := trimLeft (skipn (length command) selectors) in
        mkLeafName command command false
        :: namesOfMatches ignoreDeep selectors' (execAll namesRE selectors')
      else [mkLeafName selectors selectors false]
  | None => namesOfMatches ignoreDeep selectors (execAll namesRE selectors)
  end.

(** The [while (parent)] loop of [getClosestSelectorTypeFullNames]:
    [fuel] bounds the number of [parent] links followed; a parent is an
    older object than its child, so [length ranges] links reach the end
    of every chain. *)
Fixpoint closestSelectorType (fuel : nat) (ranges : list LeafRange)
    (ref : option nat) : option LeafRange :=
  match fuel with
  | O => None
  | S fuel' =>
      match ref with
      | None => None
      | Some a =>
          match nth_error ranges a with
          | None => None
          | Some p =>
              if (Nat.ltb 1 (length (names p))
                  || match names p with
                     | n0 :: _ => isSelector n0
                     | [] => false
                     end)%bool
              then Some p
              else closestSelectorType fuel' ranges (parent p)
          end
      end
  end.

(** [None] is [null]. *)
Definition getClosestSelectorTypeFullNames (st : Scan)
  : option (list jsstring) :=
  match closestSelectorType (length (ranges st)) (ranges st) (current st) with
  | None => None
  | Some p => Some (map full (filter isSelector (names p)))
  end.

(** The loop of [combineNestingNames].  [re] carries the [g] flag, so
    [re.test] starts at the [lastIndex] the previous use left; [replace]
    leaves it at 0, and runs once per parent name. *)
Fixpoint combineLoop (parentFullNames : option (list jsstring))
    (reLastIndex : nat) (oldNames : list LeafName) : list LeafName :=
  match oldNames with
  | [] => []
  | oldName :: rest =>
      if negb (isSelector oldName) then
        oldName :: combineLoop parentFullNames reLastIndex rest
      else
        match parentFullNames with
        | None => oldName :: combineLoop parentFullNames reLastIndex rest
        | Some pfs =>
            let (found, li) := testGlobal referenceRE (full oldName) reLastIndex in
            if found then
              map (fun parentFullName =>
                     mkLeafName (raw oldName)
                       (replaceAll referenceRE (full oldName) parentFullName)
                       true) pfs
              ++ combineLoop parentFullNames
                   (match pfs with [] => li | _ :: _ => 0 end) rest
            else
              map (fun parentFullName =>
                     mkLeafName (raw oldName)
                       (parentFullName ++ str " " ++ full oldName) true) pfs
              ++ combineLoop parentFullNames li rest
        end
  end.

Definition combineNestingNames (st : Scan) (oldNames : list LeafName)
  : list LeafName :=
  combineLoop (getClosestSelectorTypeFullNames st) 0 oldNames.

(** [newLeafRange] returns the new object and pushes on [stack]. *)
Definition newLeafRange (P : CSSRangeParser) (st : Scan)
    (selector : jsstring) (start : Z) : LeafRange * list nat :=
  let names := parseToNames P (ignoreDeep st) selector in
  let names :=
    if (supportsNesting P && Nat.eqb (ignoreDeep st) 0)%bool then
      match current st with
      | Some _ => combineNestingNames st names
      | None => names
      end
    else names in
  let parent := current st in
  let stack' :=
    match parent with
    | Some a => if supportsNesting P then a :: stack st else stack st
    | None => stack st
    end in
  (mkLeafRange names start 0 parent, stack').

(** [ranges[a].end = e] *)
Fixpoint setEnd (ranges : list LeafRange) (a : nat) (e : Z) : list LeafRange :=
  match ranges, a with
  | [], _ => []
  | r :: rs, O => mkLeafRange (names r) (start r) e (parent r) :: rs
  | r :: rs, S a' => r :: setEnd rs a' e
  end.

Definition isChar (c : cu) (s : option jsstring) : bool :=
  match s with
  | Some [d] => N.eqb d c
  | _ => false
  end.

(** [if (s)] for a string or [undefined]. *)
Definition truthy (s : option jsstring) : bool :=
  match s with
  | Some (_ :: _) => true
  | _ => false
  end.

(** [selector.trimRight().replace(/\s+/g, ' ')] *)
Definition normalizeSelector (selector : jsstring) : jsstring :=
  replaceAll spacesRE (trimRight selector) (str " ").

(** The branch of [parse] for [{] after a fragment. *)
Definition openBlock (P : CSSRangeParser) (st : Scan) (reLastIndex : nat)
    (selector : jsstring) : Scan :=
  let selector := normalizeSelector selector in
  let ignoreDeep' :=
    if (Nat.ltb 0 (ignoreDeep st) || shouldIgnoreDeeply selector)%bool
    then S (ignoreDeep st) else ignoreDeep st in
  let st1 := mkScan (ranges st) (stack st) (current st) ignoreDeep' in
  let (leaf, stack') :=
    newLeafRange P st1 selector
      (Z.of_nat reLastIndex - Z.of_nat (length selector) - 1) in
  mkScan (ranges st ++ [leaf]) stack' (Some (length (ranges st))) ignoreDeep'.

(** The branch of [parse] for [}]. *)
Definition closeBlock (P : CSSRangeParser) (st : Scan) (reLastIndex : nat)
  : Scan :=
  let ignoreDeep' := if Nat.ltb 0 (ignoreDeep st) then ignoreDeep st - 1
                     else ignoreDeep st in
  match current st with
  | Some a =>
      let ranges' := setEnd (ranges st) a (Z.of_nat reLastIndex) in
      if supportsNesting P then
        match stack st with
        | top :: stack' => mkScan ranges' stack' (Some top) ignoreDeep'
        | [] => mkScan ranges' [] None ignoreDeep'
        end
      else mkScan ranges' (stack st) (Some a) ignoreDeep'
  | None => mkScan (ranges st) (stack st) None ignoreDeep'
  end.

(** The body of the [while (match = re.exec(text))] loop of [parse]. *)
Definition step (P : CSSRangeParser) (text : jsstring) (st : Scan)
    (mt : Match) : Scan :=
  let selector := group text mt 1 in
  let endChar := group text mt 2 in
  if (isChar (ch "{") endChar && truthy selector)%bool then
    openBlock P st (lastIndex mt)
      (match selector with Some sel => sel | None => [] end)
  else if isChar (ch "}") endChar then closeBlock P st (lastIndex mt)
  else st.

(** After the loop: [if (this.current) if (this.current.end === 0) ...] *)
Definition closeAtEnd (text : jsstring) (st : Scan) : Scan :=
  match current st with
  | Some a =>
      match nth_error (ranges st) a with
      | Some r =>
          if Z.eqb (end_ r) 0 then
            mkScan (setEnd (ranges st) a (Z.of_nat (length text)))
              (stack st) (current st) (ignoreDeep st)
          else st
      | None => st
      end
  | None => st
  end.

(** [parse] up to the call of [formatToNamedRanges], on the fields [st]. *)
Definition scanFrom (P : CSSRangeParser) (st : Scan) : Scan :=
  let text := getText (document P) in
  closeAtEnd text (fold_left (step P text) (execAll blockRE text) st).

Definition scan (P : CSSRangeParser) : Scan := scanFrom P initScan.

Definition getRightMostDescendant (selector : jsstring) : jsstring :=
  match matchStr descendantRE selector with
  | Some mt => matched selector mt
  | None => []
  end.

Definition hasSingleReferenceInRightMostDescendant (selector : jsstring)
  : bool :=
  let rightMost := getRightMostDescendant selector in
  test singleReferenceRE rightMost.

Definition getMainSelector (selector : jsstring) : jsstring :=
  let rightMost := getRightMostDescendant selector in
  match rightMost with
  | [] => []
  | _ :: _ =>
      match matchStr mainRE rightMost with
      | None => []
      | Some mt =>
          let main := matched rightMost mt in
          if (test tagRE main
              && Nat.ltb (length rightMost) (length selector))%bool
          then [] else main
      end
  end.

Definition formatLeafNameToFullMainName (n : LeafName) : FullMainName :=
  if negb (isSelector n) then mkFullMainName (full n) []
  else
    let shouldHaveMain := negb (hasSingleReferenceInRightMostDescendant (raw n)) in
    mkFullMainName (full n)
      (if shouldHaveMain then getMainSelector (full n) else []).

Definition formatToNamedRanges (leafRanges : list LeafRange)
  : list NamedRange :=
  map (fun r => mkNamedRange (map formatLeafNameToFullMainName (names r))
                  (start r, end_ r)) leafRanges.

(** [parse] on a new instance. *)
Definition parse (P : CSSRangeParser) : list NamedRange :=
  formatToNamedRanges (ranges (scan P)).

(** [parse] on an instance whose fields an earlier call has left as
    [st]: the result covers the objects created by this call, and the
    fields are left for the next one. *)
Definition parseFrom (P : CSSRangeParser) (st : Scan)
  : list NamedRange * Scan :=
  let st' := scanFrom P st in
  (formatToNamedRanges (skipn (length (ranges st)) (ranges st')), st').

(** Parsing a document given by its language and text. *)
Definition parseText (lang text : string) : list NamedRange :=
  parse (newParser (mkTextDocument (str text) (str lang))).

(** ** Declarative semantics of the patterns

    [matches r s s']: [r] can consume the text between [s] and [s'].  It
    forgets the order in which the backtracking matcher tries the
    alternatives; [m_sound] shows that every result of the matcher is
    one of these. *)

Inductive matches : regex -> MState -> MState -> Prop :=
| MEmpty s : matches Empty s s
| MChar p c t s :
    rest s = c :: t -> p c = true -> matches (Char p) s (advance c t s)
| MSeq r1 r2 s s1 s2 :
    matches r1 s s1 -> matches r2 s1 s2 -> matches (Seq r1 r2) s s2
| MAltL r1 r2 s s' : matches r1 s s' -> matches (Alt r1 r2) s s'
| MAltR r1 r2 s s' : matches r2 s s' -> matches (Alt r1 r2) s s'
| MStar0 g r s : matches (Star g r) s s
| MStarS g r s s1 s2 :
    matches r s s1 -> pos s1 <> pos s -> matches (Star g r) s1 s2 ->
    matches (Star g r) s s2
| MGroup i r s s' :
    matches r s s' -> matches (Group i r) s (setCap i (pos s) s')
| MBol s : pos s = 0 -> matches Bol s s
| MEol s : rest s = [] -> matches Eol s s
| MLookBehind r s : behind r s = true -> matches (LookBehind r) s s.

Fixpoint groupFree (r : regex) : bool :=
  match r with
  | Seq r1 r2 | Alt r1 r2 => (groupFree r1 && groupFree r2)%bool
  | Star _ r' => groupFree r'
  | Group _ _ => false
  | _ => true
  end.

(** A match of [blockRE] as [parse] sees it. *)
Definition wfBlockMatch (text : jsstring) (from : nat) (mt : Match) : Prop :=
  from <= index mt /\ index mt < lastIndex mt /\ lastIndex mt <= length text /\
  (groups mt = []
   \/ exists a b c,
        groups mt = [(2, (b, S b)); (1, (a, b))] /\ index mt <= a /\ a <= b /\
        lastIndex mt = S b /\ nth_error text b = Some c /\
        isTerminator c = true).


(** The matches of one [parse] loop: each starts at or after the end of
    the one before. *)
Inductive wfMatches (text : jsstring) : nat -> list Match -> Prop :=
| wfm_nil from : wfMatches text from []
| wfm_cons from mt ms :
    wfBlockMatch text from mt -> wfMatches text (lastIndex mt) ms ->
    wfMatches text from (mt :: ms).

(** The fields after the first [n] rounds of the loop of [parse]. *)
Definition stateAt (P : CSSRangeParser) (n : nat) : Scan :=
  let text := getText (document P) in
  fold_left (step P text) (firstn n (execAll blockRE text)) initScan.

(** The fields of a [LeafRange] that are never assigned after its
    creation. *)
Definition core (r : LeafRange) : list LeafName * Z * option nat :=
  (names r, start r, parent r).

(** [rs'] holds the objects of [rs], possibly with other [end]s, and
    then newer ones. *)
Definition extends (rs rs' : list LeafRange) : Prop :=
  exists newer, map core rs' = map core rs ++ newer.

(** ** Invariants of the loop of [parse] *)

(** The open blocks as the fields hold them: the active one, then the
    stack from its top. *)
Definition chainOf (st : Scan) : list nat :=
  match current st with
  | Some a => a :: stack st
  | None => stack st
  end.

(** Every object of [chain] has the next one as its [parent], the last
    one none. *)
Fixpoint linked (rs : list LeafRange) (chain : list nat) : Prop :=
  match chain with
  | [] => True
  | c :: older =>
      (exists r, nth_error rs c = Some r /\ parent r = hd_error older)
      /\ linked rs older
  end.

Fixpoint descending (bound : nat) (chain : list nat) : Prop :=
  match chain with
  | [] => True
  | c :: older => c < bound /\ descending c older
  end.

(** Offsets, for every dialect, when [re.lastIndex] has reached [L]. *)
Definition InvPos (text : jsstring) (L : nat) (st : Scan) : Prop :=
  L <= length text
  /\ (forall i r, nth_error (ranges st) i = Some r ->
        (start r < Z.of_nat L /\ 0 <= end_ r <= Z.of_nat L
         /\ (end_ r <> 0 -> start r < end_ r))%Z)
  /\ (forall i r j, nth_error (ranges st) i = Some r -> parent r = Some j ->
        j < i /\ exists p, nth_error (ranges st) j = Some p
                           /\ (start p < start r)%Z)
  /\ (forall a, In a (chainOf st) -> a < length (ranges st)).

(** The open blocks of a nesting dialect. *)
Definition InvNest (st : Scan) : Prop :=
  (current st = None -> stack st = [])
  /\ descending (length (ranges st)) (chainOf st)
  /\ linked (ranges st) (chainOf st)
  /\ (forall i r, nth_error (ranges st) i = Some r ->
        (end_ r = 0%Z <-> In i (chainOf st)))
  /\ (forall i r j p, nth_error (ranges st) i = Some r -> parent r = Some j ->
        nth_error (ranges st) j = Some p -> end_ p <> 0%Z ->
        end_ r <> 0%Z /\ (end_ r <= end_ p)%Z).

(** All names but the first are selectors. *)
Definition shaped (ns : list LeafName) : Prop :=
  forallb isSelector (tl ns) = true.

(** Below the blocks of a deep-ignore region, the open blocks have
    names as [parseToNames] and [combineNestingNames] make them outside
    of such a region. *)
Definition InvGood (st : Scan) : Prop :=
  Forall (fun c => exists r, nth_error (ranges st) c = Some r
                             /\ shaped (names r))
    (skipn (ignoreDeep st) (chainOf st)).

(** A dialect without nesting: the block opened last stays active. *)
Definition InvFlat (st : Scan) : Prop :=
  stack st = []
  /\ current st = match ranges st with
                  | [] => None
                  | _ :: _ => Some (length (ranges st) - 1)
                  end.

(** ** Nesting resolution as the specification words it *)

(** The blocks reached from a reference by following [parent] links,
    nearest first. *)
Inductive parentPath (rs : list LeafRange)
  : option nat -> list LeafRange -> Prop :=
| path_end : parentPath rs None []
| path_step a r path :
    nth_error rs a = Some r -> parentPath rs (parent r) path ->
    parentPath rs (Some a) (r :: path).

(** The name list contains at least one name with [isSelector = true]. *)
Definition hasSelector (r : LeafRange) : bool := existsb isSelector (names r).

(** The [full] strings of the selector-type names of a block. *)
Definition selectorFullNames (r : LeafRange) : list jsstring :=
  map full (filter isSelector (names r)).

(** ** Fragments made of ordinary code units and delimited spans *)

(** A piece of a fragment: one code unit, or a span from an opening to
    a closing delimiter. *)
Inductive piece : Type :=
| Plain (x : cu)
| Span (opening : cu) (body : jsstring) (closing : cu).

Definition isDelims (o c : cu) : bool :=
  ((N.eqb o (ch "(") && N.eqb c (ch ")"))
   || (N.eqb o QUOTE && N.eqb c QUOTE)
   || (N.eqb o (ch "'") && N.eqb c (ch "'")))%bool.

(** An ordinary code unit is neither a terminator nor an opening
    delimiter; the body of a span stays on one line and does not
    contain the closing delimiter. *)
Definition pieceOk (p : piece) : bool :=
  match p with
  | Plain x =>
      (negb (isTerminator x) && noneOf [ch "("; QUOTE; ch "'"] x)%bool
  | Span o body c =>
      (isDelims o c
       && forallb (fun y => dot y && negb (N.eqb c y)) body)%bool
  end.

Definition pieceText (p : piece) : jsstring :=
  match p with
  | Plain x => [x]
  | Span o body c => o :: body ++ [c]
  end.

Definition piecesText (ps : list piece) : jsstring :=
  concat (map pieceText ps).

(** The fragment does not begin with white space, and does not begin
    as a comment does, with [//] or [/*]. *)
Definition fragmentStart (frag : jsstring) : bool :=
  match frag with
  | [] => true
  | f :: more =>
      (negb (isSpace f)
       && negb (N.eqb (ch "/") f
                && match more with
                   | y :: _ => oneOf [ch "/"; ch "*"] y
                   | [] => false
                   end))%bool
  end.

(** The matcher state after consuming the code units [l]. *)
Fixpoint consume (l : jsstring) (s : MState) : MState :=
  match l with
  | [] => s
  | x :: l' => consume l' (advance x (tl (rest s)) s)
  end.

(** What follows group 1 of [blockRE]: group 2, opened at [p1]. *)
Definition terminatorK (p1 : nat) (s : MState) : option MState :=
  m (Group 2 (Char isTerminator)) Some (setCap 1 p1 s).

(** ** Objects left by an earlier call *)

(** The object [r] when [b] older objects lie before the array. *)
Definition shiftRange (b : nat) (r : LeafRange) : LeafRange :=
  mkLeafRange (names r) (start r) (end_ r) (option_map (Nat.add b) (parent r)).

(** The fields [s] of a call on a new instance, as they are when the
    objects [older] exist already and the call refers to none of them. *)
Definition shiftScan (older : list LeafRange) (s : Scan) : Scan :=
  mkScan (older ++ map (shiftRange (length older)) (ranges s))
    (map (Nat.add (length older)) (stack s))
    (option_map (Nat.add (length older)) (current s))
    (ignoreDeep s).

(** [s'] lies at or after [s] in the same text. *)
Definition reach (s s' : MState) : Prop :=
  exists mid, rest s = mid ++ rest s' /\ pos s' = pos s + length mid.

(** ** Further notions for the properties of the whole parser *)

(** The match opens a block: it ends in [{] after a non-empty fragment
    (the first test of the loop of [parse]). *)
Definition opens (text : jsstring) (mt : Match) : bool :=
  (isChar (ch "{") (group text mt 2) && truthy (group text mt 1))%bool.

(** The three invariants together. *)
Definition Inv (P : CSSRangeParser) (text : jsstring) (L : nat) (st : Scan)
  : Prop :=
  InvPos text L st
  /\ (supportsNesting P = true -> InvNest st /\ InvGood st)
  /\ (supportsNesting P = false -> InvFlat st).

(** The starts of the blocks are offsets, and grow with the blocks. *)
Definition InvOrder (st : Scan) : Prop :=
  (forall i r, nth_error (ranges st) i = Some r -> (0 <= start r)%Z)
  /\ (forall i j ri rj, i < j -> nth_error (ranges st) i = Some ri ->
        nth_error (ranges st) j = Some rj -> (start ri < start rj)%Z).

(** ** Nesting resolution without the pattern

    The parent reference [&] counts where it stands at the start of the
    selector or directly after white space or one of [+], [>], [~]. *)

Definition atBoundary (prev : option cu) : bool :=
  match prev with
  | None => true
  | Some c => isCombinator c
  end.

(** The offset, from the current one, of the first reference; [prev] is
    the code unit before the current one. *)
Fixpoint findReference (prev : option cu) (s : jsstring) : option nat :=
  match s with
  | [] => None
  | c :: t =>
      if (N.eqb (ch "&") c && atBoundary prev)%bool then Some 0
      else option_map S (findReference (Some c) t)
  end.

Definition hasReference (s : jsstring) : bool :=
  match findReference None s with
  | Some _ => true
  | None => false
  end.

(** Every reference replaced by [parentFullName]. *)
Fixpoint replaceReferences (parentFullName : jsstring) (prev : option cu)
    (s : jsstring) : jsstring :=
  match s with
  | [] => []
  | c :: t =>
      if (N.eqb (ch "&") c && atBoundary prev)%bool
      then parentFullName ++ replaceReferences parentFullName (Some c) t
      else c :: replaceReferences parentFullName (Some c) t
  end.

(** What one child name becomes under the parent names
    [parentFullNames]: a name that is no selector stays; a selector with
    a reference gives one copy per parent name with the references
    replaced; any other selector one copy per parent name, behind the
    parent name and a space. *)
Definition combineOne (parentFullNames : list jsstring) (n : LeafName)
  : list LeafName :=
  if negb (isSelector n) then [n]
  else if hasReference (full n) then
    map (fun p => mkLeafName (raw n) (replaceReferences p None (full n)) true)
      parentFullNames
  else
    map (fun p => mkLeafName (raw n) (p ++ str " " ++ full n) true)
      parentFullNames.

(** The string is not empty and has no white space at either end. *)
Definition trimmed (s : jsstring) : bool :=
  match s, rev s with
  | x :: _, y :: _ => (negb (isSpace x) && negb (isSpace y))%bool
  | _, _ => false
  end.

(** A class, id or tag token: an optional [.] or [#], a word code unit,
    then word code units and [-]. *)
Definition isIdentifier (s : jsstring) : bool :=
  match s with
  | [] => false
  | c :: w =>
      if oneOf [ch "#"; ch "."] c then
        match w with
        | y :: w' => (isWord y && forallb isWordOrDash w')%bool
        | [] => false
        end
      else (isWord c && forallb isWordOrDash w)%bool
  end.

(** The string does not contain the end of a block comment. *)
Fixpoint noCommentEnd (s : jsstring) : bool :=
  match s with
  | [] => true
  | c :: t =>
      (negb (N.eqb c (ch "*")
             && match t with d :: _ => N.eqb d (ch "/") | [] => false end)
       && noCommentEnd t)%bool
  end.

(** Every run of white space replaced by one space; [inRun] tells that
    the code unit before was white space. *)
Fixpoint collapseSpaces (inRun : bool) (s : jsstring) : jsstring :=
  match s with
  | [] => []
  | c :: t =>
      if isSpace c then
        if inRun then collapseSpaces true t
        else ch " " :: collapseSpaces true t
      else c :: collapseSpaces false t
  end.

(** ** Selector lists *)

Definition isBrackets (o c : cu) : bool :=
  ((N.eqb o (ch "[") && N.eqb c (ch "]"))
   || (N.eqb o (ch "(") && N.eqb c (ch ")")))%bool.

(** In a selector list an ordinary code unit is no comma and no opening
    bracket; the body of a bracketed span does not contain the closing
    bracket. *)
Definition namePieceOk (p : piece) : bool :=
  match p with
  | Plain x => noneOf [ch ","; ch "["; ch "("] x
  | Span o body c =>
      (isBrackets o c && forallb (fun y => negb (N.eqb c y)) body)%bool
  end.

(** One member of a selector list: at least one piece. *)
Definition partOk (ps : list piece) : bool :=
  match ps with
  | [] => false
  | _ :: _ => forallb namePieceOk ps
  end.

(** The members with a comma between them. *)
Fixpoint joinComma (l : list jsstring) : jsstring :=
  match l with
  | [] => []
  | a :: l' =>
      match l' with
      | [] => a
      | _ :: _ => a ++ ch "," :: joinComma l'
      end
  end.

(** The name a member gives: none when only white space is left. *)
Definition nameOfPart (ignoreDeep : nat) (part : jsstring) : list LeafName :=
  match trim part with
  | [] => []
  | name => [mkLeafName name name (Nat.eqb ignoreDeep 0)]
  end.

(** One round of the group of [namesRE], and what follows group 1,
    opened at [p1]. *)
Definition nameStepRE : regex :=
  Alt (spanRE anyChar (lit "[") (lit "]"))
  (Alt (spanRE anyChar (lit "(") (lit ")"))
       (Char anyChar)).

Definition endK (p1 : nat) (s : MState) : option MState :=
  m (Alt (lit ",") Eol) Some (setCap 1 p1 s).

(** What stands behind a member: the end of the text or a comma. *)
Definition afterPart (tail : jsstring) : bool :=
  match tail with
  | [] => true
  | x :: _ => N.eqb (ch ",") x
  end.

(** ** Compound selectors *)

(** One round of the group of [descendantRE]. *)
Definition descendantStepRE : regex :=
  Alt (spanRE (noneOf [ch "]"]) (lit "[") (lit "]"))
  (Alt (spanRE (noneOf [ch ")"]) (lit "(") (lit ")"))
       (Char (fun c => negb (isCombinator c)))).

(** In a compound selector an ordinary code unit is no combinator and
    no opening bracket; the body of a bracketed span does not contain
    the closing bracket. *)
Definition descendantPieceOk (p : piece) : bool :=
  match p with
  | Plain x => (negb (isCombinator x) && noneOf [ch "["; ch "("] x)%bool
  | Span o body c =>
      (isBrackets o c && forallb (fun y => negb (N.eqb c y)) body)%bool
  end.

(** The string is empty or ends with a combinator. *)
Definition endsWithCombinator (s : jsstring) : bool :=
  match lastCu s with
  | Some c => isCombinator c
  | None => true
  end.
(** * Properties *)

(** ** The matcher *)

Lemma m_sound (r : regex) :
  forall k s res, m r k s = Some res ->
  exists s', matches r s s' /\ k s' = Some res.
Proof.
  induction r as [ | p | r1 IH1 r2 IH2 | r1 IH1 r2 IH2 | g r IH | i r IH | | | r IH];
    intros k s res H; cbn [m] in H.
  - exists s; split; [constructor | exact H].
  - destruct (rest s) as [ | c t] eqn:E; [discriminate | ].
    destruct (p c) eqn:Ep; [ | discriminate].
    exists (advance c t s); split; [now constructor | exact H].
  - apply IH1 in H. destruct H as (s1 & M1 & H).
    apply IH2 in H. destruct H as (s2 & M2 & H).
    exists s2; split; [econstructor; eassumption | exact H].
  - unfold orElse in H. destruct (m r1 k s) eqn:E1.
    + apply IH1 in E1. destruct E1 as (s' & M1 & K).
      exists s'; split; [now apply MAltL | congruence].
    + apply IH2 in H. destruct H as (s' & M2 & K).
      exists s'; split; [now apply MAltR | exact K].
  - revert H. generalize (S (length (rest s))). intros fuel; revert s.
    induction fuel as [ | fuel IHf]; intros s H; simpl in H.
    + exists s; split; [constructor | exact H].
    + assert (again :
         m r (fun s' => if Nat.eqb (pos s') (pos s) then None
                        else starLoop (m r) g k fuel s') s = Some res ->
         exists s', matches (Star g r) s s' /\ k s' = Some res).
      { intros A. apply IH in A. destruct A as (s1 & M1 & A).
        destruct (Nat.eqb (pos s1) (pos s)) eqn:Ep; [discriminate | ].
        apply Nat.eqb_neq in Ep. apply IHf in A. destruct A as (s2 & M2 & A).
        exists s2; split; [eapply MStarS; eassumption | exact A]. }
      destruct g; unfold orElse in H.
      * match type of H with
        | match ?a with _ => _ end = _ => destruct a eqn:E
        end.
        -- inversion H; subst. now apply again.
        -- exists s; split; [constructor | exact H].
      * destruct (k s) eqn:E.
        -- inversion H; subst. exists s; split; [constructor | exact E].
        -- now apply again.
  - apply IH in H. destruct H as (s' & M1 & H).
    exists (setCap i (pos s) s'); split; [now constructor | exact H].
  - destruct (Nat.eqb (pos s) 0) eqn:E; [ | discriminate].
    apply Nat.eqb_eq in E. exists s; split; [now constructor | exact H].
  - destruct (rest s) eqn:E; [ | discriminate].
    exists s; split; [now constructor | exact H].
  - destruct (behind r s) eqn:E; [ | discriminate].
    exists s; split; [now constructor | exact H].
Qed.

(** What a pattern consumes is a prefix of the remaining text. *)
Lemma matches_span r s s' :
  matches r s s' ->
  exists mid, rest s = mid ++ rest s' /\ pos s' = pos s + length mid.
Proof.
  induction 1.
  - exists []; simpl; split; [reflexivity | lia].
  - exists [c]; simpl; split; [assumption | lia].
  - destruct IHmatches1 as (m1 & E1 & P1), IHmatches2 as (m2 & E2 & P2).
    exists (m1 ++ m2). rewrite E1, E2, <- app_assoc, length_app.
    split; [reflexivity | lia].
  - assumption.
  - assumption.
  - exists []; simpl; split; [reflexivity | lia].
  - destruct IHmatches1 as (m1 & E1 & P1), IHmatches2 as (m2 & E2 & P2).
    exists (m1 ++ m2). rewrite E1, E2, <- app_assoc, length_app.
    split; [reflexivity | lia].
  - destruct IHmatches as (m1 & E1 & P1). exists m1; simpl; split; assumption.
  - exists []; simpl; split; [reflexivity | lia].
  - exists []; simpl; split; [reflexivity | lia].
  - exists []; simpl; split; [reflexivity | lia].
Qed.

Lemma matches_caps r s s' :
  matches r s s' -> groupFree r = true -> caps s' = caps s.
Proof.
  induction 1; simpl; intros G; try reflexivity;
    try (apply andb_prop in G; destruct G as [G1 G2]).
  - rewrite IHmatches2, IHmatches1; auto.
  - auto.
  - auto.
  - rewrite IHmatches2, IHmatches1; auto.
  - discriminate.
Qed.

Ltac inv H := inversion H; subst; clear H.

Lemma search_sound (r : regex) :
  forall t p pv mt, search r p pv t = Some mt ->
  exists pre t' pv' s',
    t = pre ++ t' /\ index mt = p + length pre /\
    m r Some (mkMState (index mt) pv' t' []) = Some s' /\
    pos s' = lastIndex mt /\ caps s' = groups mt.
Proof.
  induction t as [ | c t IH]; intros p pv mt H; simpl in H.
  - destruct (m r Some (mkMState p pv [] [])) as [s' | ] eqn:E; [ | discriminate].
    inv H. exists [], [], pv, s'; simpl.
    repeat split; auto.
  - destruct (m r Some (mkMState p pv (c :: t) [])) as [s' | ] eqn:E.
    + inv H. exists [], (c :: t), pv, s'; simpl. repeat split; auto.
    + apply IH in H. destruct H as (pre & t' & pv' & s' & Et & Ei & Em & Ep & Ec).
      exists (c :: pre), t', pv', s'; simpl. subst t.
      repeat split; auto. lia.
Qed.

(** Every match that [exec] reports lies in the text, at or after the
    offset the search started from. *)
Lemma exec_sound (r : regex) text from mt :
  exec r text from = Some mt ->
  exists before t' pv' s',
    text = before ++ t' /\ length before = index mt /\ from <= index mt /\
    matches r (mkMState (index mt) pv' t' []) s' /\
    pos s' = lastIndex mt /\ caps s' = groups mt.
Proof.
  unfold exec. destruct (Nat.ltb (length text) from) eqn:L; [discriminate | ].
  apply Nat.ltb_ge in L. intros H. apply search_sound in H.
  destruct H as (pre & t' & pv' & s' & Et & Ei & Em & Ep & Ec).
  apply m_sound in Em. destruct Em as (s'' & M & K). inv K.
  exists (firstn from text ++ pre), t', pv', s'.
  rewrite <- app_assoc, <- Et, firstn_skipn, length_app, firstn_length_le by lia.
  repeat split; auto; lia.
Qed.

Lemma inv_Seq r1 r2 s s' :
  matches (Seq r1 r2) s s' -> exists s1, matches r1 s s1 /\ matches r2 s1 s'.
Proof. intros M; inv M; eauto. Qed.

Lemma inv_Alt r1 r2 s s' :
  matches (Alt r1 r2) s s' -> matches r1 s s' \/ matches r2 s s'.
Proof. intros M; inv M; auto. Qed.

Lemma inv_Char p s s' :
  matches (Char p) s s' ->
  exists c t, rest s = c :: t /\ p c = true /\ s' = advance c t s.
Proof. intros M; inv M; eauto. Qed.

Lemma inv_Group i r s s' :
  matches (Group i r) s s' ->
  exists s1, matches r s s1 /\ s' = setCap i (pos s) s1.
Proof. intros M; inv M; eauto. Qed.

Lemma matches_two_chars p q r s s' :
  matches (Seq (Char p) (Seq (Char q) r)) s s' -> groupFree r = true ->
  caps s' = caps s /\ pos s + 2 <= pos s'.
Proof.
  intros M G.
  apply inv_Seq in M. destruct M as (s1 & M1 & M).
  apply inv_Seq in M. destruct M as (s2 & M2 & M).
  apply inv_Char in M1. destruct M1 as (c1 & t1 & _ & _ & ->).
  apply inv_Char in M2. destruct M2 as (c2 & t2 & _ & _ & ->).
  pose proof (matches_caps _ _ _ M G) as C. apply matches_span in M.
  destruct M as (mid & _ & P). simpl in *. split; [exact C | lia].
Qed.

(** The shape of a match of [blockRE]: a comment without groups, or a
    fragment (group 1) directly followed by one terminator (group 2). *)
Lemma blockRE_matches s s' :
  matches blockRE s s' -> caps s = [] ->
  (caps s' = [] /\ pos s + 2 <= pos s')
  \/ exists a b c mid,
      caps s' = [(2, (b, S b)); (1, (a, b))] /\ pos s <= a /\ a <= b /\
      pos s' = S b /\ isTerminator c = true /\
      rest s = mid ++ c :: rest s' /\ b = pos s + length mid.
Proof.
  intros M C. unfold blockRE in M.
  apply inv_Seq in M. destruct M as (s1 & Mws & M).
  pose proof (matches_caps _ _ _ Mws eq_refl) as C1. rewrite C in C1.
  apply matches_span in Mws. destruct Mws as (ws & Ews & Pws).
  apply inv_Alt in M. destruct M as [M | M]; [ | apply inv_Alt in M; destruct M as [M | M]].
  - left. apply matches_two_chars in M; [ | reflexivity].
    destruct M as [C2 P2]. split; [congruence | lia].
  - left. apply matches_two_chars in M; [ | reflexivity].
    destruct M as [C2 P2]. split; [congruence | lia].
  - right. apply inv_Seq in M. destruct M as (s2 & M1 & M2).
    apply inv_Group in M1. destruct M1 as (s3 & Mfr & ->).
    apply inv_Group in M2. destruct M2 as (s4 & Mt & ->).
    apply inv_Char in Mt. destruct Mt as (c & t & Ec & Tc & ->).
    pose proof (matches_caps _ _ _ Mfr eq_refl) as C2.
    apply matches_span in Mfr. destruct Mfr as (fr & Efr & Pfr).
    simpl in *. exists (pos s1), (pos s3), c, (ws ++ fr).
    rewrite C2, C1, Ews, Efr, Ec, <- app_assoc, length_app.
    repeat split; auto; lia.
Qed.

Lemma exec_blockRE text from mt :
  exec blockRE text from = Some mt -> wfBlockMatch text from mt.
Proof.
  intros H. apply exec_sound in H.
  destruct H as (before & t' & pv' & s' & Et & Eb & Ef & M & Ep & Ec).
  pose proof (matches_span _ _ _ M) as (mid & Emid & Pmid). simpl in Emid, Pmid.
  assert (Hlen : lastIndex mt <= length text).
  { rewrite Et, Emid, !length_app. lia. }
  apply blockRE_matches in M; [ | reflexivity]. simpl in M.
  unfold wfBlockMatch.
  destruct M as [[C P] | (a & b & c & mid' & C & Pa & Pb & Pe & T & Er & Eb')].
  - repeat split; try lia. left; congruence.
  - repeat split; try lia. right. exists a, b, c.
    repeat split; try congruence; try lia.
    rewrite Et, Er, app_assoc.
    rewrite nth_error_app2; rewrite length_app; [ | lia].
    replace (b - (length before + length mid')) with 0 by lia. reflexivity.
Qed.

Lemma execLoop_wf text :
  forall fuel from, wfMatches text from (execLoop fuel blockRE text from).
Proof.
  induction fuel as [ | fuel IH]; intros from; simpl; [constructor | ].
  destruct (exec blockRE text from) as [mt | ] eqn:E; [ | constructor].
  constructor; [now apply exec_blockRE | apply IH].
Qed.

Lemma execAll_wf text : wfMatches text 0 (execAll blockRE text).
Proof. apply execLoop_wf. Qed.

(** The loop over the matches ends by itself: with [lastIndex] at [from],
    any fuel above [length text - from] gives the same matches. *)
Lemma execLoop_fuel text :
  forall fuel1 fuel2 from,
  length text < fuel1 + from -> length text < fuel2 + from ->
  execLoop fuel1 blockRE text from = execLoop fuel2 blockRE text from.
Proof.
  assert (stop : forall fuel from, length text < from ->
            execLoop fuel blockRE text from = []).
  { intros [ | fuel] from L; simpl; [reflexivity | ].
    unfold exec. apply Nat.ltb_lt in L. now rewrite L. }
  induction fuel1 as [ | fuel1 IH]; intros fuel2 from L1 L2.
  - rewrite !stop by lia. reflexivity.
  - destruct fuel2 as [ | fuel2]; [rewrite !stop by lia; reflexivity | ].
    simpl. destruct (exec blockRE text from) as [mt | ] eqn:E; [ | reflexivity].
    apply exec_blockRE in E. destruct E as (E1 & E2 & E3 & _).
    f_equal. apply IH; lia.
Qed.

Lemma execAll_fuel text fuel :
  length text < fuel -> execLoop fuel blockRE text 0 = execAll blockRE text.
Proof. intros L. apply execLoop_fuel; lia. Qed.

Lemma wfMatches_nth text :
  forall ms from n mt, wfMatches text from ms -> nth_error ms n = Some mt ->
  exists from', from <= from' /\ wfBlockMatch text from' mt.
Proof.
  induction ms as [ | m0 ms IH]; intros from n mt W E.
  - destruct n; discriminate.
  - inversion W as [ | ? ? ? Wm Wms]; subst. destruct n as [ | n]; simpl in E.
    + inv E. exists from; split; [lia | assumption].
    + destruct (IH _ _ _ Wms E) as (from' & L & W').
      exists from'; split; [ | assumption].
      destruct Wm as (A & B & _). lia.
Qed.

(** ** Normalising a selector never makes it longer *)

Lemma trimLeft_length s : length (trimLeft s) <= length s.
Proof.
  induction s as [ | c s IH]; simpl; [lia | ].
  destruct (isSpace c); simpl; lia.
Qed.

Lemma trimRight_length s : length (trimRight s) <= length s.
Proof.
  unfold trimRight. rewrite length_rev.
  etransitivity; [apply trimLeft_length | rewrite length_rev; lia].
Qed.

Lemma exec_spacesRE text from mt :
  exec spacesRE text from = Some mt ->
  from <= index mt /\ index mt < lastIndex mt /\ lastIndex mt <= length text.
Proof.
  intros H. apply exec_sound in H.
  destruct H as (before & t' & pv' & s' & Et & Eb & Ef & M & Ep & Ec).
  pose proof (matches_span _ _ _ M) as (mid & Emid & Pmid). simpl in Emid, Pmid.
  unfold spacesRE, Plus in M. apply inv_Seq in M. destruct M as (s1 & M1 & M2).
  apply inv_Char in M1. destruct M1 as (c & t & _ & _ & ->).
  apply matches_span in M2. destruct M2 as (mid2 & _ & P2). simpl in P2.
  rewrite Et, Emid, !length_app. lia.
Qed.

Lemma substring_length text a b :
  a <= b -> b <= length text -> length (substring text a b) = b - a.
Proof.
  intros L1 L2. unfold substring. rewrite length_firstn, length_skipn. lia.
Qed.

Lemma replaceLoop_spaces_length text :
  forall fuel from,
  from <= length text ->
  length (replaceLoop fuel spacesRE text (str " ") from from)
  <= length text - from.
Proof.
  induction fuel as [ | fuel IH]; intros from L; simpl.
  - rewrite length_skipn. lia.
  - destruct (exec spacesRE text from) as [mt | ] eqn:E.
    + apply exec_spacesRE in E. destruct E as (E1 & E2 & E3).
      replace (Nat.eqb (lastIndex mt) (index mt)) with false
        by (symmetry; apply Nat.eqb_neq; lia).
      change (getSubstitution (matched text mt) (firstn (index mt) text)
                (skipn (lastIndex mt) text) (str " ")) with [32%N].
      rewrite !length_app, substring_length by lia.
      specialize (IH (lastIndex mt) E3). simpl length. lia.
    + rewrite length_skipn. lia.
Qed.

Lemma normalizeSelector_length sel :
  length (normalizeSelector sel) <= length sel.
Proof.
  unfold normalizeSelector, replaceAll.
  etransitivity; [apply replaceLoop_spaces_length; lia | ].
  pose proof (trimRight_length sel). lia.
Qed.

(** ** The objects of a parse *)

Lemma setEnd_core rs : forall a e, map core (setEnd rs a e) = map core rs.
Proof.
  induction rs as [ | r rs IH]; intros [ | a] e; simpl; try reflexivity.
  now rewrite IH.
Qed.

Lemma setEnd_length rs a e : length (setEnd rs a e) = length rs.
Proof.
  rewrite <- (length_map core (setEnd rs a e)), setEnd_core.
  apply length_map.
Qed.

Lemma setEnd_other rs : forall a e i,
  i <> a -> nth_error (setEnd rs a e) i = nth_error rs i.
Proof.
  induction rs as [ | r rs IH]; intros [ | a] e [ | i] N; simpl;
    try reflexivity; try congruence.
  apply IH. congruence.
Qed.

Lemma setEnd_same rs : forall a e r,
  nth_error rs a = Some r ->
  nth_error (setEnd rs a e) a
  = Some (mkLeafRange (names r) (start r) e (parent r)).
Proof.
  induction rs as [ | r0 rs IH]; intros [ | a] e r E; simpl in *;
    try discriminate.
  - now inv E.
  - now apply IH.
Qed.

Lemma extends_refl rs : extends rs rs.
Proof. exists []. now rewrite app_nil_r. Qed.

Lemma extends_trans rs1 rs2 rs3 :
  extends rs1 rs2 -> extends rs2 rs3 -> extends rs1 rs3.
Proof.
  intros [n1 E1] [n2 E2]. exists (n1 ++ n2). now rewrite E2, E1, app_assoc.
Qed.

Lemma extends_nth rs rs' i r :
  extends rs rs' -> nth_error rs i = Some r ->
  exists r', nth_error rs' i = Some r' /\ core r' = core r.
Proof.
  intros [newer E] H.
  assert (H' : nth_error (map core rs') i = Some (core r)).
  { rewrite E, nth_error_app1.
    - now rewrite nth_error_map, H.
    - rewrite length_map. apply nth_error_Some. congruence. }
  rewrite nth_error_map in H'.
  destruct (nth_error rs' i) as [r' | ]; [ | discriminate].
  exists r'. split; [reflexivity | simpl in H'; congruence].
Qed.

Lemma openBlock_fields P st li sel :
  exists nm ig,
    openBlock P st li sel
    = mkScan
        (ranges st
         ++ [mkLeafRange nm
               (Z.of_nat li - Z.of_nat (length (normalizeSelector sel)) - 1)
               0 (current st)])
        (match current st with
         | Some a => if supportsNesting P then a :: stack st else stack st
         | None => stack st
         end)
        (Some (length (ranges st))) ig.
Proof.
  unfold openBlock, newLeafRange. cbn [ranges stack current ignoreDeep].
  eexists _, _. reflexivity.
Qed.

Lemma closeBlock_extends P st li : extends (ranges st) (ranges (closeBlock P st li)).
Proof.
  unfold closeBlock. exists [].
  destruct (current st) as [a | ]; [ | now rewrite app_nil_r].
  destruct (supportsNesting P); [destruct (stack st) | ]; simpl;
    now rewrite setEnd_core, app_nil_r.
Qed.

Lemma step_extends P text st mt : extends (ranges st) (ranges (step P text st mt)).
Proof.
  unfold step.
  destruct (isChar (ch "{") (group text mt 2) && truthy (group text mt 1))%bool.
  - destruct (openBlock_fields P st (lastIndex mt)
                (match group text mt 1 with Some sel => sel | None => [] end))
      as (nm & ig & ->). simpl.
    eexists. rewrite map_app. reflexivity.
  - destruct (isChar (ch "}") (group text mt 2));
      [apply closeBlock_extends | apply extends_refl].
Qed.

Lemma fold_step_extends P text ms :
  forall st, extends (ranges st) (ranges (fold_left (step P text) ms st)).
Proof.
  induction ms as [ | mt ms IH]; intros st; simpl; [apply extends_refl | ].
  eapply extends_trans; [apply step_extends | apply IH].
Qed.

Lemma closeAtEnd_extends text st : extends (ranges st) (ranges (closeAtEnd text st)).
Proof.
  unfold closeAtEnd. destruct (current st) as [a | ]; [ | apply extends_refl].
  destruct (nth_error (ranges st) a) as [r | ]; [ | apply extends_refl].
  destruct (Z.eqb (end_ r) 0); [ | apply extends_refl].
  exists []. simpl. now rewrite setEnd_core, app_nil_r.
Qed.

Lemma stateAt_S P n mt :
  nth_error (execAll blockRE (getText (document P))) n = Some mt ->
  stateAt P (S n) = step P (getText (document P)) (stateAt P n) mt.
Proof.
  unfold stateAt. generalize (execAll blockRE (getText (document P))) as ms.
  generalize initScan as st. revert mt.
  induction n as [ | n IH]; intros mt st [ | m0 ms] E; simpl in E; try discriminate.
  - now inv E.
  - simpl. now apply IH.
Qed.

Lemma scan_from_stateAt P n :
  scan P = closeAtEnd (getText (document P))
             (fold_left (step P (getText (document P)))
                (skipn n (execAll blockRE (getText (document P))))
                (stateAt P n)).
Proof.
  unfold scan, scanFrom, stateAt.
  rewrite <- fold_left_app, firstn_skipn. reflexivity.
Qed.

(** What the loop has created is still there, with the same names,
    start and parent, when [parse] formats its ranges. *)
Lemma stateAt_extends P n : extends (ranges (stateAt P n)) (ranges (scan P)).
Proof.
  rewrite (scan_from_stateAt P n).
  eapply extends_trans; [apply fold_step_extends | apply closeAtEnd_extends].
Qed.


Lemma step_open P text st mt sel :
  group text mt 2 = Some [ch "{"] -> group text mt 1 = Some sel ->
  truthy (Some sel) = true ->
  step P text st mt = openBlock P st (lastIndex mt) sel.
Proof.
  intros G2 G1 T. unfold step. rewrite G2, G1, T. reflexivity.
Qed.

Lemma wf_groups text from mt :
  wfBlockMatch text from mt ->
  (group text mt 1 = None /\ group text mt 2 = None)
  \/ exists a b c,
       getCap 1 (groups mt) = Some (a, b) /\
       group text mt 1 = Some (substring text a b) /\
       group text mt 2 = Some [c] /\ nth_error text b = Some c /\
       isTerminator c = true /\ from <= a /\ a <= b /\
       lastIndex mt = S b /\ S b <= length text.
Proof.
  intros (F & I & L & [G | (a & b & c & G & A & B & E & N & T)]).
  - left. unfold group. rewrite G. split; reflexivity.
  - right. exists a, b, c. unfold group. rewrite G. simpl.
    repeat split; auto; try lia.
    unfold substring. replace (S b - b) with 1 by lia.
    apply nth_error_split in N. destruct N as (l1 & l2 & -> & <-).
    rewrite skipn_app, skipn_all, Nat.sub_diag. reflexivity.
Qed.

(** C1 (amended).  When a match of the block pattern ends in [{] after a
    non-empty fragment, and removing the white space at the end of the
    fragment and collapsing its runs of white space leave its length as
    it is, the object that [parse] creates for it has as [start] the
    offset of the first code unit of the fragment, not the offset of
    the [{]. *)
Theorem block_start_offset (P : CSSRangeParser) (n : nat) (mt : Match)
    (a b : nat) :
  nth_error (execAll blockRE (getText (document P))) n = Some mt ->
  group (getText (document P)) mt 2 = Some [ch "{"] ->
  truthy (group (getText (document P)) mt 1) = true ->
  getCap 1 (groups mt) = Some (a, b) ->
  length (normalizeSelector (substring (getText (document P)) a b)) = b - a ->
  a < b
  /\ nth_error (getText (document P)) b = Some (ch "{")
  /\ exists leaf,
       nth_error (ranges (scan P)) (length (ranges (stateAt P n))) = Some leaf
       /\ start leaf = Z.of_nat a.
Proof.
  intros En G2 T Hab Hlen.
  destruct (wfMatches_nth _ _ _ _ _ (execAll_wf _) En) as (from & _ & W).
  apply wf_groups in W.
  destruct W as [[_ G] | (a0 & b0 & c & C1 & G1 & G2' & N & _ & _ & Lab & Li & Lb)];
    [congruence | ].
  rewrite Hab in C1. injection C1 as <- <-.
  assert (c = ch "{") by congruence. subst c.
  rewrite G1 in T.
  assert (Lt : a < b).
  { unfold truthy, substring in T.
    destruct (Nat.eq_dec a b) as [-> | ]; [ | lia].
    rewrite Nat.sub_diag in T. discriminate. }
  split; [exact Lt | ]. split; [exact N | ].
  pose proof (stateAt_S P n _ En) as St.
  rewrite (step_open P _ _ _ _ G2 G1 T) in St.
  destruct (openBlock_fields P (stateAt P n) (lastIndex mt)
              (substring (getText (document P)) a b)) as (nm & ig & Eo).
  rewrite Eo in St.
  assert (Hn : nth_error (ranges (stateAt P (S n)))
                 (length (ranges (stateAt P n)))
               = Some (mkLeafRange nm
                   (Z.of_nat (lastIndex mt)
                    - Z.of_nat (length (normalizeSelector
                        (substring (getText (document P)) a b))) - 1)
                   0 (current (stateAt P n)))).
  { rewrite St. simpl. rewrite nth_error_app2, Nat.sub_diag by lia. reflexivity. }
  destruct (extends_nth _ _ _ _ (stateAt_extends P (S n)) Hn) as (leaf & Hl & Hc).
  exists leaf. split; [exact Hl | ].
  unfold core in Hc. simpl in Hc.
  assert (Hs : start leaf
               = (Z.of_nat (lastIndex mt)
                  - Z.of_nat (length (normalizeSelector
                      (substring (getText (document P)) a b))) - 1)%Z)
    by congruence.
  rewrite Hs, Li, Hlen. lia.
Qed.

(** An instance for C1, [.a{ color: red; }]: the fragment [.a] lies at
    offsets 0 and 1, the [{] at offset 2, and the block starts at 0. *)
Lemma block_start_offset_witness :
  let P := newParser (mkTextDocument (str ".a{ color: red; }") (str "css")) in
  0 < 2
  /\ nth_error (getText (document P)) 2 = Some (ch "{")
  /\ exists leaf,
       nth_error (ranges (scan P)) (length (ranges (stateAt P 0))) = Some leaf
       /\ start leaf = Z.of_nat 0.
Proof.
  intros P.
  apply (block_start_offset P 0 (mkMatch 0 3 [(2, (2, 3)); (1, (0, 2))]) 0 2);
    reflexivity.
Defined.

(** C1 as stated fails: in [.a{ color: red; }] the first match ends in
    the [{] at offset 2 after the fragment [.a], and the block created
    for it starts at offset 0, where the fragment begins. *)
Lemma block_start_is_not_brace_offset :
  let P := newParser (mkTextDocument (str ".a{ color: red; }") (str "css")) in
  let text := getText (document P) in
  exists mt leaf,
    nth_error (execAll blockRE text) 0 = Some mt /\
    group text mt 2 = Some [ch "{"] /\
    truthy (group text mt 1) = true /\
    (Z.of_nat (lastIndex mt) - 1 = 2)%Z /\
    nth_error text 2 = Some (ch "{") /\
    nth_error (ranges (scan P)) 0 = Some leaf /\
    start leaf = 0%Z /\
    start leaf <> 2%Z.
Proof.
  intros P text.
  exists (mkMatch 0 3 [(2, (2, 3)); (1, (0, 2))]),
         (mkLeafRange [mkLeafName (str ".a") (str ".a") true] 0 17 None).
  repeat split; try reflexivity. discriminate.
Qed.

(** ** The examples of the specification *)

(** C2 (amended).  [.a { color: red; }] gives one range named
    [{full: ".a", main: ".a"}], and in the nesting dialects
    [.a { .b { color: blue; } }] gives an inner range named
    [{full: ".a .b", main: ".b"}]: the main identifier is the leading
    token of the rightmost descendant together with its [.] or [#]. *)
Theorem example_main_keeps_prefix :
  map nrNames (parseText "css" ".a { color: red; }")
  = [[mkFullMainName (str ".a") (str ".a")]]
  /\ map nrNames (parseText "scss" ".a { .b { color: blue; } }")
     = [[mkFullMainName (str ".a") (str ".a")];
        [mkFullMainName (str ".a .b") (str ".b")]]
  /\ map nrNames (parseText "less" ".a { .b { color: blue; } }")
     = [[mkFullMainName (str ".a") (str ".a")];
        [mkFullMainName (str ".a .b") (str ".b")]]
  /\ getMainSelector (str ".a") = str ".a"
  /\ getMainSelector (str ".a .b") = str ".b"
  /\ getMainSelector (str "#a") = str "#a".
Proof. repeat split; vm_compute; reflexivity. Qed.

(** C2 as stated fails: the main identifier of [.a] is not [a]. *)
Lemma example_main_is_not_bare_word :
  map nrNames (parseText "css" ".a { color: red; }")
  <> [[mkFullMainName (str ".a") (str "a")]].
Proof. vm_compute. discriminate. Qed.

(** C6.  In the nesting dialects [.a { &:hover { color: red; } }] gives
    two ranges; the inner one has the full name [.a:hover] and an empty
    main identifier:
    the [&] is replaced by the parent's full selector, and the rightmost
    descendant of the raw selector, [&:hover], is a parent reference
    followed by a non-word code unit, so no main identifier is taken
    (the full selector alone would have [.a]). *)
Theorem example_parent_reference :
  map nrNames (parseText "scss" ".a { &:hover { color: red; } }")
  = [[mkFullMainName (str ".a") (str ".a")];
     [mkFullMainName (str ".a:hover") []]]
  /\ map nrNames (parseText "less" ".a { &:hover { color: red; } }")
     = [[mkFullMainName (str ".a") (str ".a")];
        [mkFullMainName (str ".a:hover") []]]
  /\ map (fun r => map raw (names r))
       (ranges (scan (newParser (mkTextDocument
          (str ".a { &:hover { color: red; } }") (str "scss")))))
     = [[str ".a"]; [str "&:hover"]]
  /\ getRightMostDescendant (str "&:hover") = str "&:hover"
  /\ hasSingleReferenceInRightMostDescendant (str "&:hover") = true
  /\ getMainSelector (str ".a:hover") = str ".a".
Proof. repeat split; vm_compute; reflexivity. Qed.

(** C3, the failing input.  In [.a { .b { ] both blocks are open when
    the text ends; only the active one, [.b], receives the length of the
    text as its end, the outer one keeps 0 and ends before its start. *)
Theorem unterminated_ancestor_keeps_end_zero :
  map range (parseText "scss" ".a { .b { ") = [(1, 0); (6, 10)]%Z
  /\ map range (parseText "css" ".a { .b { ") = [(1, 0); (6, 10)]%Z.
Proof. split; vm_compute; reflexivity. Qed.

(** ** One round of the loop *)

Lemma isChar_Some c d : isChar c (Some [d]) = N.eqb d c.
Proof. reflexivity. Qed.

(** A round leaves the fields alone, opens a block for a fragment that
    lies after the previous match, or closes one. *)
Lemma step_cases P text st mt L :
  wfBlockMatch text L mt ->
  L < lastIndex mt /\ lastIndex mt <= length text
  /\ (step P text st mt = st
      \/ (exists a b,
            step P text st mt = openBlock P st (S b) (substring text a b)
            /\ L <= a /\ a <= b /\ lastIndex mt = S b
            /\ group text mt 2 = Some [ch "{"]
            /\ getCap 1 (groups mt) = Some (a, b))
      \/ (step P text st mt = closeBlock P st (lastIndex mt)
          /\ group text mt 2 = Some [ch "}"])).
Proof.
  intros W. pose proof W as (F & I & Ln & _).
  split; [lia | split; [assumption | ]].
  apply wf_groups in W.
  destruct W as [[G1 G2] | (a & b & c & C1 & G1 & G2 & N & T & La & Lab & Li & Lb)];
    unfold step; rewrite G1, G2.
  - left. reflexivity.
  - rewrite !isChar_Some.
    destruct (N.eqb c (ch "{")) eqn:Eo.
    + apply N.eqb_eq in Eo. subst c.
      destruct (truthy (Some (substring text a b))) eqn:Et; cbn [andb].
      * right; left. exists a, b. rewrite Li. repeat split; auto.
      * left. reflexivity.
    + cbn [andb]. destruct (N.eqb c (ch "}")) eqn:Ec.
      * apply N.eqb_eq in Ec. subst c. right; right. split; reflexivity.
      * left. reflexivity.
Qed.

Lemma InvPos_mono text L L' st :
  InvPos text L st -> L <= L' -> L' <= length text -> InvPos text L' st.
Proof.
  intros (B & R & Pa & C) L1 L2.
  split; [assumption | split; [ | split; assumption]].
  intros i r H. destruct (R i r H) as (R1 & R2 & R3).
  repeat split; auto; lia.
Qed.

Lemma nth_error_snoc {A} (l : list A) (x : A) i r :
  nth_error (l ++ [x]) i = Some r ->
  nth_error l i = Some r \/ (i = length l /\ r = x).
Proof.
  intros H. destruct (Nat.lt_ge_cases i (length l)) as [L | L].
  - left. now rewrite nth_error_app1 in H.
  - right. rewrite nth_error_app2 in H by assumption.
    destruct (i - length l) as [ | k] eqn:Ek; simpl in H.
    + inv H. split; [lia | reflexivity].
    + destruct k; discriminate.
Qed.

Lemma nth_error_lt {A} (l : list A) i r :
  nth_error l i = Some r -> i < length l.
Proof. intros H. apply nth_error_Some. congruence. Qed.

Lemma setEnd_nth rs a e i r' :
  nth_error (setEnd rs a e) i = Some r' ->
  exists r, nth_error rs i = Some r /\ names r' = names r
            /\ start r' = start r /\ parent r' = parent r
            /\ end_ r' = if Nat.eqb i a then e else end_ r.
Proof.
  intros H. destruct (Nat.eqb i a) eqn:E.
  - apply Nat.eqb_eq in E. subst i.
    destruct (nth_error rs a) as [r | ] eqn:Hr.
    + rewrite (setEnd_same _ _ e _ Hr) in H. inv H. exists r. simpl. auto.
    + apply nth_error_None in Hr. apply nth_error_lt in H.
      rewrite setEnd_length in H. lia.
  - apply Nat.eqb_neq in E. rewrite setEnd_other in H by assumption.
    exists r'. auto.
Qed.

Lemma setEnd_nth_inv rs a e i r :
  nth_error rs i = Some r ->
  exists r', nth_error (setEnd rs a e) i = Some r' /\ names r' = names r
             /\ start r' = start r /\ parent r' = parent r
             /\ end_ r' = if Nat.eqb i a then e else end_ r.
Proof.
  intros H. destruct (Nat.eqb i a) eqn:E.
  - apply Nat.eqb_eq in E. subst i.
    rewrite (setEnd_same _ _ e _ H). eexists. simpl. auto.
  - apply Nat.eqb_neq in E. rewrite setEnd_other by assumption.
    exists r. auto.
Qed.

Lemma chainOf_open P st li sel :
  (supportsNesting P = true -> current st = None -> stack st = []) ->
  chainOf (openBlock P st li sel)
  = length (ranges st)
    :: (if supportsNesting P then chainOf st else stack st).
Proof.
  intros E. destruct (openBlock_fields P st li sel) as (nm & ig & ->).
  unfold chainOf; cbn [current stack].
  destruct (current st) as [a | ]; destruct (supportsNesting P); auto.
Qed.

Lemma InvPos_open P text L st a b :
  InvPos text L st -> L <= a -> a <= b -> S b <= length text ->
  InvPos text (S b) (openBlock P st (S b) (substring text a b)).
Proof.
  intros (B & R & Pa & C) La Lab Lb.
  assert (Hch : forall c, In c (chainOf (openBlock P st (S b) (substring text a b)))
                -> c = length (ranges st) \/ In c (chainOf st)).
  { destruct (openBlock_fields P st (S b) (substring text a b)) as (nm & ig & ->).
    unfold chainOf; cbn [current stack]. intros c [H | H]; [auto | ].
    right. destruct (current st); [ | assumption].
    destruct (supportsNesting P); [assumption | now right]. }
  destruct (openBlock_fields P st (S b) (substring text a b)) as (nm & ig & Eo).
  pose proof (normalizeSelector_length (substring text a b)) as Ln.
  rewrite substring_length in Ln by lia.
  unfold InvPos. split; [assumption | ]. split; [ | split].
  - rewrite Eo; cbn [ranges]. intros i r H. apply nth_error_snoc in H.
    destruct H as [H | [H1 H2]].
    + destruct (R i r H) as (R1 & R2 & R3). repeat split; auto; lia.
    + subst r. cbn [start end_]. repeat split; try lia.
  - rewrite Eo; cbn [ranges]. intros i r j H Hp. apply nth_error_snoc in H.
    destruct H as [H | [H1 H2]].
    + destruct (Pa i r j H Hp) as (Lj & p & Hj & Hs).
      split; [assumption | ]. exists p. split; [ | assumption].
      rewrite nth_error_app1; [assumption | ]. eapply nth_error_lt; eassumption.
    + subst r. cbn [parent] in Hp.
      assert (Lj : j < length (ranges st)).
      { apply C. unfold chainOf. rewrite Hp. now left. }
      split; [lia | ].
      destruct (nth_error (ranges st) j) as [p | ] eqn:Hj;
        [ | apply nth_error_None in Hj; lia].
      exists p. split.
      * rewrite nth_error_app1 by lia. assumption.
      * destruct (R j p Hj) as (R1 & _). cbn [start]. lia.
  - intros c H. apply Hch in H. rewrite Eo; cbn [ranges].
    rewrite length_app; simpl.
    destruct H as [-> | H]; [lia | ]. apply C in H. lia.
Qed.

Lemma ignoreDeep_pred n :
  (if Nat.ltb 0 n then n - 1 else n) = n - 1.
Proof.
  destruct (Nat.ltb 0 n) eqn:E; [reflexivity | ].
  apply Nat.ltb_ge in E. lia.
Qed.

Lemma closeBlock_ranges P st li :
  ranges (closeBlock P st li)
  = match current st with
    | Some a => setEnd (ranges st) a (Z.of_nat li)
    | None => ranges st
    end.
Proof.
  unfold closeBlock.
  destruct (current st) as [a | ]; destruct (supportsNesting P);
    try destruct (stack st) as [ | top older]; reflexivity.
Qed.

Lemma closeBlock_chain_incl P st li c :
  In c (chainOf (closeBlock P st li)) -> In c (chainOf st).
Proof.
  unfold closeBlock, chainOf.
  destruct (current st) as [a | ]; destruct (supportsNesting P);
    try destruct (stack st) as [ | top older]; cbn; auto.
Qed.

Lemma closeBlock_nesting P st li :
  supportsNesting P = true -> (current st = None -> stack st = []) ->
  chainOf (closeBlock P st li) = tl (chainOf st)
  /\ (current (closeBlock P st li) = None -> stack (closeBlock P st li) = [])
  /\ ignoreDeep (closeBlock P st li) = ignoreDeep st - 1.
Proof.
  intros N E. unfold closeBlock, chainOf. rewrite ignoreDeep_pred, N.
  destruct (current st) as [a | ].
  - destruct (stack st) as [ | top older]; cbn; repeat split; auto.
    discriminate.
  - rewrite E by reflexivity. cbn. repeat split; auto.
Qed.

Lemma closeBlock_flat P st li :
  supportsNesting P = false ->
  current (closeBlock P st li) = current st
  /\ stack (closeBlock P st li) = stack st.
Proof.
  intros N. unfold closeBlock. rewrite N.
  destruct (current st); split; reflexivity.
Qed.

Lemma InvPos_close P text L st li :
  InvPos text L st -> L < li -> li <= length text ->
  InvPos text li (closeBlock P st li).
Proof.
  intros (B & R & Pa & C) L1 L2.
  pose proof (closeBlock_ranges P st li) as Er.
  assert (Hlen : length (ranges (closeBlock P st li)) = length (ranges st)).
  { rewrite Er. destruct (current st); [apply setEnd_length | reflexivity]. }
  assert (Hnth : forall i r', nth_error (ranges (closeBlock P st li)) i = Some r' ->
            exists r, nth_error (ranges st) i = Some r /\ names r' = names r
              /\ start r' = start r /\ parent r' = parent r
              /\ (end_ r' = end_ r \/ end_ r' = Z.of_nat li)).
  { rewrite Er. intros i r' H. destruct (current st) as [a | ].
    - apply setEnd_nth in H. destruct H as (r & H1 & H2 & H3 & H4 & H5).
      exists r. repeat split; auto. destruct (Nat.eqb i a); auto.
    - exists r'. repeat split; auto. }
  unfold InvPos. split; [assumption | ]. split; [ | split].
  - intros i r' H. destruct (Hnth i r' H) as (r & H1 & _ & H3 & _ & H5).
    destruct (R i r H1) as (R1 & R2 & R3). rewrite H3.
    destruct H5 as [-> | ->]; repeat split; auto; lia.
  - intros i r' j H Hp. destruct (Hnth i r' H) as (r & H1 & _ & H3 & H4 & _).
    rewrite H4 in Hp. destruct (Pa i r j H1 Hp) as (Lj & p & Hj & Hs).
    split; [assumption | ].
    assert (Hj' : exists p', nth_error (ranges (closeBlock P st li)) j = Some p'
                             /\ start p' = start p).
    { rewrite Er. destruct (current st) as [a | ]; [ | eauto].
      destruct (setEnd_nth_inv _ a (Z.of_nat li) _ _ Hj) as (p' & Q1 & _ & Q3 & _).
      eauto. }
    destruct Hj' as (p' & Q1 & Q3). exists p'. split; [assumption | ].
    rewrite Q3, H3. assumption.
  - intros c H. rewrite Hlen. apply C.
    eapply closeBlock_chain_incl; eassumption.
Qed.

Lemma InvPos_closeAtEnd text L st :
  InvPos text L st -> InvPos text (length text) (closeAtEnd text st).
Proof.
  intros I. pose proof I as (B & R & Pa & C).
  unfold closeAtEnd.
  destruct (current st) as [a | ] eqn:Ea;
    [ | eapply InvPos_mono; eauto].
  destruct (nth_error (ranges st) a) as [ra | ] eqn:Ha;
    [ | eapply InvPos_mono; eauto].
  destruct (Z.eqb (end_ ra) 0) eqn:Ez; [ | eapply InvPos_mono; eauto].
  unfold InvPos; cbn [ranges]. split; [lia | ]. split; [ | split].
  - intros i r' H. apply setEnd_nth in H.
    destruct H as (r & H1 & _ & H3 & _ & H5).
    destruct (R i r H1) as (R1 & R2 & R3). rewrite H3, H5.
    destruct (Nat.eqb i a); repeat split; auto; lia.
  - intros i r' j H Hp. apply setEnd_nth in H.
    destruct H as (r & H1 & _ & H3 & H4 & _).
    rewrite H4 in Hp. destruct (Pa i r j H1 Hp) as (Lj & p & Hj & Hs).
    split; [assumption | ].
    destruct (setEnd_nth_inv _ a (Z.of_nat (length text)) _ _ Hj)
      as (p' & Q1 & _ & Q3 & _).
    exists p'. split; [assumption | ]. rewrite Q3, H3. assumption.
  - intros c H. rewrite setEnd_length. apply C.
    unfold chainOf in *. cbn [current stack] in H. rewrite Ea. assumption.
Qed.

(** ** The open blocks of a nesting dialect *)

Lemma descending_In bound chain c :
  descending bound chain -> In c chain -> c < bound.
Proof.
  revert bound. induction chain as [ | c0 chain IH]; intros bound D H;
    [destruct H | ].
  destruct D as [D1 D2]. destruct H as [-> | H]; [assumption | ].
  specialize (IH _ D2 H). lia.
Qed.

Lemma descending_weaken bound bound' chain :
  descending bound chain -> bound <= bound' -> descending bound' chain.
Proof.
  destruct chain as [ | c chain]; simpl; [auto | ].
  intros [D1 D2] L. split; [lia | assumption].
Qed.

Lemma descending_length bound chain :
  descending bound chain -> length chain <= bound.
Proof.
  revert bound. induction chain as [ | c chain IH]; intros bound D; simpl;
    [lia | ].
  destruct D as [D1 D2]. specialize (IH _ D2). lia.
Qed.

Lemma linked_app rs x chain : linked rs chain -> linked (rs ++ [x]) chain.
Proof.
  induction chain as [ | c chain IH]; simpl; [auto | ].
  intros [(r & H1 & H2) Lk]. split; [ | auto].
  exists r. split; [ | assumption].
  rewrite nth_error_app1; [assumption | eapply nth_error_lt; eassumption].
Qed.

Lemma linked_setEnd rs a e chain :
  linked rs chain -> linked (setEnd rs a e) chain.
Proof.
  induction chain as [ | c chain IH]; simpl; [auto | ].
  intros [(r & H1 & H2) Lk]. split; [ | auto].
  destruct (setEnd_nth_inv rs a e c r H1) as (r' & Q1 & _ & _ & Q4 & _).
  exists r'. split; [assumption | congruence].
Qed.

Lemma hd_chainOf st :
  (current st = None -> stack st = []) -> hd_error (chainOf st) = current st.
Proof.
  unfold chainOf. destruct (current st) as [a | ]; intros E; [reflexivity | ].
  now rewrite E.
Qed.

Lemma InvNest_open P text L st li sel :
  supportsNesting P = true -> InvPos text L st -> InvNest st ->
  InvNest (openBlock P st li sel).
Proof.
  intros N (_ & _ & Pa & C) (E & D & Lk & O & W).
  pose proof (chainOf_open P st li sel (fun _ => E)) as Ech. rewrite N in Ech.
  destruct (openBlock_fields P st li sel) as (nm & ig & Eo).
  unfold InvNest. rewrite Ech. rewrite Eo; cbn [ranges current stack].
  split; [discriminate | ]. split; [ | split; [ | split]].
  - simpl. rewrite length_app. simpl. split; [lia | assumption].
  - simpl. split; [ | now apply linked_app].
    eexists. rewrite nth_error_app2, Nat.sub_diag by lia.
    split; [reflexivity | ]. cbn [parent]. symmetry. now apply hd_chainOf.
  - intros i r H. apply nth_error_snoc in H. destruct H as [H | [-> ->]].
    + rewrite (O i r H). pose proof (nth_error_lt _ _ _ H).
      simpl. split; [auto | ]. intros [H1 | H1]; [lia | assumption].
    + simpl. split; auto.
  - intros i r j p Hi Hp Hj Hz.
    assert (Hjold : nth_error (ranges st) j = Some p /\ In j (chainOf st)
                    \/ (nth_error (ranges st) i = Some r
                        /\ nth_error (ranges st) j = Some p)).
    { apply nth_error_snoc in Hi. destruct Hi as [Hi | [-> ->]].
      - right. split; [assumption | ].
        destruct (Pa i r j Hi Hp) as (Lj & _).
        pose proof (nth_error_lt _ _ _ Hi).
        rewrite nth_error_app1 in Hj by lia. assumption.
      - left. cbn [parent] in Hp.
        assert (In j (chainOf st)) by (unfold chainOf; rewrite Hp; now left).
        split; [ | assumption].
        rewrite nth_error_app1 in Hj by (now apply C). assumption. }
    destruct Hjold as [[Hj' Hin] | [Hi' Hj']].
    + apply (O j p Hj') in Hin. contradiction.
    + eapply W; eassumption.
Qed.

(** Assigning an end to the active block keeps every closed child
    inside its closed parent. *)
Lemma within_setEnd text L st a e :
  InvPos text L st -> InvNest st -> current st = Some a ->
  (Z.of_nat L <= e)%Z ->
  forall i r j p,
    nth_error (setEnd (ranges st) a e) i = Some r -> parent r = Some j ->
    nth_error (setEnd (ranges st) a e) j = Some p -> end_ p <> 0%Z ->
    end_ r <> 0%Z /\ (end_ r <= end_ p)%Z.
Proof.
  intros (_ & R & Pa & C) (E & D & Lk & O & W) Ea Le i r' j p' Hi Hp Hj Hz.
  apply setEnd_nth in Hi. destruct Hi as (r & Hi & _ & _ & Hpr & Her).
  apply setEnd_nth in Hj. destruct Hj as (p & Hj & _ & _ & _ & Hep).
  rewrite Hpr in Hp. destruct (Pa i r j Hi Hp) as (Lj & _).
  assert (Ha : chainOf st = a :: stack st) by (unfold chainOf; now rewrite Ea).
  rewrite Ha in D, O. destruct D as [D1 D2].
  destruct (Nat.eqb j a) eqn:Eja.
  - apply Nat.eqb_eq in Eja. subst j.
    replace (Nat.eqb i a) with false in Her
      by (symmetry; apply Nat.eqb_neq; lia).
    rewrite Her, Hep.
    assert (Hnz : end_ r <> 0%Z).
    { intros Z0. apply (O i r Hi) in Z0. destruct Z0 as [Z0 | Z0]; [lia | ].
      pose proof (descending_In _ _ _ D2 Z0). lia. }
    destruct (R i r Hi) as (_ & R2 & _). split; [assumption | lia].
  - rewrite Hep in Hz. rewrite Hep.
    destruct (W i r j p Hi Hp Hj Hz) as [W1 W2].
    destruct (Nat.eqb i a) eqn:Eia.
    + apply Nat.eqb_eq in Eia. subst i.
      exfalso. apply W1. apply (O a r Hi). now left.
    + rewrite Her. split; assumption.
Qed.

Lemma InvNest_close P text L st li :
  supportsNesting P = true -> InvPos text L st -> InvNest st -> L < li ->
  InvNest (closeBlock P st li).
Proof.
  intros N IP IN Lli. pose proof IP as (_ & R & Pa & C).
  pose proof IN as (E & D & Lk & O & W).
  destruct (closeBlock_nesting P st li N E) as (Ech & Est & _).
  pose proof (closeBlock_ranges P st li) as Er.
  unfold InvNest. rewrite Ech, Er. split; [assumption | ].
  destruct (current st) as [a | ] eqn:Ea.
  - assert (Ha : chainOf st = a :: stack st) by (unfold chainOf; now rewrite Ea).
    rewrite Ha in *. cbn [tl]. destruct D as [D1 D2]. destruct Lk as [Lk1 Lk2].
    split; [ | split; [ | split]].
    + rewrite setEnd_length. eapply descending_weaken; [eassumption | lia].
    + now apply linked_setEnd.
    + intros i r' Hi. apply setEnd_nth in Hi.
      destruct Hi as (r & Hi & _ & _ & _ & Her). rewrite Her.
      destruct (Nat.eqb i a) eqn:Eia.
      * apply Nat.eqb_eq in Eia. subst i. split; [lia | ].
        intros Hin. pose proof (descending_In _ _ _ D2 Hin). lia.
      * apply Nat.eqb_neq in Eia. rewrite (O i r Hi). simpl.
        split; [intros [H | H]; [congruence | assumption] | auto].
    + apply (within_setEnd text L st a (Z.of_nat li) IP IN Ea). lia.
  - assert (Ha : chainOf st = []) by (unfold chainOf; rewrite Ea; now apply E).
    rewrite Ha in *. cbn [tl]. split; [exact I | split; [exact I | ]].
    split; assumption.
Qed.


(** ** The names of a block *)

Lemma namesOfMatches_flags ig sel ms :
  Forall (fun n => isSelector n = Nat.eqb ig 0) (namesOfMatches ig sel ms).
Proof.
  induction ms as [ | mt ms IH]; simpl; [constructor | ].
  destruct (match group sel mt 1 with Some g => trim g | None => [] end);
    [assumption | ].
  constructor; [reflexivity | assumption].
Qed.

Lemma namesOfMatches_selectors sel ms :
  forallb isSelector (namesOfMatches 0 sel ms) = true.
Proof.
  apply forallb_forall. intros n H.
  pose proof (namesOfMatches_flags 0 sel ms) as F.
  rewrite Forall_forall in F. now apply F.
Qed.

(** Inside a deep-ignore region no name is a selector. *)
Lemma parseToNames_ignored P ig sel :
  ig <> 0 -> forallb (fun n => negb (isSelector n)) (parseToNames P ig sel) = true.
Proof.
  intros Hig.
  assert (F : forall s ms, forallb (fun n => negb (isSelector n))
                             (namesOfMatches ig s ms) = true).
  { intros s ms. apply forallb_forall. intros n H.
    pose proof (namesOfMatches_flags ig s ms) as F.
    rewrite Forall_forall in F. rewrite (F n H).
    apply Nat.eqb_neq in Hig. now rewrite Hig. }
  unfold parseToNames. destruct (matchStr commandRE sel) as [mt | ]; [ | apply F].
  destruct (str_eqb (languageId P) (str "scss")
            && str_eqb (matched sel mt) (str "@at-root"))%bool.
  - cbn [forallb isSelector negb andb]. apply F.
  - reflexivity.
Qed.

(** Outside of one, every name but possibly the first is. *)
Lemma parseToNames_shaped P sel : shaped (parseToNames P 0 sel).
Proof.
  unfold shaped, parseToNames.
  assert (T : forall s ms, forallb isSelector (tl (namesOfMatches 0 s ms)) = true).
  { intros s ms. pose proof (namesOfMatches_selectors s ms) as F.
    destruct (namesOfMatches 0 s ms) as [ | n ns]; [reflexivity | ].
    simpl in F. apply andb_prop in F. apply F. }
  destruct (matchStr commandRE sel) as [mt | ]; [ | apply T].
  destruct (str_eqb (languageId P) (str "scss")
            && str_eqb (matched sel mt) (str "@at-root"))%bool.
  - cbn [tl]. apply namesOfMatches_selectors.
  - reflexivity.
Qed.

Lemma combineLoop_selectors pf :
  forall ns li, forallb isSelector ns = true ->
  forallb isSelector (combineLoop pf li ns) = true.
Proof.
  induction ns as [ | n ns IH]; intros li F; simpl; [reflexivity | ].
  simpl in F. apply andb_prop in F. destruct F as [F1 F2].
  rewrite F1. cbn [negb].
  destruct pf as [pfs | ].
  - destruct (testGlobal referenceRE (full n) li) as [found li'].
    destruct found; rewrite forallb_app, IH by assumption;
      rewrite andb_true_r; apply forallb_forall; intros x Hx;
      apply in_map_iff in Hx; destruct Hx as (y & <- & _); reflexivity.
  - simpl. rewrite F1, IH by assumption. reflexivity.
Qed.

Lemma combineLoop_shaped pf ns li :
  shaped ns -> shaped (combineLoop pf li ns).
Proof.
  unfold shaped. destruct ns as [ | n ns]; [reflexivity | ].
  cbn [tl]. intros F. cbn [combineLoop].
  assert (T : forall A B, forallb isSelector (tl A) = true ->
                forallb isSelector B = true ->
                forallb isSelector (tl (A ++ B)) = true).
  { intros [ | a A] B FA FB; simpl.
    - destruct B as [ | b B]; [reflexivity | ].
      simpl in FB. apply andb_prop in FB. apply FB.
    - rewrite forallb_app. simpl in FA. now rewrite FA, FB. }
  assert (M : forall (f : jsstring -> jsstring) pfs,
            forallb isSelector
              (tl (map (fun p => mkLeafName (raw n) (f p) true) pfs)) = true).
  { intros f [ | p pfs]; [reflexivity | ]. cbn [map tl].
    apply forallb_forall. intros x Hx. apply in_map_iff in Hx.
    destruct Hx as (y & <- & _). reflexivity. }
  destruct (negb (isSelector n)).
  - cbn [tl]. now apply combineLoop_selectors.
  - destruct pf as [pfs | ].
    + destruct (testGlobal referenceRE (full n) li) as [found li'].
      destruct found.
      * apply T; [apply (M (fun p => replaceAll referenceRE (full n) p))
                 | now apply combineLoop_selectors].
      * apply T; [apply (M (fun p => p ++ str " " ++ full n))
                 | now apply combineLoop_selectors].
    + cbn [tl]. now apply combineLoop_selectors.
Qed.

(** With no ancestor to combine with, the names stay as they are. *)
Lemma combineLoop_None ns : forall li, combineLoop None li ns = ns.
Proof.
  induction ns as [ | n ns IH]; intros li; simpl; [reflexivity | ].
  destruct (negb (isSelector n)); now rewrite IH.
Qed.

Lemma openBlock_ignoreDeep P st li sel :
  ignoreDeep (openBlock P st li sel)
  = if (Nat.ltb 0 (ignoreDeep st)
        || shouldIgnoreDeeply (normalizeSelector sel))%bool
    then S (ignoreDeep st) else ignoreDeep st.
Proof. reflexivity. Qed.

Lemma openBlock_last P st li sel :
  exists leaf,
    nth_error (ranges (openBlock P st li sel)) (length (ranges st)) = Some leaf
    /\ (ignoreDeep (openBlock P st li sel) = 0 -> shaped (names leaf))
    /\ (ignoreDeep (openBlock P st li sel) <> 0 ->
        forallb (fun n => negb (isSelector n)) (names leaf) = true).
Proof.
  unfold openBlock, newLeafRange. cbn [ranges stack current ignoreDeep].
  set (ig := if (Nat.ltb 0 (ignoreDeep st)
                 || shouldIgnoreDeeply (normalizeSelector sel))%bool
             then S (ignoreDeep st) else ignoreDeep st).
  eexists. rewrite nth_error_app2, Nat.sub_diag by lia.
  split; [reflexivity | ]. cbn [names]. split.
  - intros ->. destruct (supportsNesting P); cbn [andb Nat.eqb];
      [ | apply parseToNames_shaped].
    destruct (current st); [ | apply parseToNames_shaped].
    unfold combineNestingNames. apply combineLoop_shaped, parseToNames_shaped.
  - intros Hig. replace (Nat.eqb ig 0) with false
      by (symmetry; now apply Nat.eqb_neq).
    rewrite andb_false_r. now apply parseToNames_ignored.
Qed.

Lemma InvGood_open P st li sel :
  supportsNesting P = true -> InvNest st -> InvGood st ->
  InvGood (openBlock P st li sel).
Proof.
  intros N (E & _) G. unfold InvGood in *.
  pose proof (chainOf_open P st li sel (fun _ => E)) as Ech. rewrite N in Ech.
  destruct (openBlock_last P st li sel) as (leaf & Hl & Hs & _).
  destruct (openBlock_fields P st li sel) as (nm & ig & Eo).
  assert (Old : forall k, Forall (fun c => exists r,
                  nth_error (ranges st) c = Some r /\ shaped (names r))
                  (skipn k (chainOf st)) ->
                Forall (fun c => exists r,
                  nth_error (ranges (openBlock P st li sel)) c = Some r
                  /\ shaped (names r)) (skipn k (chainOf st))).
  { intros k. apply Forall_impl. intros c (r & H1 & H2). exists r.
    split; [ | assumption]. rewrite Eo; cbn [ranges].
    rewrite nth_error_app1; [assumption | eapply nth_error_lt; eassumption]. }
  rewrite Ech. pose proof (openBlock_ignoreDeep P st li sel) as Ei.
  destruct (Nat.ltb 0 (ignoreDeep st)
            || shouldIgnoreDeeply (normalizeSelector sel))%bool eqn:Eb.
  - rewrite Ei. cbn [skipn]. now apply Old.
  - apply orb_false_elim in Eb. destruct Eb as [Eb _].
    apply Nat.ltb_ge in Eb. assert (Z0 : ignoreDeep st = 0) by lia.
    rewrite Z0 in *. rewrite Ei. cbn [skipn]. constructor.
    + exists leaf. split; [assumption | now apply Hs].
    + apply (Old 0). exact G.
Qed.

Lemma InvGood_close P st li :
  supportsNesting P = true -> InvNest st -> InvGood st ->
  InvGood (closeBlock P st li).
Proof.
  intros N (E & _) G. unfold InvGood in *.
  destruct (closeBlock_nesting P st li N E) as (Ech & _ & Ei).
  rewrite Ech, Ei.
  assert (Sk : Forall (fun c => exists r,
                 nth_error (ranges st) c = Some r /\ shaped (names r))
                 (skipn (ignoreDeep st - 1) (tl (chainOf st)))).
  { destruct (ignoreDeep st) as [ | k]; cbn [Nat.sub].
    - cbn [skipn] in *. destruct (chainOf st); [constructor | ].
      now inv G.
    - rewrite Nat.sub_0_r. destruct (chainOf st) as [ | c chain]; [ | exact G].
      now destruct k. }
  revert Sk. apply Forall_impl. intros c (r & H1 & H2).
  rewrite closeBlock_ranges. destruct (current st) as [a | ]; [ | eauto].
  destruct (setEnd_nth_inv _ a (Z.of_nat li) _ _ H1) as (r' & Q1 & Q2 & _).
  exists r'. split; [assumption | now rewrite Q2].
Qed.

(** ** A dialect without nesting *)

Lemma InvFlat_open P st li sel :
  supportsNesting P = false -> InvFlat st -> InvFlat (openBlock P st li sel).
Proof.
  intros N (Es & Ec).
  destruct (openBlock_fields P st li sel) as (nm & ig & ->).
  unfold InvFlat; cbn [ranges current stack]. rewrite N. split.
  - destruct (current st); assumption.
  - destruct (ranges st ++ _) eqn:Er.
    + apply app_eq_nil in Er. destruct Er; discriminate.
    + rewrite <- Er, length_app. simpl. f_equal. lia.
Qed.

Lemma InvFlat_close P st li :
  supportsNesting P = false -> InvFlat st -> InvFlat (closeBlock P st li).
Proof.
  intros N (Es & Ec).
  destruct (closeBlock_flat P st li N) as (Hc & Hs).
  unfold InvFlat. rewrite Hc, Hs, closeBlock_ranges. split; [assumption | ].
  destruct (current st) as [a | ]; [ | assumption].
  rewrite setEnd_length.
  destruct (ranges st) as [ | r rs]; [discriminate | ].
  destruct a; simpl; assumption.
Qed.

(** ** The invariants along a parse *)

Lemma Inv_init text :
  InvPos text 0 initScan /\ InvNest initScan /\ InvGood initScan
  /\ InvFlat initScan.
Proof.
  assert (Nn : forall i r, nth_error (ranges initScan) i = Some r -> False).
  { intros [ | i] r H; discriminate H. }
  unfold InvPos, InvNest, InvGood, InvFlat.
  change (chainOf initScan) with (@nil nat).
  split; [ | split; [ | split]].
  - split; [lia | ]. split; [ | split].
    + intros i r H. destruct (Nn i r H).
    + intros i r j H. destruct (Nn i r H).
    + intros a [].
  - split; [reflexivity | ]. split; [exact I | ]. split; [exact I | ]. split.
    + intros i r H. destruct (Nn i r H).
    + intros i r j p H. destruct (Nn i r H).
  - constructor.
  - split; reflexivity.
Qed.

Lemma Inv_step P text L st mt :
  wfBlockMatch text L mt ->
  InvPos text L st
  /\ (supportsNesting P = true -> InvNest st /\ InvGood st)
  /\ (supportsNesting P = false -> InvFlat st) ->
  InvPos text (lastIndex mt) (step P text st mt)
  /\ (supportsNesting P = true ->
      InvNest (step P text st mt) /\ InvGood (step P text st mt))
  /\ (supportsNesting P = false -> InvFlat (step P text st mt)).
Proof.
  intros W (IP & IN & IF).
  destruct (step_cases P text st mt L W)
    as (L1 & L2 & [-> | [(a & b & -> & La & Lab & Li & _) | [-> _]]]).
  - split; [ | split; assumption]. eapply InvPos_mono; eauto. lia.
  - rewrite Li in *. split; [ | split].
    + apply InvPos_open with (L := L); auto.
    + intros N. destruct (IN N) as [I1 I2]. split.
      * eapply InvNest_open; eauto.
      * apply InvGood_open; auto.
    + intros N. apply InvFlat_open; auto.
  - split; [ | split].
    + apply InvPos_close with (L := L); auto.
    + intros N. destruct (IN N) as [I1 I2]. split.
      * eapply InvNest_close; eauto.
      * apply InvGood_close; auto.
    + intros N. apply InvFlat_close; auto.
Qed.

Lemma Inv_fold P text :
  forall ms L st,
  wfMatches text L ms ->
  InvPos text L st
  /\ (supportsNesting P = true -> InvNest st /\ InvGood st)
  /\ (supportsNesting P = false -> InvFlat st) ->
  exists L',
    InvPos text L' (fold_left (step P text) ms st)
    /\ (supportsNesting P = true ->
        InvNest (fold_left (step P text) ms st)
        /\ InvGood (fold_left (step P text) ms st))
    /\ (supportsNesting P = false -> InvFlat (fold_left (step P text) ms st)).
Proof.
  induction ms as [ | mt ms IH]; intros L st W I; simpl.
  - exists L. exact I.
  - inversion W as [ | ? ? ? Wm Wms]; subst.
    apply (IH (lastIndex mt)); [assumption | ].
    now apply Inv_step with (L := L).
Qed.

Lemma wfMatches_firstn text :
  forall ms L n, wfMatches text L ms -> wfMatches text L (firstn n ms).
Proof.
  induction ms as [ | mt ms IH]; intros L [ | n] W; simpl; try constructor.
  - inversion W; subst; assumption.
  - inversion W; subst. now apply IH.
Qed.

(** The invariants hold after every round of the loop. *)
Lemma Inv_stateAt P n :
  exists L,
    InvPos (getText (document P)) L (stateAt P n)
    /\ (supportsNesting P = true ->
        InvNest (stateAt P n) /\ InvGood (stateAt P n))
    /\ (supportsNesting P = false -> InvFlat (stateAt P n)).
Proof.
  unfold stateAt. apply Inv_fold with (L := 0).
  - apply wfMatches_firstn, execAll_wf.
  - pose proof (Inv_init (getText (document P))) as (I1 & I2 & I3 & I4).
    split; [exact I1 | split; intros _; [split | ]; assumption].
Qed.

Lemma Inv_final P :
  exists L st,
    scan P = closeAtEnd (getText (document P)) st
    /\ InvPos (getText (document P)) L st
    /\ (supportsNesting P = true -> InvNest st /\ InvGood st)
    /\ (supportsNesting P = false -> InvFlat st).
Proof.
  destruct (Inv_fold P (getText (document P))
              (execAll blockRE (getText (document P))) 0 initScan)
    as (L & I).
  - apply execAll_wf.
  - pose proof (Inv_init (getText (document P))) as (I1 & I2 & I3 & I4).
    split; [exact I1 | split; intros _; [split | ]; assumption].
  - exists L. eexists. split; [reflexivity | exact I].
Qed.

Lemma within_closeAtEnd text L st :
  InvPos text L st -> InvNest st ->
  forall i r j p,
    nth_error (ranges (closeAtEnd text st)) i = Some r -> parent r = Some j ->
    nth_error (ranges (closeAtEnd text st)) j = Some p -> end_ p <> 0%Z ->
    end_ r <> 0%Z /\ (end_ r <= end_ p)%Z.
Proof.
  intros IP IN. pose proof IN as (_ & _ & _ & _ & W).
  unfold closeAtEnd. destruct (current st) as [a | ] eqn:Ea; [ | exact W].
  destruct (nth_error (ranges st) a) as [ra | ]; [ | exact W].
  destruct (Z.eqb (end_ ra) 0); [ | exact W].
  cbn [ranges]. apply (within_setEnd text L st a _ IP IN Ea).
  destruct IP as (B & _). lia.
Qed.

Lemma parse_nth P i nr :
  nth_error (parse P) i = Some nr ->
  exists r, nth_error (ranges (scan P)) i = Some r
            /\ range nr = (start r, end_ r)
            /\ nrNames nr = map formatLeafNameToFullMainName (names r).
Proof.
  unfold parse, formatToNamedRanges. rewrite nth_error_map.
  destruct (nth_error (ranges (scan P)) i) as [r | ]; [ | discriminate].
  intros H. inv H. exists r. auto.
Qed.

(** C4 (amended).  A range whose block was opened while another block
    was the active one starts after that block; and in a nesting dialect,
    when that block has received its end, the nested range is closed
    too and ends at or before that end. *)
Theorem nested_span_within_closed_ancestor (P : CSSRangeParser)
    (i j : nat) (child : LeafRange) (nchild nanc : NamedRange) :
  nth_error (ranges (scan P)) i = Some child -> parent child = Some j ->
  nth_error (parse P) i = Some nchild -> nth_error (parse P) j = Some nanc ->
  (fst (range nanc) < fst (range nchild))%Z
  /\ (supportsNesting P = true -> snd (range nanc) <> 0%Z ->
      (fst (range nchild) < snd (range nchild)
       /\ snd (range nchild) <= snd (range nanc))%Z).
Proof.
  intros Hi Hp Hni Hnj.
  apply parse_nth in Hni. destruct Hni as (r & Hr & Er & _).
  apply parse_nth in Hnj. destruct Hnj as (p & Hj & Ep & _).
  assert (r = child) by congruence. subst r. rewrite Er, Ep. cbn [fst snd].
  destruct (Inv_final P) as (L & st & Es & IP & IN & _).
  pose proof (InvPos_closeAtEnd _ _ _ IP) as (_ & R & Pa & _).
  rewrite <- Es in R, Pa.
  destruct (Pa i child j Hi Hp) as (_ & p' & Hj' & Hs).
  assert (p' = p) by congruence. subst p'.
  split; [assumption | ]. intros N Hz. destruct (IN N) as [I1 _].
  pose proof (within_closeAtEnd _ _ _ IP I1) as W. rewrite <- Es in W.
  destruct (W i child j p Hi Hp Hj Hz) as [W1 W2].
  destruct (R i child Hi) as (_ & _ & R3).
  split; [now apply R3 | assumption].
Qed.

(** An instance for C4, [.a { .b { } }] in SCSS: the inner range 6..11
    lies in the outer one 1..13. *)
Lemma nested_span_within_closed_ancestor_witness :
  (1 < 6)%Z /\ (6 < 11 /\ 11 <= 13)%Z.
Proof.
  destruct (nested_span_within_closed_ancestor
              (newParser (mkTextDocument (str ".a { .b { } }") (str "scss")))
              1 0
              (mkLeafRange [mkLeafName (str ".b") (str ".a .b") true] 6 11 (Some 0))
              (mkNamedRange [mkFullMainName (str ".a .b") (str ".b")] (6, 11)%Z)
              (mkNamedRange [mkFullMainName (str ".a") (str ".a")] (1, 13)%Z))
    as [Hstart Hend]; try reflexivity.
  split; [exact Hstart | apply Hend; [reflexivity | simpl; lia]].
Defined.

(** C4 as stated fails.  In plain CSS [.b] of [.a { .b { } }] is opened
    while [.a] is the active block, and ends at 13 while [.a] never
    receives an end; in SCSS the same happens in [.a { .b { ], where the
    text ends before either block is closed. *)
Lemma nested_span_outside_ancestor :
  (let P := newParser (mkTextDocument (str ".a { .b { } }") (str "css")) in
   exists child nchild nanc,
     nth_error (ranges (scan P)) 1 = Some child /\ parent child = Some 0
     /\ nth_error (parse P) 1 = Some nchild
     /\ nth_error (parse P) 0 = Some nanc
     /\ (snd (range nanc) < snd (range nchild))%Z)
  /\ (let P := newParser (mkTextDocument (str ".a { .b { ") (str "scss")) in
      exists child nchild nanc,
        nth_error (ranges (scan P)) 1 = Some child /\ parent child = Some 0
        /\ nth_error (parse P) 1 = Some nchild
        /\ nth_error (parse P) 0 = Some nanc
        /\ (snd (range nanc) < snd (range nchild))%Z).
Proof.
  split; intros P; vm_compute; do 3 eexists;
    (split; [reflexivity | ]); (split; [reflexivity | ]);
    (split; [reflexivity | ]); (split; [reflexivity | ]); reflexivity.
Qed.

Lemma step_close P text st mt :
  group text mt 2 = Some [ch "}"] ->
  step P text st mt = closeBlock P st (lastIndex mt).
Proof. intros G. unfold step. rewrite G. reflexivity. Qed.

(** In a dialect without nesting the fields keep the block opened last
    as the active block when a [}] has closed it: [current] is assigned
    anew only where [supportsNesting] holds.  So every [}], the first
    or a later one, writes the end of the block opened last and leaves
    everything else as it is. *)
Lemma flat_close_writes_end_of_last_block (P : CSSRangeParser)
    (n : nat) (mt : Match) :
  supportsNesting P = false ->
  nth_error (execAll blockRE (getText (document P))) n = Some mt ->
  group (getText (document P)) mt 2 = Some [ch "}"] ->
  current (stateAt P (S n)) = current (stateAt P n)
  /\ map core (ranges (stateAt P (S n))) = map core (ranges (stateAt P n))
  /\ (forall i, S i < length (ranges (stateAt P n)) ->
        nth_error (ranges (stateAt P (S n))) i
        = nth_error (ranges (stateAt P n)) i)
  /\ (forall r, nth_error (ranges (stateAt P n))
                  (length (ranges (stateAt P n)) - 1) = Some r ->
        current (stateAt P n) = Some (length (ranges (stateAt P n)) - 1)
        /\ nth_error (ranges (stateAt P (S n)))
             (length (ranges (stateAt P n)) - 1)
           = Some (mkLeafRange (names r) (start r)
                     (Z.of_nat (lastIndex mt)) (parent r))).
Proof.
  intros N En G.
  rewrite (stateAt_S P n mt En), (step_close P _ _ _ G).
  destruct (Inv_stateAt P n) as (L & _ & _ & IF).
  destruct (IF N) as (Es & Ec).
  destruct (closeBlock_flat P (stateAt P n) (lastIndex mt) N) as (Hc & _).
  rewrite closeBlock_ranges. split; [assumption | ].
  destruct (ranges (stateAt P n)) as [ | r0 rs] eqn:Er.
  - rewrite Ec. split; [reflexivity | split; [reflexivity | ]].
    intros r H. discriminate H.
  - rewrite Ec. split; [apply setEnd_core | ]. split.
    + intros i Li. apply setEnd_other. lia.
    + intros r Hr. split; [reflexivity | ]. now apply setEnd_same.
Qed.

(** C9, the failing input.  In plain CSS, after the first [}] of
    [.a { } }] has closed the block at offset 6, the block is still the
    active one, and the second, unmatched [}] moves its end to 8.  In
    SCSS and LESS, where [current] is taken from the stack at a [}],
    the same text leaves the end at 6. *)
Theorem flat_later_close_moves_end :
  let P := newParser (mkTextDocument (str ".a { } }") (str "css")) in
  supportsNesting P = false
  /\ current (stateAt P 2) = Some 0
  /\ map end_ (ranges (stateAt P 2)) = [6%Z]
  /\ map end_ (ranges (stateAt P 3)) = [8%Z]
  /\ map range (parse P) = [(1, 8)%Z]
  /\ map range (parseText "scss" ".a { } }") = [(1, 6)%Z]
  /\ map range (parseText "less" ".a { } }") = [(1, 6)%Z].
Proof. intros P. repeat split; vm_compute; reflexivity. Qed.

(** ** Nesting resolution *)

Lemma shaped_test ns :
  shaped ns ->
  (Nat.ltb 1 (length ns)
   || match ns with n0 :: _ => isSelector n0 | [] => false end)%bool
  = existsb isSelector ns.
Proof.
  unfold shaped. destruct ns as [ | x [ | y ns]]; simpl; intros F.
  - reflexivity.
  - now rewrite orb_false_r.
  - apply andb_prop in F. destruct F as [-> _].
    now rewrite orb_true_r.
Qed.

(** Along a chain of open blocks named outside of a deep-ignore region,
    the loop of [getClosestSelectorTypeFullNames] stops at the first
    block that has a selector among its names. *)
Lemma closest_chain rs :
  forall chain fuel,
  linked rs chain ->
  Forall (fun c => exists r, nth_error rs c = Some r /\ shaped (names r)) chain ->
  length chain <= fuel ->
  exists path,
    parentPath rs (hd_error chain) path
    /\ closestSelectorType fuel rs (hd_error chain) = find hasSelector path.
Proof.
  induction chain as [ | c older IH]; intros fuel Lk G Lf.
  - exists []. split; [constructor | ]. destruct fuel; reflexivity.
  - destruct fuel as [ | fuel]; [simpl in Lf; lia | ].
    destruct Lk as [(r & Hr & Hp) Lk].
    inversion G as [ | ? ? (r' & Hr' & Sh) G']; subst.
    assert (r' = r) by congruence. subst r'.
    destruct (IH fuel Lk G') as (path & Pp & Ec); [simpl in Lf; lia | ].
    exists (r :: path). split.
    + constructor; [assumption | now rewrite Hp].
    + cbn [hd_error closestSelectorType find]. rewrite Hr.
      rewrite (shaped_test _ Sh). fold (hasSelector r).
      destruct (hasSelector r); [reflexivity | ]. now rewrite Hp.
Qed.

(** Under an at-rule alone there is nothing to combine with, under
    [.a] below it the child [.b] becomes [.a .b], and the
    test of the loop, more than one name or a selector first, differs
    from the presence of a selector only on name lists that no open
    block has while the counter is 0. *)
Remark closest_examples :
  getClosestSelectorTypeFullNames
    (stateAt (newParser (mkTextDocument
       (str "@media print { .a { .b { } } }") (str "scss"))) 1) = None
  /\ getClosestSelectorTypeFullNames
       (stateAt (newParser (mkTextDocument
          (str "@media print { .a { .b { } } }") (str "scss"))) 2)
     = Some [str ".a"]
  /\ map (fun r => map full (names r))
       (ranges (scan (newParser (mkTextDocument
          (str "@media print { .a { .b { } } }") (str "scss")))))
     = [[str "@media print"]; [str ".a"]; [str ".a .b"]]
  /\ combineNestingNames
       (stateAt (newParser (mkTextDocument
          (str "@media print { .a { .b { } } }") (str "scss"))) 2)
       [mkLeafName (str ".b") (str ".b") true]
     = [mkLeafName (str ".b") (str ".a .b") true]
  /\ closestSelectorType 1
       [mkLeafRange [mkLeafName (str "0%") (str "0%") false;
                     mkLeafName (str "5%") (str "5%") false] 0 0 None]
       (Some 0) <> None.
Proof. repeat split; vm_compute; try reflexivity. discriminate. Qed.

(** ** The deep-ignore trigger *)

Lemma startsWith_firstn p :
  forall s, startsWith p s = str_eqb (firstn (length p) s) p.
Proof.
  induction p as [ | x p IH]; intros [ | y s]; simpl; try reflexivity.
  now rewrite IH, N.eqb_sym.
Qed.

Lemma startsWith_app p t : startsWith p (p ++ t) = true.
Proof.
  induction p as [ | x p IH]; simpl; [reflexivity | ].
  now rewrite N.eqb_refl, IH.
Qed.

(** C10.  [shouldIgnoreDeeply] compares the first ten code units with
    [@keyframes] and nothing else.  A block whose normalised selector
    passes the test raises the counter and gets only non-selector
    names, also when the at-keyword goes on as in [@keyframes-custom];
    [@-webkit-keyframes] does not pass, so the blocks inside it keep
    selector names, here with the main identifiers [from] and [to]. *)
Theorem keyframes_literal_prefix :
  (forall s, shouldIgnoreDeeply s = str_eqb (firstn 10 s) (str "@keyframes"))
  /\ (forall t, shouldIgnoreDeeply (str "@keyframes" ++ t) = true)
  /\ shouldIgnoreDeeply (str "@keyframes-custom x") = true
  /\ shouldIgnoreDeeply (str "@-webkit-keyframes spin") = false
  /\ (forall P st li sel,
        shouldIgnoreDeeply (normalizeSelector sel) = true ->
        ignoreDeep (openBlock P st li sel) = S (ignoreDeep st)
        /\ exists leaf,
             nth_error (ranges (openBlock P st li sel)) (length (ranges st))
             = Some leaf
             /\ forallb (fun n => negb (isSelector n)) (names leaf) = true)
  /\ (forall lang, In lang ["css"; "less"; "scss"]%string ->
        let vendor := newParser (mkTextDocument
              (str "@-webkit-keyframes spin { from { left: 0; } to { left: 9px; } }")
              (str lang)) in
        let custom := newParser (mkTextDocument
              (str "@keyframes-custom x { from { left: 0; } to { left: 9px; } }")
              (str lang)) in
        map (fun r => map isSelector (names r)) (ranges (scan vendor))
        = [[false]; [true]; [true]]
        /\ map nrNames (parse vendor)
           = [[mkFullMainName (str "@-webkit-keyframes spin") []];
              [mkFullMainName (str "from") (str "from")];
              [mkFullMainName (str "to") (str "to")]]
        /\ map (fun r => map isSelector (names r)) (ranges (scan custom))
           = [[false]; [false]; [false]]
        /\ map nrNames (parse custom)
           = [[mkFullMainName (str "@keyframes-custom x") []];
              [mkFullMainName (str "from") []];
              [mkFullMainName (str "to") []]]).
Proof.
  split; [ | split; [ | split; [ | split; [ | split]]]].
  - intros s. apply (startsWith_firstn (str "@keyframes")).
  - intros t. apply (startsWith_app (str "@keyframes")).
  - reflexivity.
  - reflexivity.
  - intros P st li sel H.
    pose proof (openBlock_ignoreDeep P st li sel) as Ei.
    rewrite H, orb_true_r in Ei. split; [assumption | ].
    destruct (openBlock_last P st li sel) as (leaf & Hl & _ & Hn).
    exists leaf. split; [assumption | ]. apply Hn. rewrite Ei. discriminate.
  - intros lang [<- | [<- | [<- | []]]]; repeat split; vm_compute; reflexivity.
Qed.

(** An instance for C10: the opening of [@keyframes spin]. *)
Lemma keyframes_literal_prefix_witness :
  let P := newParser (mkTextDocument (str "@keyframes spin { }") (str "css")) in
  ignoreDeep (openBlock P initScan 17 (str "@keyframes spin ")) = 1
  /\ exists leaf,
       nth_error (ranges (openBlock P initScan 17 (str "@keyframes spin "))) 0
       = Some leaf
       /\ forallb (fun n => negb (isSelector n)) (names leaf) = true.
Proof.
  intros P.
  apply (proj1 (proj2 (proj2 (proj2 (proj2 keyframes_literal_prefix)))) P
           initScan 17 (str "@keyframes spin ")).
  reflexivity.
Defined.

(** ** Running the matcher over a fragment *)

Lemma m_Char_step p k s x r :
  rest s = x :: r -> p x = true -> m (Char p) k s = k (advance x r s).
Proof. intros E H. cbn [m]. now rewrite E, H. Qed.

Lemma m_Char_fail p k s x r :
  rest s = x :: r -> p x = false -> m (Char p) k s = None.
Proof. intros E H. cbn [m]. now rewrite E, H. Qed.

Lemma consume_cons x l s r :
  rest s = x :: r -> consume (x :: l) s = consume l (advance x r s).
Proof. intros E. cbn [consume]. now rewrite E. Qed.


Lemma consume_spec l : forall s r,
  rest s = l ++ r ->
  rest (consume l s) = r /\ pos (consume l s) = pos s + length l
  /\ caps (consume l s) = caps s.
Proof.
  induction l as [ | x l IH]; intros s r E; simpl in *.
  - repeat split; auto.
  - rewrite E. cbn [tl].
    destruct (IH (advance x (l ++ r) s) r eq_refl) as (H1 & H2 & H3).
    repeat split; auto. rewrite H2. simpl. lia.
Qed.

(** [.*?] before a closing delimiter: over a body on one line without
    that delimiter, the lazy loop walks to the delimiter and hands over
    to what follows; if that succeeds, nothing else is tried. *)
Lemma lazy_dots c cont res :
  forall body fuel s r,
  forallb (fun y => dot y && negb (N.eqb c y)) body = true ->
  rest s = body ++ c :: r -> length body <= fuel ->
  cont (consume (body ++ [c]) s) = Some res ->
  starLoop (m (Char dot)) false (m (Char (N.eqb c)) cont) fuel s = Some res.
Proof.
  induction body as [ | y body IH]; intros fuel s r F E Lf K.
  - simpl in E, K. rewrite E in K. cbn [tl] in K.
    assert (Hk : m (Char (N.eqb c)) cont s = Some res).
    { rewrite (m_Char_step _ _ _ c r E (N.eqb_refl c)). exact K. }
    destruct fuel; cbn [starLoop]; rewrite Hk; reflexivity.
  - destruct fuel as [ | fuel]; [simpl in Lf; lia | ].
    simpl in F. apply andb_prop in F. destruct F as [Fy F].
    apply andb_prop in Fy. destruct Fy as [Fd Fc].
    apply negb_true_iff in Fc. simpl in E.
    cbn [starLoop]. rewrite (m_Char_fail _ _ _ y _ E Fc). cbn [orElse].
    rewrite (m_Char_step _ _ _ y _ E Fd).
    replace (Nat.eqb (pos (advance y (body ++ c :: r) s)) (pos s)) with false
      by (symmetry; apply Nat.eqb_neq; simpl; lia).
    apply (IH fuel (advance y (body ++ c :: r) s) r F eq_refl);
      [simpl in Lf; lia | ].
    rewrite <- app_comm_cons, (consume_cons _ _ _ _ E) in K. exact K.
Qed.

Lemma terminator_codes t :
  isTerminator t = true -> t = ch ";" \/ t = ch "{" \/ t = ch "}".
Proof.
  unfold isTerminator, oneOf. simpl. intros H.
  repeat (apply orb_prop in H; destruct H as [H | H]);
    try (apply N.eqb_eq in H; auto); discriminate.
Qed.

Lemma terminatorK_at p1 s t r :
  rest s = t :: r -> isTerminator t = true ->
  exists final,
    terminatorK p1 s = Some final /\ pos final = S (pos s)
    /\ caps final = (2, (pos s, S (pos s))) :: (1, (p1, pos s)) :: caps s.
Proof.
  intros E T. unfold terminatorK. cbn [m].
  change (rest (setCap 1 p1 s)) with (rest s). rewrite E, T.
  eexists. split; [reflexivity | ]. split; reflexivity.
Qed.

Lemma terminatorK_fail p1 s x r :
  rest s = x :: r -> isTerminator x = false -> terminatorK p1 s = None.
Proof.
  intros E T. unfold terminatorK. cbn [m].
  change (rest (setCap 1 p1 s)) with (rest s). now rewrite E, T.
Qed.

(** One round of the lazy fragment loop over a span. *)
Lemma fragmentStep_span cont res s o body c r :
  isDelims o c = true ->
  forallb (fun y => dot y && negb (N.eqb c y)) body = true ->
  rest s = o :: body ++ c :: r ->
  cont (consume (o :: body ++ [c]) s) = Some res ->
  m fragmentStepRE cont s = Some res.
Proof.
  intros D F E K. rewrite (consume_cons _ _ _ _ E) in K.
  assert (Sp : forall oc cc,
            o = oc -> c = cc ->
            m (spanRE dot (Char (N.eqb oc)) (Char (N.eqb cc))) cont s = Some res).
  { intros oc cc -> ->. unfold spanRE. cbn [m].
    rewrite E, N.eqb_refl.
    apply (lazy_dots cc cont res body _ (advance oc (body ++ cc :: r) s) r F eq_refl);
      [ | exact K].
    simpl. rewrite length_app. lia. }
  unfold isDelims in D. unfold fragmentStepRE.
  apply orb_prop in D. destruct D as [D | D]; [apply orb_prop in D; destruct D as [D | D] | ];
    apply andb_prop in D; destruct D as [Do Dc];
    apply N.eqb_eq in Do; apply N.eqb_eq in Dc.
  - cbn [m]. unfold lit. rewrite (Sp _ _ Do Dc). reflexivity.
  - assert (N1 : m (spanRE dot (lit "(") (lit ")")) cont s = None).
    { unfold spanRE, lit. cbn [m]. rewrite E, Do. reflexivity. }
    cbn [m]. rewrite N1. cbn [orElse]. unfold quoteRE.
    rewrite (Sp _ _ Do Dc). reflexivity.
  - assert (N1 : m (spanRE dot (lit "(") (lit ")")) cont s = None).
    { unfold spanRE, lit. cbn [m]. rewrite E, Do. reflexivity. }
    assert (N2 : m (spanRE dot quoteRE quoteRE) cont s = None).
    { unfold spanRE, quoteRE. cbn [m]. rewrite E, Do. reflexivity. }
    cbn [m]. rewrite N1, N2. cbn [orElse]. unfold lit.
    rewrite (Sp _ _ Do Dc). reflexivity.
Qed.

(** One round over an ordinary code unit. *)
Lemma fragmentStep_plain cont s x r :
  noneOf [ch "("; QUOTE; ch "'"] x = true ->
  rest s = x :: r ->
  m fragmentStepRE cont s = cont (advance x r s).
Proof.
  intros Np E.
  unfold fragmentStepRE, spanRE, lit, quoteRE. cbn [m]. rewrite E.
  destruct (N.eqb (ch "(") x) eqn:N1;
    [apply N.eqb_eq in N1; subst x; discriminate Np | ].
  destruct (N.eqb QUOTE x) eqn:N2;
    [apply N.eqb_eq in N2; subst x; discriminate Np | ].
  destruct (N.eqb (ch "'") x) eqn:N3;
    [apply N.eqb_eq in N3; subst x; discriminate Np | ].
  reflexivity.
Qed.

Lemma piece_first_not_terminator p l :
  pieceOk p = true -> 
  exists x r, pieceText p ++ l = x :: r /\ isTerminator x = false.
Proof.
  destruct p as [x | o body c]; simpl; intros H.
  - apply andb_prop in H. destruct H as [H _]. apply negb_true_iff in H.
    exists x, l. auto.
  - apply andb_prop in H. destruct H as [H _].
    exists o, ((body ++ [c]) ++ l). split; [reflexivity | ].
    unfold isDelims in H.
    repeat (apply orb_prop in H; destruct H as [H | H]);
      apply andb_prop in H; destruct H as [H _]; apply N.eqb_eq in H;
      subst o; reflexivity.
Qed.

Lemma pieces_length ps : length ps <= length (piecesText ps).
Proof.
  induction ps as [ | p ps IH]; simpl; [lia | ].
  unfold piecesText in *. simpl. rewrite length_app.
  destruct p; simpl; lia.
Qed.

(** The lazy fragment loop over pieces that end in a terminator: every
    piece is taken in one round, and the first terminator tried is the
    one after the last piece. *)
Lemma lazy_pieces p1 :
  forall ps fuel s t r,
  forallb pieceOk ps = true ->
  rest s = piecesText ps ++ t :: r -> isTerminator t = true ->
  length ps <= fuel ->
  exists final,
    starLoop (m fragmentStepRE) false (terminatorK p1) fuel s = Some final
    /\ pos final = S (pos s + length (piecesText ps))
    /\ caps final
       = (2, (pos s + length (piecesText ps),
              S (pos s + length (piecesText ps))))
         :: (1, (p1, pos s + length (piecesText ps))) :: caps s.
Proof.
  induction ps as [ | p ps IH]; intros fuel s t r F E T Lf.
  - simpl in E. destruct (terminatorK_at p1 s t r E T) as (final & Hk & Hp & Hc).
    exists final. simpl. rewrite Nat.add_0_r.
    split; [ | split; assumption].
    destruct fuel; cbn [starLoop]; rewrite Hk; reflexivity.
  - destruct fuel as [ | fuel]; [simpl in Lf; lia | ].
    simpl in F. apply andb_prop in F. destruct F as [Fp F].
    unfold piecesText in E. simpl in E. rewrite <- app_assoc in E.
    fold (piecesText ps) in E.
    destruct (piece_first_not_terminator p (piecesText ps ++ t :: r) Fp)
      as (x0 & r0 & E0 & T0).
    cbn [starLoop].
    rewrite (terminatorK_fail p1 s x0 r0 (eq_trans E E0) T0). cbn [orElse].
    assert (Len : length (piecesText (p :: ps))
                  = length (pieceText p) + length (piecesText ps)).
    { unfold piecesText. simpl. now rewrite length_app. }
    destruct p as [x | o body c].
    + simpl in Fp. apply andb_prop in Fp. destruct Fp as [_ Np].
      simpl in E. rewrite (fragmentStep_plain _ s x _ Np E).
      replace (Nat.eqb (pos (advance x (piecesText ps ++ t :: r) s)) (pos s))
        with false by (symmetry; apply Nat.eqb_neq; simpl; lia).
      destruct (IH fuel (advance x (piecesText ps ++ t :: r) s) t r F eq_refl T)
        as (final & Hs & Hp & Hc); [simpl in Lf; lia | ].
      exists final. split; [assumption | ].
      rewrite Len. simpl in Hp, Hc |- *.
      replace (pos s + S (length (piecesText ps)))
        with (S (pos s + length (piecesText ps))) by lia.
      split; assumption.
    + simpl in Fp. apply andb_prop in Fp. destruct Fp as [Dl Fb].
      simpl in E.
      assert (E' : rest s = (o :: body ++ [c]) ++ piecesText ps ++ t :: r).
      { rewrite E. simpl. now rewrite <- app_assoc. }
      destruct (consume_spec (o :: body ++ [c]) s _ E') as (R3 & P3 & C3).
      destruct (IH fuel (consume (o :: body ++ [c]) s) t r F R3 T)
        as (final & Hs & Hp & Hc); [simpl in Lf; lia | ].
      exists final. split.
      * apply (fragmentStep_span _ final s o body c
                 (piecesText ps ++ t :: r) Dl Fb).
        -- rewrite E. simpl. now rewrite <- app_assoc.
        -- replace (Nat.eqb (pos (consume (o :: body ++ [c]) s)) (pos s))
             with false by (symmetry; apply Nat.eqb_neq; rewrite P3; simpl; lia).
           exact Hs.
      * rewrite Len. rewrite P3 in Hp, Hc. rewrite C3 in Hc.
        change (pieceText (Span o body c)) with (o :: body ++ [c]).
        rewrite Nat.add_assoc. split; assumption.
Qed.

(** [\s*] takes all the white space there is when what follows
    succeeds after it. *)
Lemma greedy_spaces k res :
  forall ws fuel s r,
  forallb isSpace ws = true -> rest s = ws ++ r -> length ws <= fuel ->
  match r with [] => True | x :: _ => isSpace x = false end ->
  k (consume ws s) = Some res ->
  starLoop (m (Char isSpace)) true k fuel s = Some res.
Proof.
  induction ws as [ | w ws IH]; intros fuel s r F E Lf Hr K.
  - simpl in E, K. destruct fuel; cbn [starLoop]; [assumption | ].
    assert (Hn : m (Char isSpace)
                   (fun s' => if Nat.eqb (pos s') (pos s) then None
                              else starLoop (m (Char isSpace)) true k fuel s') s
                 = None).
    { cbn [m]. rewrite E. destruct r as [ | x r]; [reflexivity | ].
      now rewrite Hr. }
    rewrite Hn. exact K.
  - destruct fuel as [ | fuel]; [simpl in Lf; lia | ].
    simpl in F. apply andb_prop in F. destruct F as [Fw F]. simpl in E.
    cbn [starLoop]. rewrite (m_Char_step _ _ _ w _ E Fw).
    replace (Nat.eqb (pos (advance w (ws ++ r) s)) (pos s)) with false
      by (symmetry; apply Nat.eqb_neq; simpl; lia).
    rewrite (consume_cons _ _ _ _ E) in K.
    rewrite (IH fuel (advance w (ws ++ r) s) r F eq_refl); auto.
    simpl in Lf; lia.
Qed.

Lemma search_first r p pv t s :
  m r Some (mkMState p pv t []) = Some s ->
  search r p pv t = Some (mkMatch p (pos s) (caps s)).
Proof. intros H. destruct t; simpl; rewrite H; reflexivity. Qed.

Lemma substring_mid (a b c : jsstring) :
  substring (a ++ b ++ c) (length a) (length a + length b) = b.
Proof.
  unfold substring. rewrite skipn_app, skipn_all, Nat.sub_diag. simpl.
  replace (length a + length b - length a) with (length b) by lia.
  rewrite firstn_app, firstn_all, Nat.sub_diag. simpl. apply app_nil_r.
Qed.

Lemma comments_fail k s x r :
  rest s = x :: r -> N.eqb (ch "/") x = false ->
  m lineCommentRE k s = None /\ m blockCommentRE k s = None.
Proof.
  intros E H. unfold lineCommentRE, blockCommentRE, lit. cbn [m].
  rewrite E, H. split; reflexivity.
Qed.

Lemma comments_fail_slash k s y r :
  rest s = ch "/" :: y :: r -> oneOf [ch "/"; ch "*"] y = false ->
  m lineCommentRE k s = None /\ m blockCommentRE k s = None.
Proof.
  intros E H. unfold oneOf in H. cbn [existsb] in H.
  apply orb_false_elim in H. destruct H as [H1 H2].
  apply orb_false_elim in H2. destruct H2 as [H2 _].
  rewrite N.eqb_sym in H1. rewrite N.eqb_sym in H2.
  unfold lineCommentRE, blockCommentRE, lit. cbn [m].
  rewrite E, N.eqb_refl. cbn [rest advance]. rewrite H1, H2.
  split; reflexivity.
Qed.

(** C7 (amended).  Where the block pattern is applied, let white space
    be followed by a fragment that does not begin with white space nor,
    as a comment does, with [//] or [/*]; that is made of ordinary code
    units (none of [;], [{], [}], [(], the double and the single quote)
    and of spans [(...)], double-quoted or single-quoted, the body of
    each on one line and without the delimiter that closes the span (a
    span ends at the first closing delimiter: parentheses are not
    balanced, quotes not escaped); and let a terminator follow the
    fragment.  Then the match takes the whole fragment as group 1 and
    that terminator as group 2: no [;], [{] or [}] inside one of the
    spans ends it. *)
Theorem spans_are_opaque_in_fragment (before ws : jsstring)
    (ps : list piece) (t : cu) (after : jsstring) :
  forallb isSpace ws = true -> forallb pieceOk ps = true ->
  fragmentStart (piecesText ps) = true -> isTerminator t = true ->
  exists mt,
    exec blockRE (before ++ ws ++ piecesText ps ++ t :: after) (length before)
    = Some mt
    /\ index mt = length before
    /\ lastIndex mt = length before + length ws + length (piecesText ps) + 1
    /\ group (before ++ ws ++ piecesText ps ++ t :: after) mt 1
       = Some (piecesText ps)
    /\ group (before ++ ws ++ piecesText ps ++ t :: after) mt 2 = Some [t].
Proof.
  intros Fw Fp Fs T.
  set (frag := piecesText ps) in *.
  set (text := before ++ ws ++ frag ++ t :: after).
  set (s0 := mkMState (length before) (lastCu (firstn (length before) text))
               (ws ++ frag ++ t :: after) []).
  destruct (consume_spec ws s0 (frag ++ t :: after) eq_refl) as (R1 & P1 & C1).
  simpl in P1, C1.
  assert (Hx : exists x r, frag ++ t :: after = x :: r
                           /\ isSpace x = false).
  { destruct frag as [ | f frag'] eqn:Ef.
    - exists t, after. split; [reflexivity | ].
      destruct (terminator_codes t T) as [-> | [-> | ->]]; reflexivity.
    - exists f, (frag' ++ t :: after). split; [reflexivity | ].
      cbn [fragmentStart] in Fs. apply andb_prop in Fs.
      destruct Fs as [F1 _]. now apply negb_true_iff in F1. }
  destruct Hx as (x & r & Ex & Sx).
  assert (Hcom : m lineCommentRE Some (consume ws s0) = None
                 /\ m blockCommentRE Some (consume ws s0) = None).
  { destruct frag as [ | f frag'] eqn:Ef.
    - apply (comments_fail _ _ t after R1).
      destruct (terminator_codes t T) as [-> | [-> | ->]]; reflexivity.
    - cbn [fragmentStart] in Fs. apply andb_prop in Fs.
      destruct Fs as [_ F2]. apply negb_true_iff in F2.
      destruct (N.eqb (ch "/") f) eqn:Ec;
        [ | exact (comments_fail _ _ f (frag' ++ t :: after) R1 Ec)].
      apply N.eqb_eq in Ec. subst f. cbn [andb] in F2.
      destruct frag' as [ | y frag''].
      + apply (comments_fail_slash _ _ t after R1).
        destruct (terminator_codes t T) as [-> | [-> | ->]]; reflexivity.
      + exact (comments_fail_slash _ _ y (frag'' ++ t :: after) R1 F2). }
  destruct (lazy_pieces (pos (consume ws s0)) ps
              (S (length (rest (consume ws s0)))) (consume ws s0) t after
              Fp R1 T) as (final & Hs & Hp & Hc).
  { rewrite R1, length_app. pose proof (pieces_length ps). fold frag in H. lia. }
  fold frag in Hp, Hc. rewrite P1 in Hp, Hc. rewrite C1 in Hc.
  assert (Hm : m blockRE Some s0 = Some final).
  { unfold blockRE. cbn [m].
    apply (greedy_spaces _ final ws _ s0 (frag ++ t :: after) Fw eq_refl).
    - simpl. rewrite length_app. lia.
    - rewrite Ex. exact Sx.
    - destruct Hcom as [N1 N2].
      cbn [m]. rewrite N1. cbn [orElse]. rewrite N2. cbn [orElse].
      exact Hs. }
  exists (mkMatch (length before) (pos final) (caps final)).
  assert (Hexec : exec blockRE text (length before)
                  = Some (mkMatch (length before) (pos final) (caps final))).
  { unfold exec.
    replace (Nat.ltb (length text) (length before)) with false
      by (symmetry; apply Nat.ltb_ge; unfold text; rewrite length_app; lia).
    replace (skipn (length before) text) with (ws ++ frag ++ t :: after)
      by (unfold text; now rewrite skipn_app, skipn_all, Nat.sub_diag).
    now apply search_first. }
  split; [exact Hexec | ]. split; [reflexivity | ].
  cbn [lastIndex]. split; [rewrite Hp; lia | ].
  unfold group; cbn [groups]. rewrite Hc. cbn [getCap Nat.eqb]. split.
  - f_equal. unfold text.
    replace (before ++ ws ++ frag ++ t :: after)
      with ((before ++ ws) ++ frag ++ t :: after) by now rewrite <- app_assoc.
    rewrite <- (length_app before ws). apply substring_mid.
  - f_equal. unfold text.
    replace (before ++ ws ++ frag ++ t :: after)
      with ((before ++ ws ++ frag) ++ [t] ++ after)
      by now rewrite <- !app_assoc.
    replace (length before + length ws + length frag)
      with (length (before ++ ws ++ frag)) by (rewrite !length_app; lia).
    replace (S (length (before ++ ws ++ frag)))
      with (length (before ++ ws ++ frag) + length [t]) by (simpl; lia).
    apply substring_mid.
Qed.

(** An instance for C7: in the declaration of [.a { content: "}"; }]
    the [}] between the quotes does not end the fragment. *)
Lemma spans_are_opaque_in_fragment_witness :
  let before := str ".a {" in
  let ws := str " " in
  let ps := map Plain (str "content: ") ++ [Span QUOTE (str "}") QUOTE] in
  let after := str " }" in
  exists mt,
    exec blockRE (before ++ ws ++ piecesText ps ++ ch ";" :: after)
      (length before) = Some mt
    /\ index mt = length before
    /\ lastIndex mt = length before + length ws + length (piecesText ps) + 1
    /\ group (before ++ ws ++ piecesText ps ++ ch ";" :: after) mt 1
       = Some (piecesText ps)
    /\ group (before ++ ws ++ piecesText ps ++ ch ";" :: after) mt 2
       = Some [ch ";"].
Proof.
  intros before ws ps after.
  apply (spans_are_opaque_in_fragment before ws ps (ch ";") after);
    reflexivity.
Defined.

(** C7 as stated fails.  In [a(;)] no terminator follows the closing
    parenthesis, the matcher falls back to taking [(] as an ordinary
    code unit, and the [;] at offset 2 between the parentheses ends the
    fragment.  In the second text the parentheses at offsets 1 and 4
    are on different lines, [.] does not pass the line feed, and the
    [;] at offset 3 ends the fragment although [ b;] follows. *)
Lemma terminator_inside_span :
  exec blockRE (str "a(;)") 0 = Some (mkMatch 0 3 [(2, (2, 3)); (1, (0, 2))])
  /\ group (str "a(;)") (mkMatch 0 3 [(2, (2, 3)); (1, (0, 2))]) 1
     = Some (str "a(")
  /\ (let text := str "a(" ++ [LF] ++ str ";) b;" in
      nth_error text 1 = Some (ch "(") /\ nth_error text 4 = Some (ch ")")
      /\ exec blockRE text 0 = Some (mkMatch 0 4 [(2, (3, 4)); (1, (0, 3))])
      /\ group text (mkMatch 0 4 [(2, (3, 4)); (1, (0, 3))]) 2
         = Some [ch ";"]).
Proof. repeat split; vm_compute; reflexivity. Qed.

(** A fragment may begin with [/] where no comment begins, and a span
    ends at the first closing delimiter: in [a((;);)b;] the span is
    [((;)], and the [;] at offset 5, before the second [)], ends the
    fragment. *)
Remark fragment_edges :
  (let text := str "/deep/ .a {" in
   exists mt, exec blockRE text 0 = Some mt
              /\ group text mt 1 = Some (str "/deep/ .a ")
              /\ group text mt 2 = Some [ch "{"])
  /\ (let text := str "a((;);)b;" in
      exists mt, exec blockRE text 0 = Some mt
                 /\ group text mt 1 = Some (str "a((;)")
                 /\ lastIndex mt = 6).
Proof.
  split; eexists; (split; [vm_compute; reflexivity | ]);
    split; vm_compute; reflexivity.
Qed.

(** ** One call does not see the objects of another *)

Lemma setEnd_app older : forall rs a e,
  setEnd (older ++ rs) (length older + a) e = older ++ setEnd rs a e.
Proof.
  induction older as [ | o older IH]; intros rs a e; simpl; [reflexivity | ].
  now rewrite IH.
Qed.

Lemma setEnd_shift b : forall rs a e,
  setEnd (map (shiftRange b) rs) a e = map (shiftRange b) (setEnd rs a e).
Proof.
  induction rs as [ | r rs IH]; intros [ | a] e; simpl; try reflexivity.
  now rewrite IH.
Qed.

Lemma nth_error_shift older rs a :
  nth_error (older ++ map (shiftRange (length older)) rs) (length older + a)
  = option_map (shiftRange (length older)) (nth_error rs a).
Proof.
  rewrite nth_error_app2 by lia.
  replace (length older + a - length older) with a by lia.
  apply nth_error_map.
Qed.

Lemma closest_None fuel rs : closestSelectorType fuel rs None = None.
Proof. destruct fuel; reflexivity. Qed.

(** The loop of [getClosestSelectorTypeFullNames] finds the same block
    whatever lies before the array, and with any bound above the
    reference it starts from. *)
Lemma closest_shift older rs :
  (forall i r j, nth_error rs i = Some r -> parent r = Some j -> j < i) ->
  forall fuel fuel' ref,
  (forall a, ref = Some a -> a < fuel /\ a < fuel') ->
  closestSelectorType fuel' (older ++ map (shiftRange (length older)) rs)
    (option_map (Nat.add (length older)) ref)
  = option_map (shiftRange (length older)) (closestSelectorType fuel rs ref).
Proof.
  intros Dec. induction fuel as [ | fuel IH]; intros fuel' ref Hf.
  - destruct ref as [a | ]; [destruct (Hf a eq_refl); lia | ].
    now rewrite closest_None.
  - destruct ref as [a | ]; [ | now rewrite !closest_None].
    destruct fuel' as [ | fuel']; [destruct (Hf a eq_refl); lia | ].
    cbn [option_map closestSelectorType]. rewrite nth_error_shift.
    destruct (nth_error rs a) as [r | ] eqn:Hr; [ | reflexivity].
    cbn [option_map shiftRange names parent].
    destruct (Nat.ltb 1 (length (names r))
              || match names r with n0 :: _ => isSelector n0 | [] => false end)%bool;
      [reflexivity | ].
    apply IH. intros j Hj. specialize (Dec a r j Hr Hj).
    destruct (Hf a eq_refl). lia.
Qed.

Lemma getClosest_shift older s :
  (forall i r j, nth_error (ranges s) i = Some r -> parent r = Some j -> j < i) ->
  (forall a, current s = Some a -> a < length (ranges s)) ->
  getClosestSelectorTypeFullNames (shiftScan older s)
  = getClosestSelectorTypeFullNames s.
Proof.
  intros Dec Cur. unfold getClosestSelectorTypeFullNames, shiftScan.
  cbn [ranges current].
  rewrite (closest_shift older (ranges s) Dec (length (ranges s))).
  - destruct (closestSelectorType _ _ _); reflexivity.
  - intros a Ha. specialize (Cur a Ha). rewrite length_app, length_map. lia.
Qed.

Lemma openBlock_shift P older s li sel :
  (forall i r j, nth_error (ranges s) i = Some r -> parent r = Some j -> j < i) ->
  (forall a, current s = Some a -> a < length (ranges s)) ->
  openBlock P (shiftScan older s) li sel = shiftScan older (openBlock P s li sel).
Proof.
  intros Dec Cur. unfold openBlock, newLeafRange.
  set (ig := if (Nat.ltb 0 (ignoreDeep (shiftScan older s))
                 || shouldIgnoreDeeply (normalizeSelector sel))%bool
             then S (ignoreDeep (shiftScan older s))
             else ignoreDeep (shiftScan older s)).
  change (ignoreDeep (shiftScan older s)) with (ignoreDeep s) in ig.
  fold ig. cbn [ranges stack current ignoreDeep].
  assert (Ec : combineNestingNames
                 (mkScan (ranges (shiftScan older s)) (stack (shiftScan older s))
                    (current (shiftScan older s)) ig)
                 (parseToNames P ig (normalizeSelector sel))
               = combineNestingNames
                   (mkScan (ranges s) (stack s) (current s) ig)
                   (parseToNames P ig (normalizeSelector sel))).
  { unfold combineNestingNames. f_equal.
    apply (getClosest_shift older (mkScan (ranges s) (stack s) (current s) ig));
      assumption. }
  rewrite Ec. unfold shiftScan at 3. cbn [ranges stack current ignoreDeep].
  unfold shiftScan; cbn [ranges stack current ignoreDeep].
  rewrite map_app, app_assoc, !length_app, !length_map. cbn [map shiftRange].
  cbn [names start end_ parent].
  destruct (current s) as [a | ]; cbn [option_map];
    destruct (supportsNesting P); cbn [andb map]; reflexivity.
Qed.

Lemma closeBlock_shift P older s li :
  closeBlock P (shiftScan older s) li = shiftScan older (closeBlock P s li).
Proof.
  unfold closeBlock, shiftScan. cbn [ranges stack current ignoreDeep].
  destruct (current s) as [a | ]; cbn [option_map]; [ | reflexivity].
  rewrite setEnd_app, setEnd_shift.
  destruct (supportsNesting P); [ | reflexivity].
  destruct (stack s) as [ | top rest]; reflexivity.
Qed.

Lemma step_shift P text older s mt :
  (forall i r j, nth_error (ranges s) i = Some r -> parent r = Some j -> j < i) ->
  (forall a, current s = Some a -> a < length (ranges s)) ->
  step P text (shiftScan older s) mt = shiftScan older (step P text s mt).
Proof.
  intros Dec Cur. unfold step.
  destruct (isChar (ch "{") (group text mt 2) && truthy (group text mt 1))%bool;
    [now apply openBlock_shift | ].
  destruct (isChar (ch "}") (group text mt 2));
    [apply closeBlock_shift | reflexivity].
Qed.

Lemma closeAtEnd_shift text older s :
  closeAtEnd text (shiftScan older s) = shiftScan older (closeAtEnd text s).
Proof.
  unfold closeAtEnd. unfold shiftScan at 1 2. cbn [ranges stack current ignoreDeep].
  destruct (current s) as [a | ] eqn:Ea; cbn [option_map]; [ | reflexivity].
  rewrite nth_error_shift.
  destruct (nth_error (ranges s) a) as [r | ]; cbn [option_map]; [ | reflexivity].
  cbn [shiftRange end_]. destruct (Z.eqb (end_ r) 0); [ | reflexivity].
  unfold shiftScan. cbn [ranges stack current ignoreDeep].
  now rewrite setEnd_app, setEnd_shift, Ea.
Qed.

Lemma InvPos_refs text L s :
  InvPos text L s ->
  (forall i r j, nth_error (ranges s) i = Some r -> parent r = Some j -> j < i)
  /\ (forall a, current s = Some a -> a < length (ranges s)).
Proof.
  intros (_ & _ & Pa & C). split.
  - intros i r j Hi Hp. now destruct (Pa i r j Hi Hp).
  - intros a Ha. apply C. unfold chainOf. rewrite Ha. now left.
Qed.

Lemma fold_step_shift P text older :
  forall ms L s,
  wfMatches text L ms ->
  InvPos text L s
  /\ (supportsNesting P = true -> InvNest s /\ InvGood s)
  /\ (supportsNesting P = false -> InvFlat s) ->
  fold_left (step P text) ms (shiftScan older s)
  = shiftScan older (fold_left (step P text) ms s).
Proof.
  induction ms as [ | mt ms IH]; intros L s W I; simpl; [reflexivity | ].
  inversion W as [ | ? ? ? Wm Wms]; subst.
  destruct (InvPos_refs _ _ _ (proj1 I)) as [Dec Cur].
  rewrite (step_shift P text older s mt Dec Cur).
  apply (IH (lastIndex mt)); [assumption | ].
  now apply Inv_step with (L := L).
Qed.

Lemma format_shift b rs :
  formatToNamedRanges (map (shiftRange b) rs) = formatToNamedRanges rs.
Proof. unfold formatToNamedRanges. rewrite map_map. reflexivity. Qed.

(** A call on an instance with the fields as the constructor leaves
    them gives the result of a call on a new instance, whatever objects
    earlier calls have created. *)
Lemma parseFrom_initial P st :
  stack st = [] -> current st = None -> ignoreDeep st = 0 ->
  fst (parseFrom P st) = parse P.
Proof.
  intros Es Ec Ei.
  assert (E0 : st = shiftScan (ranges st) initScan).
  { destruct st as [rs stk cur ig]. simpl in *. subst.
    unfold shiftScan. simpl. now rewrite app_nil_r. }
  unfold parseFrom, parse, scan, scanFrom. cbn [fst].
  rewrite E0 at 2.
  rewrite (fold_step_shift P (getText (document P)) (ranges st)
             (execAll blockRE (getText (document P))) 0 initScan).
  - rewrite closeAtEnd_shift. unfold shiftScan at 1. cbn [ranges].
    rewrite skipn_app, skipn_all, Nat.sub_diag. cbn [skipn app].
    apply format_shift.
  - apply execAll_wf.
  - pose proof (Inv_init (getText (document P))) as (I1 & I2 & I3 & I4).
    split; [exact I1 | split; intros _; [split | ]; assumption].
Qed.

(** C8.  The result of [parse] is a function of the text and the
    dialect of the instance: two calls that both find the stack empty,
    no active block and the deep-ignore counter at 0 return the same
    ranges, whatever objects other calls have left behind. *)
Theorem parse_is_function_of_text_and_dialect (P : CSSRangeParser)
    (st1 st2 : Scan) :
  stack st1 = [] -> current st1 = None -> ignoreDeep st1 = 0 ->
  stack st2 = [] -> current st2 = None -> ignoreDeep st2 = 0 ->
  fst (parseFrom P st1) = fst (parseFrom P st2).
Proof.
  intros S1 C1 I1 S2 C2 I2.
  rewrite (parseFrom_initial P st1 S1 C1 I1).
  now rewrite (parseFrom_initial P st2 S2 C2 I2).
Qed.

(** An instance for C8: [.a { .b { } }] in SCSS, on a new instance and
    on one that holds an object of an earlier call. *)
Lemma parse_is_function_of_text_and_dialect_witness :
  let P := newParser (mkTextDocument (str ".a { .b { } }") (str "scss")) in
  fst (parseFrom P initScan)
  = fst (parseFrom P
           (mkScan [mkLeafRange [mkLeafName (str "x") (str "x") true] 0 9 None]
              [] None 0)).
Proof.
  intros P.
  apply (parse_is_function_of_text_and_dialect P); reflexivity.
Defined.

(** The premise is needed: [parse] does not reset the fields, so a
    second call on the instance that parsed the unterminated [.a {]
    finds [.a] still active and nests the same rule below it. *)
Remark second_call_sees_first :
  let P := newParser (mkTextDocument (str ".a {") (str "scss")) in
  map nrNames (fst (parseFrom P initScan))
  = [[mkFullMainName (str ".a") (str ".a")]]
  /\ current (snd (parseFrom P initScan)) = Some 0
  /\ map nrNames (fst (parseFrom P (snd (parseFrom P initScan))))
     = [[mkFullMainName (str ".a .a") (str ".a")]].
Proof. intros P. repeat split; vm_compute; reflexivity. Qed.

(** ** The bounds of the loops are never reached *)

Lemma reach_refl s : reach s s.
Proof. exists []. simpl. split; [reflexivity | lia]. Qed.

Lemma reach_trans s1 s2 s3 : reach s1 s2 -> reach s2 s3 -> reach s1 s3.
Proof.
  intros (m1 & E1 & P1) (m2 & E2 & P2). exists (m1 ++ m2).
  rewrite E1, E2, <- app_assoc, length_app. split; [reflexivity | lia].
Qed.

Lemma starLoop_ext (body : (MState -> option MState) -> MState -> option MState)
    g k k' :
  (forall c c' s, (forall s', reach s s' -> c s' = c' s') ->
                  body c s = body c' s) ->
  forall fuel s, (forall s', reach s s' -> k s' = k' s') ->
  starLoop body g k fuel s = starLoop body g k' fuel s.
Proof.
  intros Hb. induction fuel as [ | fuel IH]; intros s Hk; cbn [starLoop].
  - apply Hk, reach_refl.
  - rewrite (Hk s (reach_refl s)).
    rewrite (Hb (fun s' => if Nat.eqb (pos s') (pos s) then None
                           else starLoop body g k fuel s')
                (fun s' => if Nat.eqb (pos s') (pos s) then None
                           else starLoop body g k' fuel s') s);
      [reflexivity | ].
    intros s' R. destruct (Nat.eqb (pos s') (pos s)); [reflexivity | ].
    apply IH. intros s'' R'. apply Hk. eapply reach_trans; eassumption.
Qed.

(** The matcher uses its continuation on later states of the same text
    only. *)
Lemma m_ext (r : regex) :
  forall k k' s, (forall s', reach s s' -> k s' = k' s') ->
  m r k s = m r k' s.
Proof.
  induction r as [ | p | r1 IH1 r2 IH2 | r1 IH1 r2 IH2 | g r IH | i r IH | | | r IH];
    intros k k' s Hk; cbn [m]; try (rewrite (Hk s (reach_refl s)); reflexivity).
  - destruct (rest s) as [ | c t] eqn:E; [reflexivity | ].
    destruct (p c); [ | reflexivity]. apply Hk.
    exists [c]. simpl. rewrite E. split; [reflexivity | lia].
  - apply IH1. intros s1 R1. apply IH2. intros s2 R2.
    apply Hk. eapply reach_trans; eassumption.
  - rewrite (IH1 k k' s Hk), (IH2 k k' s Hk). reflexivity.
  - apply starLoop_ext; [ | assumption]. intros c c' s0 Hc. now apply IH.
  - apply IH. intros s' R. apply Hk. exact R.
Qed.

(** More fuel than the remaining text is long makes no difference to
    the loop of a quantifier. *)
Lemma starLoop_fuel r g k :
  forall fuel fuel' s,
  length (rest s) < fuel -> length (rest s) < fuel' ->
  starLoop (m r) g k fuel s = starLoop (m r) g k fuel' s.
Proof.
  induction fuel as [ | fuel IH]; intros fuel' s L L'; [lia | ].
  destruct fuel' as [ | fuel']; [lia | ]. cbn [starLoop].
  rewrite (m_ext r (fun s' => if Nat.eqb (pos s') (pos s) then None
                              else starLoop (m r) g k fuel s')
             (fun s' => if Nat.eqb (pos s') (pos s) then None
                        else starLoop (m r) g k fuel' s') s);
    [reflexivity | ].
  intros s' (mid & E & P).
  destruct (Nat.eqb (pos s') (pos s)) eqn:Ep; [reflexivity | ].
  apply Nat.eqb_neq in Ep.
  assert (length (rest s') < length (rest s)).
  { rewrite E, length_app. destruct mid; simpl in *; lia. }
  apply IH; lia.
Qed.

Lemma exec_bounds r text from mt :
  exec r text from = Some mt ->
  from <= index mt /\ index mt <= lastIndex mt /\ lastIndex mt <= length text.
Proof.
  intros H. apply exec_sound in H.
  destruct H as (before & t' & pv' & s' & Et & Eb & Ef & M & Ep & Ec).
  apply matches_span in M. destruct M as (mid & Emid & Pmid).
  simpl in Emid, Pmid. rewrite Et, Emid, !length_app. lia.
Qed.

Lemma exec_beyond r text from :
  length text < from -> exec r text from = None.
Proof. intros L. unfold exec. apply Nat.ltb_lt in L. now rewrite L. Qed.

(** For a pattern that never matches the empty string, the loop over
    its matches ends before the bound. *)
Lemma execLoop_fuel_any r text :
  (forall from mt, exec r text from = Some mt -> from < lastIndex mt) ->
  forall fuel1 fuel2 from,
  length text < fuel1 + from -> length text < fuel2 + from ->
  execLoop fuel1 r text from = execLoop fuel2 r text from.
Proof.
  intros Pr.
  assert (stop : forall fuel from, length text < from ->
            execLoop fuel r text from = []).
  { intros [ | fuel] from L; simpl; [reflexivity | ].
    now rewrite exec_beyond. }
  induction fuel1 as [ | fuel1 IH]; intros fuel2 from L1 L2.
  - rewrite !stop by lia. reflexivity.
  - destruct fuel2 as [ | fuel2]; [rewrite !stop by lia; reflexivity | ].
    simpl. destruct (exec r text from) as [mt | ] eqn:E; [ | reflexivity].
    apply Pr in E. f_equal. apply IH; lia.
Qed.

Lemma exec_namesRE text from mt :
  exec namesRE text from = Some mt -> from < lastIndex mt.
Proof.
  intros H. apply exec_sound in H.
  destruct H as (before & t' & pv' & s' & Et & Eb & Ef & M & Ep & Ec).
  unfold namesRE, Plus in M.
  apply inv_Seq in M. destruct M as (s1 & M1 & M2).
  apply matches_span in M2. destruct M2 as (mid2 & _ & P2).
  apply inv_Group in M1. destruct M1 as (s2 & M1 & ->).
  apply inv_Seq in M1. destruct M1 as (s3 & Mb & Ms).
  apply matches_span in Ms. destruct Ms as (mid3 & _ & P3).
  assert (S (index mt) <= pos s3).
  { unfold spanRE in Mb.
    apply inv_Alt in Mb. destruct Mb as [Mb | Mb];
      [ | apply inv_Alt in Mb; destruct Mb as [Mb | Mb]].
    - apply inv_Seq in Mb. destruct Mb as (s4 & Mo & Mr).
      apply inv_Char in Mo. destruct Mo as (c & t & _ & _ & ->).
      apply matches_span in Mr. destruct Mr as (mid & _ & P). simpl in P. lia.
    - apply inv_Seq in Mb. destruct Mb as (s4 & Mo & Mr).
      apply inv_Char in Mo. destruct Mo as (c & t & _ & _ & ->).
      apply matches_span in Mr. destruct Mr as (mid & _ & P). simpl in P. lia.
    - apply inv_Char in Mb. destruct Mb as (c & t & _ & _ & ->). simpl. lia. }
  simpl in P2. lia.
Qed.

(** The loops of [parseToNames] and of [replace] end by themselves
    too. *)
Lemma execAll_namesRE_fuel text fuel :
  length text < fuel -> execLoop fuel namesRE text 0 = execAll namesRE text.
Proof.
  intros L. apply execLoop_fuel_any; [apply exec_namesRE | lia | lia].
Qed.

Lemma replaceLoop_fuel r text tpl :
  forall fuel1 fuel2 from copied,
  length text < fuel1 + from -> length text < fuel2 + from ->
  replaceLoop fuel1 r text tpl from copied
  = replaceLoop fuel2 r text tpl from copied.
Proof.
  assert (stop : forall fuel from copied, length text < from ->
            replaceLoop fuel r text tpl from copied = skipn copied text).
  { intros [ | fuel] from copied L; simpl; [reflexivity | ].
    now rewrite exec_beyond. }
  induction fuel1 as [ | fuel1 IH]; intros fuel2 from copied L1 L2.
  - rewrite !stop by lia. reflexivity.
  - destruct fuel2 as [ | fuel2]; [rewrite !stop by lia; reflexivity | ].
    simpl. destruct (exec r text from) as [mt | ] eqn:E; [ | reflexivity].
    apply exec_bounds in E. destruct E as (E1 & E2 & E3).
    do 2 f_equal. apply IH;
      destruct (Nat.eqb (lastIndex mt) (index mt)) eqn:Ee;
      try (apply Nat.eqb_neq in Ee); lia.
Qed.

(** * Further properties *)

(** ** Order, number and bounds of the ranges *)

(** An invariant that every round keeps, given the three invariants
    above, holds after the loop. *)
Lemma fold_invariant P text (J : Scan -> Prop) :
  (forall L st mt, wfBlockMatch text L mt -> Inv P text L st -> J st ->
                   J (step P text st mt)) ->
  forall ms L st,
  wfMatches text L ms -> Inv P text L st -> J st ->
  exists L', Inv P text L' (fold_left (step P text) ms st)
             /\ J (fold_left (step P text) ms st).
Proof.
  intros Hstep. induction ms as [ | mt ms IH]; intros L st W I HJ; simpl.
  - exists L. split; assumption.
  - inversion W as [ | ? ? ? Wm Wms]; subst.
    apply (IH (lastIndex mt)); [assumption | | ].
    + unfold Inv in *. now apply Inv_step with (L := L).
    + now apply Hstep with (L := L).
Qed.

Lemma Inv_initScan P text : Inv P text 0 initScan.
Proof.
  pose proof (Inv_init text) as (I1 & I2 & I3 & I4).
  split; [exact I1 | split; intros _; [split | ]; assumption].
Qed.

Lemma final_invariant P (J : Scan -> Prop) :
  (forall L st mt, wfBlockMatch (getText (document P)) L mt ->
                   Inv P (getText (document P)) L st -> J st ->
                   J (step P (getText (document P)) st mt)) ->
  J initScan ->
  exists L st,
    scan P = closeAtEnd (getText (document P)) st
    /\ Inv P (getText (document P)) L st /\ J st.
Proof.
  intros Hstep H0.
  destruct (fold_invariant P (getText (document P)) J Hstep
              (execAll blockRE (getText (document P))) 0 initScan
              (execAll_wf _) (Inv_initScan P _) H0) as (L & I & HJ).
  exists L. eexists. split; [reflexivity | split; assumption].
Qed.

Lemma InvOrder_step P text L st mt :
  wfBlockMatch text L mt -> Inv P text L st -> InvOrder st ->
  InvOrder (step P text st mt).
Proof.
  intros W (IP & _) (Nn & Or).
  destruct (step_cases P text st mt L W)
    as (L1 & L2 & [-> | [(a & b & -> & La & Lab & Li & _) | [-> _]]]).
  - split; assumption.
  - destruct (openBlock_fields P st (S b) (substring text a b)) as (nm & ig & ->).
    pose proof (normalizeSelector_length (substring text a b)) as Ln.
    rewrite substring_length in Ln by lia.
    destruct IP as (_ & R & _). unfold InvOrder. cbn [ranges]. split.
    + intros i r H. apply nth_error_snoc in H. destruct H as [H | [_ ->]].
      * eapply Nn; eassumption.
      * cbn [start]. lia.
    + intros i j ri rj Lij Hi Hj.
      apply nth_error_snoc in Hj. destruct Hj as [Hj | [Ej ->]].
      * pose proof (nth_error_lt _ _ _ Hj).
        rewrite nth_error_app1 in Hi by lia. exact (Or i j ri rj Lij Hi Hj).
      * subst j. rewrite nth_error_app1 in Hi by lia.
        destruct (R i ri Hi) as (R1 & _). cbn [start]. lia.
  - unfold InvOrder. rewrite closeBlock_ranges.
    destruct (current st) as [c | ]; [ | split; assumption]. split.
    + intros i r H. apply setEnd_nth in H.
      destruct H as (r0 & H0 & _ & -> & _). eapply Nn; eassumption.
    + intros i j ri rj Lij Hi Hj.
      apply setEnd_nth in Hi. destruct Hi as (ri0 & Hi & _ & -> & _).
      apply setEnd_nth in Hj. destruct Hj as (rj0 & Hj & _ & -> & _).
      exact (Or i j _ _ Lij Hi Hj).
Qed.

Lemma InvOrder_closeAtEnd text st : InvOrder st -> InvOrder (closeAtEnd text st).
Proof.
  intros (Nn & Or). unfold closeAtEnd.
  destruct (current st) as [c | ]; [ | split; assumption].
  destruct (nth_error (ranges st) c) as [rc | ]; [ | split; assumption].
  destruct (Z.eqb (end_ rc) 0); [ | split; assumption].
  unfold InvOrder. cbn [ranges]. split.
  - intros i r H. apply setEnd_nth in H.
    destruct H as (r0 & H0 & _ & -> & _). eapply Nn; eassumption.
  - intros i j ri rj Lij Hi Hj.
    apply setEnd_nth in Hi. destruct Hi as (ri0 & Hi & _ & -> & _).
    apply setEnd_nth in Hj. destruct Hj as (rj0 & Hj & _ & -> & _).
    exact (Or i j _ _ Lij Hi Hj).
Qed.

Lemma InvOrder_scan P : InvOrder (scan P).
Proof.
  destruct (final_invariant P InvOrder) as (L & st & -> & _ & HJ).
  - intros L st mt. apply InvOrder_step.
  - split.
    + intros [ | i] r H; discriminate H.
    + intros [ | i] j ri rj _ H; discriminate H.
  - now apply InvOrder_closeAtEnd.
Qed.

(** X1.  The ranges come in the order of their start offsets: a range
    later in the result starts strictly after every earlier one. *)
Theorem ranges_ordered_by_start (P : CSSRangeParser) (i j : nat)
    (ni nj : NamedRange) :
  i < j -> nth_error (parse P) i = Some ni -> nth_error (parse P) j = Some nj ->
  (fst (range ni) < fst (range nj))%Z.
Proof.
  intros Lij Hi Hj.
  apply parse_nth in Hi. destruct Hi as (ri & Hi & -> & _).
  apply parse_nth in Hj. destruct Hj as (rj & Hj & -> & _).
  cbn [fst]. destruct (InvOrder_scan P) as (_ & Or).
  exact (Or i j ri rj Lij Hi Hj).
Qed.

(** An instance for X1: the two ranges of [.a { } .b { }]. *)
Lemma ranges_ordered_by_start_witness : (1 < 8)%Z.
Proof.
  apply (ranges_ordered_by_start
           (newParser (mkTextDocument (str ".a { } .b { }") (str "css"))) 0 1
           (mkNamedRange [mkFullMainName (str ".a") (str ".a")] (1, 6)%Z)
           (mkNamedRange [mkFullMainName (str ".b") (str ".b")] (8, 13)%Z));
    [lia | reflexivity | reflexivity].
Defined.

(** X2.  Both offsets of every range lie in the text: the start is at
    least 0 and below the length of the text, the end is between 0 and
    that length, and an end other than 0 lies after the start. *)
Theorem range_offsets_within_text (P : CSSRangeParser) (i : nat)
    (nr : NamedRange) :
  nth_error (parse P) i = Some nr ->
  (0 <= fst (range nr) < Z.of_nat (length (getText (document P)))
   /\ 0 <= snd (range nr) <= Z.of_nat (length (getText (document P)))
   /\ (snd (range nr) <> 0 -> fst (range nr) < snd (range nr)))%Z.
Proof.
  intros Hi. apply parse_nth in Hi. destruct Hi as (r & Hi & -> & _).
  cbn [fst snd]. destruct (InvOrder_scan P) as (Nn & _).
  destruct (Inv_final P) as (L & st & Es & IP & _).
  pose proof (InvPos_closeAtEnd _ _ _ IP) as (_ & R & _).
  rewrite <- Es in R. destruct (R i r Hi) as (R1 & R2 & R3).
  specialize (Nn i r Hi). repeat split; auto; lia.
Qed.

(** An instance for X2: the range of [.a { color: red; }]. *)
Lemma range_offsets_within_text_witness :
  (0 <= 1 < 18 /\ 0 <= 18 <= 18 /\ (18 <> 0 -> 1 < 18))%Z.
Proof.
  apply (range_offsets_within_text
           (newParser (mkTextDocument (str ".a { color: red; }") (str "css"))) 0
           (mkNamedRange [mkFullMainName (str ".a") (str ".a")] (1, 18)%Z)).
  reflexivity.
Defined.

Lemma step_length P text st mt :
  length (ranges (step P text st mt))
  = length (ranges st) + (if opens text mt then 1 else 0).
Proof.
  unfold step, opens.
  destruct (isChar (ch "{") (group text mt 2) && truthy (group text mt 1))%bool.
  - destruct (openBlock_fields P st (lastIndex mt)
                (match group text mt 1 with Some sel => sel | None => [] end))
      as (nm & ig & ->).
    cbn [ranges]. rewrite length_app. reflexivity.
  - rewrite Nat.add_0_r.
    destruct (isChar (ch "}") (group text mt 2)); [ | reflexivity].
    rewrite closeBlock_ranges.
    destruct (current st); [apply setEnd_length | reflexivity].
Qed.

Lemma fold_step_length P text ms :
  forall st,
  length (ranges (fold_left (step P text) ms st))
  = length (ranges st) + length (filter (opens text) ms).
Proof.
  induction ms as [ | mt ms IH]; intros st; simpl; [lia | ].
  rewrite IH, step_length. destruct (opens text mt); simpl; lia.
Qed.

Lemma closeAtEnd_length text st :
  length (ranges (closeAtEnd text st)) = length (ranges st).
Proof.
  unfold closeAtEnd. destruct (current st) as [a | ]; [ | reflexivity].
  destruct (nth_error (ranges st) a); [ | reflexivity].
  destruct (Z.eqb (end_ l) 0); [apply setEnd_length | reflexivity].
Qed.

Lemma parse_length P :
  length (parse P)
  = length (filter (opens (getText (document P)))
              (execAll blockRE (getText (document P)))).
Proof.
  unfold parse, formatToNamedRanges, scan, scanFrom.
  rewrite length_map, closeAtEnd_length, fold_step_length. reflexivity.
Qed.

(** X3.  The result has one range for every match of the block pattern
    that ends in [{] after a non-empty fragment, and no other: a
    declaration, a [}], a [{] without a fragment before it and a comment
    add none. *)
Theorem one_range_per_opening_match (P : CSSRangeParser) :
  length (parse P)
  = length (filter (opens (getText (document P)))
              (execAll blockRE (getText (document P)))).
Proof. apply parse_length. Qed.

Lemma wfMatches_In text ms L mt :
  wfMatches text L ms -> In mt ms -> exists L', wfBlockMatch text L' mt.
Proof.
  intros W H. apply In_nth_error in H. destruct H as (n & H).
  destruct (wfMatches_nth _ _ _ _ _ W H) as (L' & _ & W'). eauto.
Qed.

Lemma oneOf_In l c : In c l -> oneOf l c = true.
Proof.
  intros H. unfold oneOf. apply existsb_exists. exists c.
  split; [assumption | apply N.eqb_refl].
Qed.

(** X4.  A text without [{], the empty text among them, has no
    range. *)
Theorem no_brace_no_range (P : CSSRangeParser) :
  oneOf (getText (document P)) (ch "{") = false -> parse P = [].
Proof.
  intros Hn. apply length_zero_iff_nil. rewrite parse_length.
  apply length_zero_iff_nil.
  destruct (filter _ _) as [ | mt l] eqn:E; [reflexivity | exfalso].
  assert (Hin : In mt (filter (opens (getText (document P)))
                         (execAll blockRE (getText (document P)))))
    by (rewrite E; now left).
  apply filter_In in Hin. destruct Hin as [Hin Ho].
  destruct (wfMatches_In _ _ _ _ (execAll_wf _) Hin) as (L' & W).
  apply wf_groups in W. unfold opens in Ho.
  destruct W as [[_ G2] | (a & b & c & _ & _ & G2 & N & _)];
    rewrite G2 in Ho; [discriminate | ].
  rewrite isChar_Some in Ho. apply andb_prop in Ho. destruct Ho as [Ho _].
  apply N.eqb_eq in Ho. subst c.
  apply nth_error_In in N. apply oneOf_In in N. congruence.
Qed.

(** An instance for X4: declarations and a stray [}]. *)
Lemma no_brace_no_range_witness :
  parse (newParser (mkTextDocument (str "color: red; } /* x */") (str "scss")))
  = [].
Proof. apply no_brace_no_range. reflexivity. Defined.

Lemma stateAt_invariant P (J : Scan -> Prop) n :
  (forall L st mt, wfBlockMatch (getText (document P)) L mt ->
                   Inv P (getText (document P)) L st -> J st ->
                   J (step P (getText (document P)) st mt)) ->
  J initScan ->
  exists L, Inv P (getText (document P)) L (stateAt P n) /\ J (stateAt P n).
Proof.
  intros Hstep H0. unfold stateAt.
  apply (fold_invariant P (getText (document P)) J Hstep) with (L := 0).
  - apply wfMatches_firstn, execAll_wf.
  - apply Inv_initScan.
  - exact H0.
Qed.

(** ** Names in a dialect without nesting *)

Lemma namesOfMatches_full_raw ig sel ms :
  Forall (fun n => full n = raw n) (namesOfMatches ig sel ms).
Proof.
  induction ms as [ | mt ms IH]; simpl; [constructor | ].
  destruct (match group sel mt 1 with Some g => trim g | None => [] end);
    [assumption | ].
  constructor; [reflexivity | assumption].
Qed.

Lemma parseToNames_full_raw P ig sel :
  Forall (fun n => full n = raw n) (parseToNames P ig sel).
Proof.
  unfold parseToNames.
  destruct (matchStr commandRE sel) as [mt | ];
    [ | apply namesOfMatches_full_raw].
  destruct (str_eqb (languageId P) (str "scss")
            && str_eqb (matched sel mt) (str "@at-root"))%bool.
  - constructor; [reflexivity | apply namesOfMatches_full_raw].
  - constructor; [reflexivity | constructor].
Qed.

Lemma openBlock_flat_names P st li sel :
  supportsNesting P = false ->
  exists leaf,
    ranges (openBlock P st li sel) = ranges st ++ [leaf]
    /\ names leaf
       = parseToNames P (ignoreDeep (openBlock P st li sel))
           (normalizeSelector sel).
Proof.
  intros N. unfold openBlock, newLeafRange.
  cbn [ranges stack current ignoreDeep]. rewrite N. cbn [andb].
  eexists. split; reflexivity.
Qed.

Lemma flat_names_step P text L st mt :
  supportsNesting P = false ->
  wfBlockMatch text L mt ->
  (forall i r, nth_error (ranges st) i = Some r ->
     Forall (fun n => full n = raw n) (names r)) ->
  forall i r, nth_error (ranges (step P text st mt)) i = Some r ->
  Forall (fun n => full n = raw n) (names r).
Proof.
  intros N W HJ.
  destruct (step_cases P text st mt L W)
    as (L1 & L2 & [-> | [(a & b & -> & _) | [-> _]]]).
  - exact HJ.
  - destruct (openBlock_flat_names P st (S b) (substring text a b) N)
      as (leaf & -> & En).
    intros i r H. apply nth_error_snoc in H. destruct H as [H | [_ ->]].
    + eapply HJ; eassumption.
    + rewrite En. apply parseToNames_full_raw.
  - rewrite closeBlock_ranges. destruct (current st) as [c | ]; [ | exact HJ].
    intros i r H. apply setEnd_nth in H.
    destruct H as (r0 & H0 & -> & _). eapply HJ; eassumption.
Qed.

(** X5.  In a dialect without nesting the full name of every name of
    every range is its raw name: nothing is combined with a parent. *)
Theorem flat_full_name_is_raw (P : CSSRangeParser) (i : nat) (r : LeafRange) :
  supportsNesting P = false ->
  nth_error (ranges (scan P)) i = Some r ->
  Forall (fun n => full n = raw n) (names r).
Proof.
  intros N H.
  destruct (final_invariant P
              (fun st => forall i r, nth_error (ranges st) i = Some r ->
                                     Forall (fun n => full n = raw n) (names r)))
    as (L & st & Es & _ & HJ).
  - intros L st mt W _. now apply flat_names_step with (L := L).
  - intros [ | k] r0 H0; discriminate H0.
  - rewrite Es in H.
    destruct (extends_nth _ _ i r (extends_refl _) H) as (r' & _ & _).
    unfold closeAtEnd in H.
    destruct (current st) as [c | ]; [ | eapply HJ; eassumption].
    destruct (nth_error (ranges st) c) as [rc | ]; [ | eapply HJ; eassumption].
    destruct (Z.eqb (end_ rc) 0); [ | eapply HJ; eassumption].
    cbn [ranges] in H. apply setEnd_nth in H.
    destruct H as (r0 & H0 & -> & _). eapply HJ; eassumption.
Qed.

(** An instance for X5: the inner rule of [.a { &.b { } }] in plain CSS
    keeps the name [&.b]. *)
Lemma flat_full_name_is_raw_witness :
  Forall (fun n => full n = raw n) [mkLeafName (str "&.b") (str "&.b") true].
Proof.
  apply (flat_full_name_is_raw
           (newParser (mkTextDocument (str ".a { &.b { } }") (str "css"))) 1
           (mkLeafRange [mkLeafName (str "&.b") (str "&.b") true] 6 14 (Some 0)));
    reflexivity.
Defined.

(** ** The blocks left open in a nesting dialect *)

Lemma chain_length_step P text L st mt :
  supportsNesting P = true ->
  wfBlockMatch text L mt -> Inv P text L st ->
  ignoreDeep st <= length (chainOf st) ->
  ignoreDeep (step P text st mt) <= length (chainOf (step P text st mt)).
Proof.
  intros N W (_ & IN & _) HJ. destruct (IN N) as [(E & _) _].
  destruct (step_cases P text st mt L W)
    as (L1 & L2 & [-> | [(a & b & -> & _) | [-> _]]]).
  - exact HJ.
  - rewrite (chainOf_open P st (S b) (substring text a b) (fun _ => E)), N.
    rewrite openBlock_ignoreDeep. simpl length.
    destruct (Nat.ltb 0 (ignoreDeep st) || _)%bool; lia.
  - destruct (closeBlock_nesting P st (lastIndex mt) N E) as (-> & _ & ->).
    destruct (chainOf st); simpl in *; lia.
Qed.

(** X6.  In a nesting dialect the deep-ignore counter never exceeds the
    number of open blocks; so with no active block it is 0, and a rule
    opened at the top level is ignored only if it is itself a
    [@keyframes] block. *)
Theorem counter_bounded_by_open_blocks (P : CSSRangeParser) (n : nat) :
  supportsNesting P = true ->
  ignoreDeep (stateAt P n) <= length (chainOf (stateAt P n))
  /\ (current (stateAt P n) = None -> ignoreDeep (stateAt P n) = 0).
Proof.
  intros N.
  destruct (stateAt_invariant P
              (fun st => ignoreDeep st <= length (chainOf st)) n)
    as (L & (_ & IN & _) & HJ).
  - intros L st mt W I. now apply chain_length_step with (L := L).
  - simpl. lia.
  - split; [exact HJ | ]. intros Hc.
    destruct (IN N) as [(E & _) _]. unfold chainOf in HJ.
    rewrite Hc, (E Hc) in HJ. simpl in HJ. lia.
Qed.

(** An instance for X6: after [@keyframes k { from { } }] in SCSS. *)
Lemma counter_bounded_by_open_blocks_witness :
  let P := newParser (mkTextDocument
             (str "@keyframes k { from { } } .a {") (str "scss")) in
  ignoreDeep (stateAt P 4) <= length (chainOf (stateAt P 4))
  /\ (current (stateAt P 4) = None -> ignoreDeep (stateAt P 4) = 0).
Proof.
  intros P. apply (counter_bounded_by_open_blocks P 4). reflexivity.
Defined.

(** X7.  In a nesting dialect the ranges that leave [parse] with end 0
    are exactly the blocks still on the stack when the text ends; every
    other range has its end after its start. *)
Theorem unclosed_ranges_are_the_stack (P : CSSRangeParser) (i : nat)
    (r : LeafRange) :
  supportsNesting P = true ->
  nth_error (ranges (scan P)) i = Some r ->
  (end_ r = 0%Z <-> In i (stack (scan P)))
  /\ (~ In i (stack (scan P)) -> (start r < end_ r)%Z).
Proof.
  intros N H.
  assert (Main : end_ r = 0%Z <-> In i (stack (scan P))).
  { destruct (final_invariant P InvOrder)
      as (L & st & Es & (IP & IN & _) & (Nn & _)).
    { intros ? ? ?. apply InvOrder_step. }
    { split; [intros [ | k] ? Hk | intros [ | k] ? ? ? _ Hk]; discriminate Hk. }
    destruct (IN N) as [(E & D & _ & O & _) _].
    pose proof IP as (B & R & _ & C).
    rewrite Es in *. clear Es. unfold closeAtEnd in *.
    destruct (current st) as [c | ] eqn:Ec.
    - assert (Hch : chainOf st = c :: stack st)
        by (unfold chainOf; now rewrite Ec).
      rewrite Hch in *. destruct D as [D1 D2].
      destruct (nth_error (ranges st) c) as [rc | ] eqn:Hc;
        [ | apply nth_error_None in Hc; lia].
      assert (Z0 : end_ rc = 0%Z) by (apply (O c rc Hc); now left).
      rewrite Z0 in H |- *. cbn [Z.eqb ranges stack] in H |- *.
      apply setEnd_nth in H. destruct H as (r0 & H0 & _ & _ & _ & He).
      rewrite He. destruct (Nat.eqb i c) eqn:Eic.
      + apply Nat.eqb_eq in Eic. subst i.
        destruct (R c rc Hc) as (R1 & _). specialize (Nn c rc Hc).
        split; [lia | ].
        intros Hin. pose proof (descending_In _ _ _ D2 Hin). lia.
      + apply Nat.eqb_neq in Eic. rewrite (O i r0 H0). simpl.
        split; [intros [Hx | Hx]; [congruence | assumption] | auto].
    - assert (Hch : chainOf st = stack st) by (unfold chainOf; now rewrite Ec).
      rewrite Hch in O. apply O. exact H. }
  split; [exact Main | ]. intros Hn.
  destruct (Inv_final P) as (L & st & Es & IP & _).
  pose proof (InvPos_closeAtEnd _ _ _ IP) as (_ & R & _).
  rewrite <- Es in R. destruct (R i r H) as (_ & _ & R3).
  apply R3. intros Z0. apply Hn. now apply Main.
Qed.

(** An instance for X7: the inner block of [.a { .b { ] in SCSS, which
    is the active one when the text ends. *)
Lemma unclosed_ranges_are_the_stack_witness :
  let P := newParser (mkTextDocument (str ".a { .b { ") (str "scss")) in
  (10%Z = 0%Z <-> In 1 (stack (scan P)))
  /\ (~ In 1 (stack (scan P)) -> (6 < 10)%Z).
Proof.
  intros P.
  apply (unclosed_ranges_are_the_stack P 1
           (mkLeafRange [mkLeafName (str ".b") (str ".a .b") true] 6 10 (Some 0)));
    reflexivity.
Defined.

(** ** Nesting resolution, name by name *)

Lemma m_referenceRE p pv t :
  m referenceRE Some (mkMState p pv t [])
  = if (Nat.eqb p 0
        || match pv with Some c => isCombinator c | None => false end)%bool
    then match t with
         | c :: t' => if N.eqb (ch "&") c
                      then Some (mkMState (S p) (Some c) t' [])
                      else None
         | [] => None
         end
    else None.
Proof. reflexivity. Qed.

Lemma search_referenceRE :
  forall t p pv,
  (p = 0 <-> pv = None) ->
  search referenceRE p pv t
  = option_map (fun k => mkMatch (p + k) (S (p + k)) []) (findReference pv t).
Proof.
  induction t as [ | c t IH]; intros p pv Hp.
  - cbn [search]. rewrite m_referenceRE.
    destruct (_ || _)%bool; reflexivity.
  - assert (Hb : (Nat.eqb p 0
                  || match pv with Some x => isCombinator x | None => false end)%bool
                 = atBoundary pv).
    { destruct pv as [x | ]; simpl.
      - destruct p; [ | reflexivity]. destruct Hp as [Hp _].
        discriminate (Hp eq_refl).
      - destruct Hp as [_ Hp]. now rewrite (Hp eq_refl). }
    cbn [search findReference]. rewrite m_referenceRE, Hb.
    destruct (N.eqb (ch "&") c) eqn:Ec; destruct (atBoundary pv) eqn:Eb;
      cbn [andb option_map pos caps];
      try (rewrite Nat.add_0_r; reflexivity);
      (rewrite IH by (split; intros; [lia | discriminate]);
       destruct (findReference (Some c) t) as [k | ]; cbn [option_map];
       [do 2 f_equal; [ | f_equal]; lia | reflexivity]).
Qed.

Lemma lastCu_None done : length done = 0 <-> lastCu done = None.
Proof.
  unfold lastCu. split.
  - destruct done; [reflexivity | discriminate].
  - intros H. destruct (rev done) as [ | x l] eqn:E; [ | discriminate].
    rewrite <- (length_rev done), E. reflexivity.
Qed.

Lemma exec_referenceRE done todo :
  exec referenceRE (done ++ todo) (length done)
  = option_map (fun k => mkMatch (length done + k) (S (length done + k)) [])
      (findReference (lastCu done) todo).
Proof.
  unfold exec.
  replace (Nat.ltb (length (done ++ todo)) (length done)) with false
    by (symmetry; apply Nat.ltb_ge; rewrite length_app; lia).
  rewrite skipn_app, skipn_all, Nat.sub_diag, firstn_app, firstn_all,
    Nat.sub_diag. cbn [skipn firstn app]. rewrite app_nil_r.
  apply search_referenceRE, lastCu_None.
Qed.

(** [re.test] on a fresh pattern tells whether the name has a
    reference, and leaves [lastIndex] at 0 when it has none. *)
Lemma test_referenceRE s :
  fst (testGlobal referenceRE s 0) = hasReference s
  /\ (hasReference s = false -> testGlobal referenceRE s 0 = (false, 0)).
Proof.
  unfold testGlobal, hasReference.
  pose proof (exec_referenceRE [] s) as E. cbn [app length lastCu rev] in E.
  rewrite E. destruct (findReference None s); cbn [option_map fst];
    split; auto; discriminate.
Qed.

Lemma findReference_split parent :
  forall t pv,
  match findReference pv t with
  | Some k =>
      exists pre rest',
        t = pre ++ ch "&" :: rest' /\ length pre = k
        /\ replaceReferences parent pv t
           = pre ++ parent ++ replaceReferences parent (Some (ch "&")) rest'
  | None => replaceReferences parent pv t = t
  end.
Proof.
  induction t as [ | c t IH]; intros pv; cbn [findReference replaceReferences];
    [reflexivity | ].
  destruct (N.eqb (ch "&") c && atBoundary pv)%bool eqn:Eb.
  - apply andb_prop in Eb. destruct Eb as [Ec _]. apply N.eqb_eq in Ec.
    subst c. exists [], t. repeat split; reflexivity.
  - specialize (IH (Some c)).
    destruct (findReference (Some c) t) as [k | ]; cbn [option_map].
    + destruct IH as (pre & rest' & -> & <- & Er).
      exists (c :: pre), rest'. rewrite Er. repeat split; reflexivity.
    + now rewrite IH.
Qed.

Lemma getSubstitution_plain whole before after :
  forall tpl, oneOf tpl (ch "$") = false ->
  getSubstitution whole before after tpl = tpl.
Proof.
  induction tpl as [ | c t IH]; intros H; [reflexivity | ].
  unfold oneOf in H. cbn [existsb] in H.
  apply orb_false_elim in H. destruct H as [Hc Ht].
  cbn [getSubstitution]. rewrite N.eqb_sym, Hc. f_equal. now apply IH.
Qed.

Lemma lastCu_snoc l x : lastCu (l ++ [x]) = Some x.
Proof. unfold lastCu. now rewrite rev_app_distr. Qed.

Lemma replaceLoop_referenceRE parent :
  oneOf parent (ch "$") = false ->
  forall fuel done todo,
  length todo < fuel ->
  replaceLoop fuel referenceRE (done ++ todo) parent (length done) (length done)
  = replaceReferences parent (lastCu done) todo.
Proof.
  intros Hd. induction fuel as [ | fuel IH]; intros done todo Lf; [lia | ].
  cbn [replaceLoop]. rewrite exec_referenceRE.
  pose proof (findReference_split parent todo (lastCu done)) as Sp.
  destruct (findReference (lastCu done) todo) as [k | ]; cbn [option_map].
  - destruct Sp as (pre & rest' & Et & Ek & Er). subst k.
    cbn [index lastIndex].
    replace (Nat.eqb (S (length done + length pre)) (length done + length pre))
      with false by (symmetry; apply Nat.eqb_neq; lia).
    rewrite (getSubstitution_plain _ _ _ parent Hd), Er, Et.
    rewrite (substring_mid done pre (ch "&" :: rest')).
    f_equal. f_equal.
    replace (done ++ pre ++ ch "&" :: rest')
      with ((done ++ pre ++ [ch "&"]) ++ rest')
      by (rewrite <- !app_assoc; reflexivity).
    replace (S (length done + length pre))
      with (length (done ++ pre ++ [ch "&"]))
      by (rewrite !length_app; simpl; lia).
    rewrite IH.
    + now rewrite !app_assoc, lastCu_snoc.
    + rewrite Et, length_app in Lf. simpl in Lf. lia.
  - rewrite skipn_app, skipn_all, Nat.sub_diag. cbn [skipn app]. now rewrite Sp.
Qed.

Lemma replaceAll_referenceRE parent s :
  oneOf parent (ch "$") = false ->
  replaceAll referenceRE s parent = replaceReferences parent None s.
Proof.
  intros Hd. unfold replaceAll.
  apply (replaceLoop_referenceRE parent Hd (S (S (length s))) [] s). lia.
Qed.

Lemma combineLoop_no_parents : forall ns li,
  combineLoop (Some []) li ns = flat_map (combineOne []) ns.
Proof.
  induction ns as [ | n ns IH]; intros li; [reflexivity | ].
  cbn [combineLoop flat_map]. unfold combineOne at 1.
  destruct (negb (isSelector n)); [now rewrite IH | ].
  destruct (testGlobal referenceRE (full n) li) as [found li'].
  destruct found; destruct (hasReference (full n)); cbn [map app]; apply IH.
Qed.

Lemma combineLoop_parents p pfs :
  forallb (fun q => negb (oneOf q (ch "$"))) (p :: pfs) = true ->
  forall ns,
  combineLoop (Some (p :: pfs)) 0 ns = flat_map (combineOne (p :: pfs)) ns.
Proof.
  intros Hd. induction ns as [ | n ns IH]; [reflexivity | ].
  cbn [combineLoop flat_map]. unfold combineOne at 1.
  destruct (negb (isSelector n)); [now rewrite IH | ].
  destruct (test_referenceRE (full n)) as [T1 T2].
  destruct (hasReference (full n)) eqn:Eh.
  - destruct (testGlobal referenceRE (full n) 0) as [found li'].
    cbn [fst] in T1. subst found. rewrite IH. f_equal.
    apply map_ext_in. intros q Hq. f_equal.
    apply replaceAll_referenceRE.
    rewrite forallb_forall in Hd. specialize (Hd q Hq).
    now apply negb_true_iff in Hd.
  - rewrite (T2 eq_refl). now rewrite IH.
Qed.

(** C5.  When nesting resolution runs (nesting dialect, deep-ignore
    counter 0), the parent it combines with is the nearest block, from
    the active one along the [parent] links, that has a selector among
    its names.  The parent names are the full names of the selectors of
    that block, and the child names are combined with exactly these:
    each child name by itself, a non-selector left as it is, a selector
    with a reference getting the parent name in its place, any other
    selector the parent name and a space in front (for parent names
    that hold [$] the replacement goes through the substitution
    patterns of [replace]).  When no block on the way has a selector,
    the child names are returned as they are. *)
Theorem closest_is_nearest_selector_ancestor (P : CSSRangeParser) (n : nat) :
  supportsNesting P = true -> ignoreDeep (stateAt P n) = 0 ->
  exists path,
    parentPath (ranges (stateAt P n)) (current (stateAt P n)) path
    /\ getClosestSelectorTypeFullNames (stateAt P n)
       = option_map selectorFullNames (find hasSelector path)
    /\ (find hasSelector path = None ->
        forall childNames,
          combineNestingNames (stateAt P n) childNames = childNames)
    /\ (forall p, find hasSelector path = Some p ->
        In p path /\ hasSelector p = true
        /\ selectorFullNames p <> []
        /\ (forall childNames,
              combineNestingNames (stateAt P n) childNames
              = combineLoop (Some (selectorFullNames p)) 0 childNames)
        /\ (forallb (fun q => negb (oneOf q (ch "$"))) (selectorFullNames p)
            = true ->
            forall childNames,
              combineNestingNames (stateAt P n) childNames
              = flat_map (combineOne (selectorFullNames p)) childNames)).
Proof.
  intros N Z0.
  destruct (Inv_stateAt P n) as (L & IP & IN & _).
  destruct (IN N) as [(E & D & Lk & _) G].
  unfold InvGood in G. rewrite Z0 in G. cbn [skipn] in G.
  destruct (closest_chain _ _ (length (ranges (stateAt P n))) Lk G)
    as (path & Pp & Ec).
  - now apply descending_length.
  - rewrite (hd_chainOf _ E) in Pp, Ec. exists path.
    split; [assumption | ].
    assert (Eg : getClosestSelectorTypeFullNames (stateAt P n)
                 = option_map selectorFullNames (find hasSelector path)).
    { unfold getClosestSelectorTypeFullNames. rewrite Ec.
      destruct (find hasSelector path); reflexivity. }
    split; [assumption | ]. split.
    + intros Hn childNames.
      unfold combineNestingNames. rewrite Eg, Hn. apply combineLoop_None.
    + intros p Hp. pose proof (find_some _ _ Hp) as [Hin Hs].
      split; [assumption | ]. split; [assumption | ].
      assert (Hne : selectorFullNames p <> []).
      { unfold hasSelector in Hs. apply existsb_exists in Hs.
        destruct Hs as (x & Hx & Sx). unfold selectorFullNames.
        assert (Hf : In x (filter isSelector (names p)))
          by (apply filter_In; auto).
        destruct (filter isSelector (names p)); [contradiction | discriminate]. }
      split; [assumption | ].
      assert (Ec' : forall childNames,
                combineNestingNames (stateAt P n) childNames
                = combineLoop (Some (selectorFullNames p)) 0 childNames).
      { intros childNames. unfold combineNestingNames.
        now rewrite Eg, Hp. }
      split; [assumption | ].
      intros Hd childNames. rewrite Ec'.
      destruct (selectorFullNames p) as [ | q pfs]; [contradiction | ].
      now apply combineLoop_parents.
Qed.

(** An instance for C5: in SCSS after [@media print {] and [.a {] of
    [@media print { .a { .b { } } }] the active block [.a] is the
    nearest one with a selector, and a child name is combined with its
    name. *)
Lemma closest_is_nearest_selector_ancestor_witness :
  let P := newParser (mkTextDocument
             (str "@media print { .a { .b { } } }") (str "scss")) in
  exists path,
    parentPath (ranges (stateAt P 2)) (current (stateAt P 2)) path
    /\ getClosestSelectorTypeFullNames (stateAt P 2)
       = option_map selectorFullNames (find hasSelector path)
    /\ (find hasSelector path = None ->
        forall childNames,
          combineNestingNames (stateAt P 2) childNames = childNames)
    /\ (forall p, find hasSelector path = Some p ->
        In p path /\ hasSelector p = true
        /\ selectorFullNames p <> []
        /\ (forall childNames,
              combineNestingNames (stateAt P 2) childNames
              = combineLoop (Some (selectorFullNames p)) 0 childNames)
        /\ (forallb (fun q => negb (oneOf q (ch "$"))) (selectorFullNames p)
            = true ->
            forall childNames,
              combineNestingNames (stateAt P 2) childNames
              = flat_map (combineOne (selectorFullNames p)) childNames)).
Proof.
  intros P. apply (closest_is_nearest_selector_ancestor P 2); reflexivity.
Defined.

(** X8.  Nesting resolution works name by name: when the parent names
    contain no [$], the result of [combineNestingNames] is, in order,
    what each child name becomes by itself: a non-selector stays, a
    selector with [&] at a combinator boundary gives a copy per parent
    name with every such [&] replaced by that name, any other selector
    a copy per parent name of the form parent, space, child.  The
    [lastIndex] of the shared pattern never carries over from one name
    to the next. *)
Theorem combine_name_by_name (st : Scan) (pfs : list jsstring)
    (oldNames : list LeafName) :
  getClosestSelectorTypeFullNames st = Some pfs ->
  forallb (fun q => negb (oneOf q (ch "$"))) pfs = true ->
  combineNestingNames st oldNames = flat_map (combineOne pfs) oldNames.
Proof.
  intros Hc Hd. unfold combineNestingNames. rewrite Hc.
  destruct pfs as [ | p pfs];
    [apply combineLoop_no_parents | now apply combineLoop_parents].
Qed.

(** An instance for X8: the children [&:hover, & > c, d e] under the
    parents [a] and [b]. *)
Lemma combine_name_by_name_witness :
  let st := mkScan [mkLeafRange [mkLeafName (str "a") (str "a") true;
                                 mkLeafName (str "b") (str "b") true]
                      1 0 None] [] (Some 0) 0 in
  let ns := [mkLeafName (str "&:hover") (str "&:hover") true;
             mkLeafName (str "& > c") (str "& > c") true;
             mkLeafName (str "d e") (str "d e") true] in
  combineNestingNames st ns = flat_map (combineOne [str "a"; str "b"]) ns.
Proof.
  intros st ns. apply (combine_name_by_name st [str "a"; str "b"] ns);
    reflexivity.
Defined.

(** X9.  Every name that nesting resolution produces has the raw text
    and the selector flag of one of the child names it was given. *)
Theorem combine_keeps_raw_and_flag (st : Scan) (oldNames : list LeafName) :
  Forall (fun n' => exists n, In n oldNames /\ raw n' = raw n
                              /\ isSelector n' = isSelector n)
    (combineNestingNames st oldNames).
Proof.
  unfold combineNestingNames.
  generalize (getClosestSelectorTypeFullNames st) as pf. generalize 0 as li.
  intros li pf. revert li.
  induction oldNames as [ | n ns IH]; intros li; [constructor | ].
  assert (Tl : forall li',
            Forall (fun n' => exists n0, In n0 (n :: ns) /\ raw n' = raw n0
                                         /\ isSelector n' = isSelector n0)
              (combineLoop pf li' ns)).
  { intros li'. specialize (IH li'). revert IH. apply Forall_impl.
    intros n' (n0 & H1 & H2). exists n0. split; [now right | assumption]. }
  assert (Hd : forall (f : jsstring -> jsstring) pfs,
            isSelector n = true ->
            Forall (fun n' => exists n0, In n0 (n :: ns) /\ raw n' = raw n0
                                         /\ isSelector n' = isSelector n0)
              (map (fun p => mkLeafName (raw n) (f p) true) pfs)).
  { intros f pfs Hs. apply Forall_forall. intros n' Hn.
    apply in_map_iff in Hn. destruct Hn as (p & <- & _).
    exists n. split; [now left | ]. split; [reflexivity | now rewrite Hs]. }
  cbn [combineLoop]. destruct (isSelector n) eqn:Es; cbn [negb].
  - destruct pf as [pfs | ].
    + destruct (testGlobal referenceRE (full n) li) as [found li'].
      destruct found; apply Forall_app; split;
        solve [apply Hd; reflexivity | apply Tl].
    + constructor; [ | apply Tl]. exists n. split; [now left | auto].
  - constructor; [ | apply Tl]. exists n. split; [now left | auto].
Qed.

(** ** The names of one fragment *)

(** A greedy loop over a class takes every code unit of the class
    there is when what follows succeeds after them. *)
Lemma greedy_class p k res :
  forall ws fuel s r,
  forallb p ws = true -> rest s = ws ++ r -> length ws <= fuel ->
  match r with [] => True | x :: _ => p x = false end ->
  k (consume ws s) = Some res ->
  starLoop (m (Char p)) true k fuel s = Some res.
Proof.
  induction ws as [ | w ws IH]; intros fuel s r F E Lf Hr K.
  - simpl in E, K. destruct fuel; cbn [starLoop]; [assumption | ].
    assert (Hn : m (Char p)
                   (fun s' => if Nat.eqb (pos s') (pos s) then None
                              else starLoop (m (Char p)) true k fuel s') s
                 = None).
    { cbn [m]. rewrite E. destruct r as [ | x r]; [reflexivity | ].
      now rewrite Hr. }
    rewrite Hn. exact K.
  - destruct fuel as [ | fuel]; [simpl in Lf; lia | ].
    simpl in F. apply andb_prop in F. destruct F as [Fw F]. simpl in E.
    cbn [starLoop]. rewrite (m_Char_step _ _ _ w _ E Fw).
    replace (Nat.eqb (pos (advance w (ws ++ r) s)) (pos s)) with false
      by (symmetry; apply Nat.eqb_neq; simpl; lia).
    rewrite (consume_cons _ _ _ _ E) in K.
    rewrite (IH fuel (advance w (ws ++ r) s) r F eq_refl); auto.
    simpl in Lf; lia.
Qed.

Lemma starLoop_greedy_total body fuel s :
  exists s', starLoop body true (@Some MState) fuel s = Some s'.
Proof.
  destruct fuel; cbn [starLoop]; [eauto | ].
  destruct (body _ s) as [s' | ]; cbn [orElse]; eauto.
Qed.

Lemma search_Bol_fail r :
  forall t p pv, 0 < p -> search (Seq Bol r) p pv t = None.
Proof.
  induction t as [ | c t IH]; intros p pv Hp; cbn [search m pos];
    (replace (Nat.eqb p 0) with false by (symmetry; apply Nat.eqb_neq; lia)).
  - reflexivity.
  - apply IH. lia.
Qed.

Lemma str_eqb_eq a : forall b, str_eqb a b = true -> a = b.
Proof.
  induction a as [ | x a IH]; intros [ | y b] H; simpl in H;
    try discriminate; [reflexivity | ].
  apply andb_prop in H. destruct H as [H1 H2].
  apply N.eqb_eq in H1. subst y. f_equal. now apply IH.
Qed.

Lemma str_eqb_refl a : str_eqb a a = true.
Proof. induction a; simpl; [reflexivity | now rewrite N.eqb_refl]. Qed.

(** A pattern anchored at the start matches at offset 0 or not at all. *)
Lemma exec_anchored r text mt :
  exec (Seq Bol r) text 0 = Some mt ->
  index mt = 0
  /\ exists s', m (Seq Bol r) Some (mkMState 0 None text []) = Some s'
                /\ lastIndex mt = pos s' /\ groups mt = caps s'.
Proof.
  unfold exec. cbn [Nat.ltb Nat.leb firstn skipn lastCu rev].
  intros H. destruct text as [ | c t]; cbn [search] in H.
  - destruct (m (Seq Bol r) Some (mkMState 0 None [] [])) as [s' | ] eqn:E;
      [ | discriminate].
    inv H. split; [reflexivity | ]. exists s'. auto.
  - destruct (m (Seq Bol r) Some (mkMState 0 None (c :: t) [])) as [s' | ] eqn:E.
    + inv H. split; [reflexivity | ]. exists s'. auto.
    + rewrite search_Bol_fail in H by lia. discriminate.
Qed.

Lemma matched_prefix text mt :
  index mt = 0 -> matched text mt = firstn (lastIndex mt) text.
Proof.
  intros E. unfold matched, substring. rewrite E, Nat.sub_0_r. reflexivity.
Qed.

Lemma firstn_startsWith a : forall k s, firstn k s = a -> startsWith a s = true.
Proof.
  induction a as [ | x a IH]; intros k s H; [reflexivity | ].
  destruct k as [ | k]; [discriminate | ]. destruct s as [ | y s]; [discriminate | ].
  simpl in H. inv H. simpl. rewrite N.eqb_refl. eapply IH. reflexivity.
Qed.

(** X10.  A fragment that begins with an at-keyword gives exactly one
    name, the whole normalised text, and it is no selector; commas do
    not split it.  Only [@at-root] in SCSS is treated otherwise. *)
Theorem at_rule_is_one_name (P : CSSRangeParser) (ig : nat) (w : cu)
    (more : jsstring) :
  isWordOrDash w = true ->
  (str_eqb (languageId P) (str "scss")
   && startsWith (str "@at-root") (ch "@" :: w :: more))%bool = false ->
  parseToNames P ig (ch "@" :: w :: more)
  = [mkLeafName (ch "@" :: w :: more) (ch "@" :: w :: more) false].
Proof.
  intros Hw Hn. unfold parseToNames, matchStr.
  destruct (starLoop_greedy_total (m (Char isWordOrDash))
              (S (length more)) (mkMState 2 (Some w) more [])) as (s' & Es).
  assert (Em : m commandRE Some (mkMState 0 None (ch "@" :: w :: more) [])
               = Some s').
  { unfold commandRE, Plus, lit. cbn [m pos rest Nat.eqb].
    rewrite N.eqb_refl. unfold advance at 1. cbn [rest pos caps]. rewrite Hw.
    exact Es. }
  assert (Ex : exec commandRE (ch "@" :: w :: more) 0
               = Some (mkMatch 0 (pos s') (caps s'))).
  { unfold exec. cbn [Nat.ltb Nat.leb length firstn skipn lastCu rev].
    now apply search_first. }
  rewrite Ex.
  destruct (str_eqb (languageId P) (str "scss")) eqn:El; [ | reflexivity].
  cbn [andb] in Hn |- *.
  destruct (str_eqb (matched (ch "@" :: w :: more)
                       (mkMatch 0 (pos s') (caps s'))) (str "@at-root"))
    eqn:Ea; [ | reflexivity].
  apply str_eqb_eq in Ea. rewrite matched_prefix in Ea by reflexivity.
  apply firstn_startsWith in Ea. congruence.
Qed.

(** An instance for X10: [@media a, b] in plain CSS. *)
Lemma at_rule_is_one_name_witness :
  parseToNames (newParser (mkTextDocument [] (str "css"))) 0
    (ch "@" :: ch "m" :: str "edia a, b")
  = [mkLeafName (ch "@" :: ch "m" :: str "edia a, b")
       (ch "@" :: ch "m" :: str "edia a, b") false].
Proof. apply at_rule_is_one_name; reflexivity. Defined.

Lemma trimLeft_head s x l : trimLeft s = x :: l -> isSpace x = false.
Proof.
  induction s as [ | c s IH]; simpl; [discriminate | ].
  destruct (isSpace c) eqn:E; [assumption | ].
  intros H. inv H. assumption.
Qed.

Lemma trimLeft_suffix s : exists pre, s = pre ++ trimLeft s.
Proof.
  induction s as [ | c s IH]; simpl; [now exists [] | ].
  destruct (isSpace c); [ | now exists []].
  destruct IH as (pre & E). exists (c :: pre). simpl. now f_equal.
Qed.

Lemma trim_trimmed g : trim g = [] \/ trimmed (trim g) = true.
Proof.
  unfold trim, trimRight.
  destruct (trimLeft (rev (trimLeft g))) as [ | y l] eqn:E; [now left | right].
  pose proof (trimLeft_head _ _ _ E) as Hy.
  destruct (trimLeft_suffix (rev (trimLeft g))) as (pre & Ep).
  rewrite E in Ep.
  remember (rev (y :: l)) as t eqn:Et.
  assert (Ht : rev t = y :: l) by (subst t; apply rev_involutive).
  unfold trimmed. destruct t as [ | x l']; [discriminate Ht | ].
  rewrite Ht.
  rewrite Hy. cbn [negb andb]. rewrite andb_true_r.
  apply (f_equal (@rev cu)) in Ep.
  rewrite rev_involutive, rev_app_distr, <- Et in Ep.
  now rewrite (trimLeft_head _ _ _ Ep).
Qed.

Lemma namesOfMatches_trimmed ig sel ms :
  Forall (fun n => trimmed (raw n) = true /\ full n = raw n
                   /\ isSelector n = Nat.eqb ig 0)
    (namesOfMatches ig sel ms).
Proof.
  induction ms as [ | mt ms IH]; simpl; [constructor | ].
  destruct (match group sel mt 1 with Some g => trim g | None => [] end)
    as [ | x l] eqn:E; [assumption | ].
  constructor; [ | assumption]. cbn [raw full isSelector].
  split; [ | split; reflexivity].
  destruct (group sel mt 1) as [g | ]; [ | discriminate].
  destruct (trim_trimmed g) as [H | H]; [congruence | now rewrite <- E].
Qed.

(** X11.  A fragment that does not begin with [@] gives selector names
    only: each is a piece of the fragment with the white space at its
    ends removed and is not empty, its full name is its raw name, and it
    counts as a selector exactly when the deep-ignore counter is 0. *)
Theorem selector_names_are_trimmed (P : CSSRangeParser) (ig : nat)
    (sel : jsstring) :
  startsWith (str "@") sel = false ->
  Forall (fun n => trimmed (raw n) = true /\ full n = raw n
                   /\ isSelector n = Nat.eqb ig 0)
    (parseToNames P ig sel).
Proof.
  intros Hs. unfold parseToNames, matchStr.
  destruct (exec commandRE sel 0) as [mt | ] eqn:E;
    [ | apply namesOfMatches_trimmed].
  exfalso. unfold commandRE in E. apply exec_anchored in E.
  destruct E as (_ & s' & Em & _). cbn [m pos Nat.eqb rest] in Em.
  destruct sel as [ | c t]; [discriminate | ].
  unfold lit in Em. cbn [m rest] in Em.
  change (str "@") with [ch "@"] in Hs. cbn [startsWith] in Hs.
  rewrite andb_true_r in Hs. rewrite Hs in Em. discriminate.
Qed.

(** An instance for X11: the names of [.a , .b:hover]. *)
Lemma selector_names_are_trimmed_witness :
  Forall (fun n => trimmed (raw n) = true /\ full n = raw n
                   /\ isSelector n = Nat.eqb 0 0)
    (parseToNames (newParser (mkTextDocument [] (str "css"))) 0
       (str ".a , .b:hover")).
Proof. apply selector_names_are_trimmed. reflexivity. Defined.

(** ** The main identifier *)

Lemma inv_Eol s s' : matches Eol s s' -> s' = s /\ rest s = [].
Proof. intros M; inv M; auto. Qed.

Lemma inv_Bol s s' : matches Bol s s' -> s' = s /\ pos s = 0.
Proof. intros M; inv M; auto. Qed.

Lemma inv_Empty s s' : matches Empty s s' -> s' = s.
Proof. intros M; inv M; auto. Qed.

Lemma matches_star_class g p s s' :
  matches (Star g (Char p)) s s' ->
  exists mid, rest s = mid ++ rest s' /\ pos s' = pos s + length mid
              /\ forallb p mid = true.
Proof.
  intros M. remember (Star g (Char p)) as r eqn:Er.
  induction M; try discriminate.
  - exists []. simpl. repeat split; auto; lia.
  - inv Er. apply inv_Char in M1. destruct M1 as (c & t & E & Hc & ->).
    destruct (IHM2 eq_refl) as (mid & E2 & P2 & F2).
    exists (c :: mid). simpl in *. rewrite E, E2, Hc, F2.
    repeat split; auto; lia.
Qed.

(** The rightmost descendant is an end piece of the selector. *)
Lemma getRightMostDescendant_suffix sel :
  exists pre, sel = pre ++ getRightMostDescendant sel.
Proof.
  unfold getRightMostDescendant, matchStr.
  destruct (exec descendantRE sel 0) as [mt | ] eqn:E;
    [ | exists sel; now rewrite app_nil_r].
  apply exec_sound in E.
  destruct E as (before & t' & pv' & s' & Et & Eb & _ & M & Ep & _).
  unfold descendantRE in M. apply inv_Seq in M. destruct M as (s1 & M1 & M2).
  apply inv_Eol in M2. destruct M2 as [-> R1].
  apply matches_span in M1. destruct M1 as (mid & Emid & Pmid).
  simpl in Emid, Pmid. rewrite R1, app_nil_r in Emid. subst t'.
  exists before. pose proof (substring_mid before mid []) as Hs.
  rewrite app_nil_r in Hs. unfold matched.
  rewrite <- Ep, Pmid, <- Eb, Et, Hs. reflexivity.
Qed.

Lemma word_not_prefix y : isWord y = true -> oneOf [ch "#"; ch "."] y = false.
Proof.
  intros H. unfold oneOf. cbn [existsb]. rewrite orb_false_r.
  destruct (N.eqb y (ch "#")) eqn:E1;
    [apply N.eqb_eq in E1; subst y; discriminate H | ].
  destruct (N.eqb y (ch ".")) eqn:E2;
    [apply N.eqb_eq in E2; subst y; discriminate H | ].
  reflexivity.
Qed.

(** What [rightMost.match(/^[#.]?\w[\w-]*/)] returns is a token at the
    start of the string. *)
Lemma mainRE_matched rm mt :
  matchStr mainRE rm = Some mt ->
  isIdentifier (matched rm mt) = true
  /\ exists post, rm = matched rm mt ++ post.
Proof.
  unfold matchStr. intros E. apply exec_sound in E.
  destruct E as (before & t' & pv' & s' & Et & Eb & _ & M & Ep & _).
  unfold mainRE, Opt in M.
  apply inv_Seq in M. destruct M as (s1 & M0 & M).
  apply inv_Bol in M0. destruct M0 as [-> P0]. simpl in P0.
  assert (before = []) by (destruct before; [reflexivity | simpl in Eb; lia]).
  subst before. simpl in Et. subst t'.
  apply inv_Seq in M. destruct M as (s2 & Mo & M).
  apply inv_Seq in M. destruct M as (s3 & Mw & Ms).
  apply inv_Char in Mw. destruct Mw as (y & t & Ey & Hy & ->).
  apply matches_star_class in Ms. destruct Ms as (w & Ew & Pw & Fw).
  simpl in Ew, Pw.
  assert (Hm : forall main post, rm = main ++ post ->
                 lastIndex mt = length main -> matched rm mt = main).
  { intros main post E1 E2. unfold matched, substring.
    rewrite P0, E2, Nat.sub_0_r. simpl. rewrite E1.
    now rewrite firstn_app, firstn_all, Nat.sub_diag, app_nil_r. }
  apply inv_Alt in Mo. destruct Mo as [Mo | Mo].
  - apply inv_Char in Mo. destruct Mo as (c & t0 & Ec & Hc & ->).
    simpl in Ec, Ey.
    assert (E1 : rm = (c :: y :: w) ++ rest s') by (rewrite Ec, Ey, Ew; reflexivity).
    rewrite (Hm (c :: y :: w) (rest s') E1) by (rewrite <- Ep, Pw, P0; simpl; lia).
    split; [ | now exists (rest s')].
    unfold isIdentifier. now rewrite Hc, Hy, Fw.
  - apply inv_Empty in Mo. subst s2. simpl in Ey.
    assert (E1 : rm = (y :: w) ++ rest s') by (rewrite Ey, Ew; reflexivity).
    rewrite (Hm (y :: w) (rest s') E1) by (rewrite <- Ep, Pw, P0; simpl; lia).
    split; [ | now exists (rest s')].
    unfold isIdentifier. now rewrite (word_not_prefix y Hy), Hy, Fw.
Qed.

Lemma getMainSelector_cases sel :
  getMainSelector sel = []
  \/ exists mt,
       matchStr mainRE (getRightMostDescendant sel) = Some mt
       /\ getMainSelector sel = matched (getRightMostDescendant sel) mt
       /\ (test tagRE (getMainSelector sel)
           && Nat.ltb (length (getRightMostDescendant sel)) (length sel))%bool
          = false.
Proof.
  unfold getMainSelector.
  destruct (getRightMostDescendant sel) as [ | x rm] eqn:Er; [now left | ].
  destruct (matchStr mainRE (x :: rm)) as [mt | ]; [ | now left].
  destruct (test tagRE (matched (x :: rm) mt)
            && Nat.ltb (length (x :: rm)) (length sel))%bool eqn:Et;
    [now left | ].
  right. exists mt. auto.
Qed.

Lemma getMainSelector_token sel :
  getMainSelector sel = []
  \/ (isIdentifier (getMainSelector sel) = true
      /\ exists pre post,
           getRightMostDescendant sel = getMainSelector sel ++ post
           /\ sel = pre ++ getMainSelector sel ++ post).
Proof.
  destruct (getMainSelector_cases sel) as [H | (mt & Hm & -> & _)];
    [now left | right].
  destruct (mainRE_matched _ _ Hm) as (Hi & post & Ep).
  split; [assumption | ].
  destruct (getRightMostDescendant_suffix sel) as (pre & Es).
  exists pre, post. split; [assumption | ]. now rewrite <- Ep.
Qed.

(** X12.  In every name of every range of the result, the main
    identifier is empty or a token of the form [.name], [#name] or
    [name] that occurs in the full name. *)
Theorem result_main_is_token_of_full (P : CSSRangeParser) (i : nat)
    (nr : NamedRange) (n : FullMainName) :
  nth_error (parse P) i = Some nr -> In n (nrNames nr) ->
  fmMain n = []
  \/ (isIdentifier (fmMain n) = true
      /\ exists pre post, fmFull n = pre ++ fmMain n ++ post).
Proof.
  intros Hi Hn. apply parse_nth in Hi. destruct Hi as (r & _ & _ & En).
  rewrite En in Hn. apply in_map_iff in Hn. destruct Hn as (ln & <- & _).
  unfold formatLeafNameToFullMainName.
  destruct (negb (isSelector ln)); [now left | ].
  destruct (negb (hasSingleReferenceInRightMostDescendant (raw ln)));
    [ | now left].
  cbn [fmMain fmFull].
  destruct (getMainSelector_token (full ln)) as [H | (H1 & pre & post & _ & H2)];
    [now left | right].
  split; [assumption | ]. now exists pre, post.
Qed.

(** An instance for X12: the name [.a .b] of the inner range of
    [.a { .b { } }] in SCSS. *)
Lemma result_main_is_token_of_full_witness :
  str ".b" = []
  \/ (isIdentifier (str ".b") = true
      /\ exists pre post, str ".a .b" = pre ++ str ".b" ++ post).
Proof.
  apply (result_main_is_token_of_full
           (newParser (mkTextDocument (str ".a { .b { } }") (str "scss"))) 1
           (mkNamedRange [mkFullMainName (str ".a .b") (str ".b")] (6, 11)%Z)
           (mkFullMainName (str ".a .b") (str ".b")));
    [reflexivity | now left].
Defined.

(** X13.  A main identifier without [.] or [#], a tag name, is given
    only when the rightmost descendant is the whole selector: a tag
    behind a combinator or white space has no main identifier. *)
Theorem tag_main_needs_whole_selector (sel : jsstring) (y : cu)
    (w : jsstring) :
  getMainSelector sel = y :: w -> isWord y = true ->
  getRightMostDescendant sel = sel.
Proof.
  intros Hm Hy.
  destruct (getMainSelector_cases sel) as [H | (mt & _ & _ & Ht)];
    [congruence | ].
  rewrite Hm in Ht.
  assert (Tt : test tagRE (y :: w) = true).
  { unfold test, exec. cbn [Nat.ltb Nat.leb length firstn skipn lastCu rev].
    rewrite (search_first tagRE 0 None (y :: w)
               (mkMState 1 (Some y) w [])); [reflexivity | ].
    unfold tagRE. cbn [m pos rest Nat.eqb]. now rewrite Hy. }
  rewrite Tt in Ht. cbn [andb] in Ht. apply Nat.ltb_ge in Ht.
  destruct (getRightMostDescendant_suffix sel) as (pre & Es).
  destruct pre as [ | x pre]; [now rewrite Es at 2 | ].
  apply (f_equal (@length cu)) in Es. rewrite length_app in Es.
  simpl in Es. lia.
Qed.

(** An instance for X13: [div:hover] has the main identifier [div]. *)
Lemma tag_main_needs_whole_selector_witness :
  getRightMostDescendant (str "div:hover") = str "div:hover".
Proof.
  apply (tag_main_needs_whole_selector (str "div:hover") (ch "d") (str "iv"));
    reflexivity.
Defined.

(** ** Comments *)

Lemma lazy_until_comment_end :
  forall body fuel s r,
  noCommentEnd body = true ->
  rest s = body ++ ch "*" :: ch "/" :: r -> length body <= fuel ->
  starLoop (m (Char anyChar)) false
    (m (lit "*") (m (lit "/") (@Some MState))) fuel s
  = Some (consume (body ++ [ch "*"; ch "/"]) s).
Proof.
  induction body as [ | c body IH]; intros fuel s r F E Lf.
  - cbn [app] in E.
    assert (Hk : m (lit "*") (m (lit "/") (@Some MState)) s
                 = Some (consume [ch "*"; ch "/"] s)).
    { unfold lit. rewrite (m_Char_step _ _ s _ _ E (N.eqb_refl _)).
      rewrite (m_Char_step _ _ (advance (ch "*") (ch "/" :: r) s) (ch "/") r
                 eq_refl (N.eqb_refl _)).
      cbn [consume]. rewrite E. reflexivity. }
    destruct fuel; cbn [starLoop app]; rewrite Hk; reflexivity.
  - destruct fuel as [ | fuel]; [simpl in Lf; lia | ].
    cbn [noCommentEnd] in F. apply andb_prop in F. destruct F as [Fc F].
    apply negb_true_iff in Fc. rewrite <- app_comm_cons in E.
    assert (Hk : m (lit "*") (m (lit "/") (@Some MState)) s = None).
    { unfold lit. destruct (N.eqb (ch "*") c) eqn:Ec.
      - rewrite (m_Char_step _ _ s _ _ E Ec).
        apply N.eqb_eq in Ec. subst c. rewrite N.eqb_refl in Fc.
        cbn [andb] in Fc.
        destruct body as [ | d body'].
        + now rewrite (m_Char_fail _ _
                         (advance (ch "*") ([] ++ ch "*" :: ch "/" :: r) s)
                         (ch "*") (ch "/" :: r) eq_refl).
        + rewrite (m_Char_fail _ _
                     (advance (ch "*")
                        ((d :: body') ++ ch "*" :: ch "/" :: r) s)
                     d (body' ++ ch "*" :: ch "/" :: r) eq_refl);
            [reflexivity | now rewrite N.eqb_sym].
      - now rewrite (m_Char_fail _ _ s _ _ E Ec). }
    cbn [starLoop]. rewrite Hk. cbn [orElse].
    rewrite (m_Char_step _ _ s c _ E eq_refl).
    replace (Nat.eqb (pos (advance c (body ++ ch "*" :: ch "/" :: r) s)) (pos s))
      with false by (symmetry; apply Nat.eqb_neq; simpl; lia).
    rewrite (IH fuel (advance c (body ++ ch "*" :: ch "/" :: r) s) r F eq_refl)
      by (simpl in Lf; lia).
    now rewrite <- app_comm_cons, (consume_cons _ _ _ _ E).
Qed.

Lemma step_comment P text st p q :
  step P text st (mkMatch p q []) = st.
Proof. reflexivity. Qed.

(** X14.  A block comment that stands where the block pattern is
    applied, after white space, is matched as a whole up to its first
    [*/] and without groups, and the round of the loop for it leaves the
    fields as they are: whatever it contains, braces among it, opens or
    closes nothing. *)
Theorem block_comment_is_skipped (before ws body after : jsstring) :
  forallb isSpace ws = true -> noCommentEnd body = true ->
  exec blockRE (before ++ ws ++ str "/*" ++ body ++ str "*/" ++ after)
    (length before)
  = Some (mkMatch (length before)
            (length before + length ws + length body + 4) [])
  /\ forall P st,
       step P (before ++ ws ++ str "/*" ++ body ++ str "*/" ++ after) st
         (mkMatch (length before)
            (length before + length ws + length body + 4) [])
       = st.
Proof.
  intros Fw Fb. split; [ | intros P st; apply step_comment].
  set (tail := str "/*" ++ body ++ str "*/" ++ after).
  set (text := before ++ ws ++ tail).
  set (s0 := mkMState (length before) (lastCu (firstn (length before) text))
               (ws ++ tail) []).
  destruct (consume_spec ws s0 tail eq_refl) as (R1 & P1 & C1).
  simpl in P1, C1.
  set (s1 := consume ws s0) in *.
  set (s3 := advance (ch "*") (body ++ str "*/" ++ after)
               (advance (ch "/") (ch "*" :: body ++ str "*/" ++ after) s1)).
  set (final := consume (body ++ [ch "*"; ch "/"]) s3).
  assert (E3 : rest s3 = (body ++ [ch "*"; ch "/"]) ++ after)
    by (rewrite <- app_assoc; reflexivity).
  destruct (consume_spec _ s3 after E3) as (Rf & Pf & Cf).
  fold final in Rf, Pf, Cf. simpl in Pf, Cf.
  assert (Hk : m (Alt lineCommentRE
                  (Alt blockCommentRE
                     (Seq (Group 1 fragmentRE) (Group 2 (Char isTerminator)))))
                 Some s1 = Some final).
  { assert (N1 : m lineCommentRE Some s1 = None).
    { unfold lineCommentRE, lit. cbn [m]. rewrite R1. reflexivity. }
    assert (N2 : m blockCommentRE Some s1 = Some final).
    { unfold blockCommentRE. cbn [m]. unfold lit at 1 2. cbn [m].
      rewrite R1. unfold tail. cbn [app str map list_ascii_of_string].
      cbn [N.eqb ch N_of_ascii]. 
      apply (lazy_until_comment_end body _ s3 after Fb eq_refl).
      cbn [rest advance]. rewrite !length_app. lia. }
    cbn [m]. rewrite N1. cbn [orElse]. rewrite N2. reflexivity. }
  assert (Hm : m blockRE Some s0 = Some final).
  { unfold blockRE. cbn [m].
    apply (greedy_spaces _ final ws _ s0 tail Fw eq_refl).
    - simpl. rewrite length_app. lia.
    - reflexivity.
    - exact Hk. }
  unfold exec. fold tail. fold text.
  replace (Nat.ltb (length text) (length before)) with false
    by (symmetry; apply Nat.ltb_ge; unfold text; rewrite length_app; lia).
  replace (skipn (length before) text) with (ws ++ tail)
    by (unfold text; now rewrite skipn_app, skipn_all, Nat.sub_diag).
  rewrite (search_first _ _ _ _ final Hm). do 2 f_equal.
  - rewrite Pf, length_app. unfold s3. cbn [pos advance]. rewrite P1.
    simpl. lia.
  - rewrite Cf. unfold s3. cbn [caps advance]. exact C1.
Qed.

(** An instance for X14: a comment that holds both braces. *)
Lemma block_comment_is_skipped_witness :
  exec blockRE (str " /* } { */.a { }") 0 = Some (mkMatch 0 10 [])
  /\ forall P st,
       step P (str " /* } { */.a { }") st (mkMatch 0 10 []) = st.
Proof.
  apply (block_comment_is_skipped [] (str " ") (str " } { ") (str ".a { }"));
    reflexivity.
Defined.

(** X15.  A line comment that stands where the block pattern is
    applied, after white space, is matched up to the end of its line
    and without groups, and the round of the loop for it leaves the
    fields as they are. *)
Theorem line_comment_is_skipped (before ws line after : jsstring) :
  forallb isSpace ws = true -> forallb dot line = true ->
  match after with [] => True | x :: _ => dot x = false end ->
  exec blockRE (before ++ ws ++ str "//" ++ line ++ after) (length before)
  = Some (mkMatch (length before)
            (length before + length ws + length line + 2) [])
  /\ forall P st,
       step P (before ++ ws ++ str "//" ++ line ++ after) st
         (mkMatch (length before)
            (length before + length ws + length line + 2) [])
       = st.
Proof.
  intros Fw Fl Ha. split; [ | intros P st; apply step_comment].
  set (tail := str "//" ++ line ++ after).
  set (text := before ++ ws ++ tail).
  set (s0 := mkMState (length before) (lastCu (firstn (length before) text))
               (ws ++ tail) []).
  destruct (consume_spec ws s0 tail eq_refl) as (R1 & P1 & C1).
  simpl in P1, C1.
  set (s1 := consume ws s0) in *.
  set (s3 := advance (ch "/") (line ++ after)
               (advance (ch "/") (ch "/" :: line ++ after) s1)).
  set (final := consume line s3).
  destruct (consume_spec line s3 after eq_refl) as (Rf & Pf & Cf).
  fold final in Rf, Pf, Cf. simpl in Pf, Cf.
  assert (Hk : m (Alt lineCommentRE
                  (Alt blockCommentRE
                     (Seq (Group 1 fragmentRE) (Group 2 (Char isTerminator)))))
                 Some s1 = Some final).
  { assert (N1 : m lineCommentRE Some s1 = Some final).
    { unfold lineCommentRE. cbn [m]. unfold lit at 1 2. cbn [m].
      rewrite R1. unfold tail. cbn [app str map list_ascii_of_string].
      cbn [N.eqb ch N_of_ascii].
      apply (greedy_class dot Some final line _ s3 after Fl eq_refl).
      - cbn [rest advance]. rewrite !length_app. lia.
      - exact Ha.
      - reflexivity. }
    cbn [m]. rewrite N1. reflexivity. }
  assert (Hm : m blockRE Some s0 = Some final).
  { unfold blockRE. cbn [m].
    apply (greedy_spaces _ final ws _ s0 tail Fw eq_refl).
    - simpl. rewrite length_app. lia.
    - reflexivity.
    - exact Hk. }
  unfold exec. fold tail. fold text.
  replace (Nat.ltb (length text) (length before)) with false
    by (symmetry; apply Nat.ltb_ge; unfold text; rewrite length_app; lia).
  replace (skipn (length before) text) with (ws ++ tail)
    by (unfold text; now rewrite skipn_app, skipn_all, Nat.sub_diag).
  rewrite (search_first _ _ _ _ final Hm). do 2 f_equal.
  - rewrite Pf. unfold s3. cbn [pos advance]. rewrite P1. simpl. lia.
  - rewrite Cf. unfold s3. cbn [caps advance]. exact C1.
Qed.

(** An instance for X15: a comment that holds a brace, ended by a line
    feed. *)
Lemma line_comment_is_skipped_witness :
  exec blockRE (str ".a { } // { " ++ [LF] ++ str ".b { }") 6
  = Some (mkMatch 6 12 [])
  /\ forall P st,
       step P (str ".a { } // { " ++ [LF] ++ str ".b { }") st
         (mkMatch 6 12 [])
       = st.
Proof.
  apply (line_comment_is_skipped (str ".a { }") (str " ") (str " { ")
           (LF :: str ".b { }"));
    reflexivity.
Defined.

(** ** White space in selectors *)

Lemma exec_app r done todo :
  exec r (done ++ todo) (length done)
  = search r (length done) (lastCu done) todo.
Proof.
  unfold exec.
  replace (Nat.ltb (length (done ++ todo)) (length done)) with false
    by (symmetry; apply Nat.ltb_ge; rewrite length_app; lia).
  rewrite skipn_app, skipn_all, Nat.sub_diag, firstn_app, firstn_all,
    Nat.sub_diag. cbn [skipn firstn app]. now rewrite app_nil_r.
Qed.

Lemma split_run (p : cu -> bool) (t : jsstring) :
  exists ws r, t = ws ++ r /\ forallb p ws = true
    /\ match r with [] => True | x :: _ => p x = false end.
Proof.
  induction t as [ | c t (ws & r & E & F & H)].
  - now exists [], [].
  - destruct (p c) eqn:Pc.
    + exists (c :: ws), r. subst t. cbn [forallb]. now rewrite Pc.
    + exists [], (c :: t). now repeat split.
Qed.

Lemma split_first_run (t : jsstring) :
  forallb (fun c => negb (isSpace c)) t = true
  \/ exists pre c ws r,
       t = pre ++ c :: ws ++ r
       /\ forallb (fun c => negb (isSpace c)) pre = true
       /\ isSpace c = true /\ forallb isSpace ws = true
       /\ match r with [] => True | x :: _ => isSpace x = false end.
Proof.
  induction t as [ | c t IH]; [now left | ].
  destruct (isSpace c) eqn:Pc.
  - right. destruct (split_run isSpace t) as (ws & r & E & F & H).
    exists [], c, ws, r. subst t. now repeat split.
  - destruct IH as [IH | (pre & d & ws & r & E & F & Pd & Fw & H)].
    + left. cbn [forallb]. now rewrite Pc, IH.
    + right. exists (c :: pre), d, ws, r. subst t.
      cbn [forallb]. rewrite Pc, F. now repeat split.
Qed.

Lemma search_spacesRE_none :
  forall t p pv,
  forallb (fun c => negb (isSpace c)) t = true ->
  search spacesRE p pv t = None.
Proof.
  induction t as [ | c t IH]; intros p pv F.
  - reflexivity.
  - cbn [forallb] in F. apply andb_prop in F. destruct F as [Fc F].
    apply negb_true_iff in Fc. cbn [search].
    unfold spacesRE at 1, Plus. cbn [m rest]. rewrite Fc.
    now apply IH.
Qed.

Lemma search_spacesRE_run :
  forall pre p pv c ws r,
  forallb (fun c => negb (isSpace c)) pre = true ->
  isSpace c = true -> forallb isSpace ws = true ->
  match r with [] => True | x :: _ => isSpace x = false end ->
  search spacesRE p pv (pre ++ c :: ws ++ r)
  = Some (mkMatch (p + length pre) (p + length pre + S (length ws)) []).
Proof.
  induction pre as [ | x pre IH]; intros p pv c ws r F Pc Fw Hr.
  - cbn [app length].
    set (s0 := mkMState p pv (c :: ws ++ r) []).
    set (s1 := advance c (ws ++ r) s0).
    destruct (consume_spec ws s1 r eq_refl) as (_ & P1 & C1).
    assert (Hm : m spacesRE Some s0 = Some (consume ws s1)).
    { unfold spacesRE, Plus. cbn [m]. unfold s0 at 1. cbn [rest].
      rewrite Pc. fold s1.
      apply (greedy_class isSpace Some (consume ws s1) ws _ s1 r Fw eq_refl);
        [ | exact Hr | reflexivity].
      unfold s1, s0. cbn [rest advance length]. rewrite length_app. lia. }
    rewrite (search_first _ _ _ _ _ Hm). rewrite P1, C1.
    unfold s1, s0. cbn [pos caps advance]. do 2 f_equal; lia.
  - cbn [forallb] in F. apply andb_prop in F. destruct F as [Fx F].
    apply negb_true_iff in Fx. cbn [app search].
    unfold spacesRE at 1, Plus. cbn [m rest]. rewrite Fx.
    rewrite (IH (S p) (Some x) c ws r F Pc Fw Hr). cbn [length].
    do 2 f_equal; lia.
Qed.

Lemma collapse_plain :
  forall t b, forallb (fun c => negb (isSpace c)) t = true ->
  collapseSpaces b t = t.
Proof.
  induction t as [ | c t IH]; intros b F; [reflexivity | ].
  cbn [forallb] in F. apply andb_prop in F. destruct F as [Fc F].
  apply negb_true_iff in Fc. cbn [collapseSpaces]. rewrite Fc.
  now rewrite IH.
Qed.

Lemma collapse_pre :
  forall pre t, forallb (fun c => negb (isSpace c)) pre = true ->
  collapseSpaces false (pre ++ t) = pre ++ collapseSpaces false t.
Proof.
  induction pre as [ | c pre IH]; intros t F; [reflexivity | ].
  cbn [forallb] in F. apply andb_prop in F. destruct F as [Fc F].
  apply negb_true_iff in Fc. cbn [app collapseSpaces]. rewrite Fc.
  now rewrite IH.
Qed.

Lemma collapse_run :
  forall ws r, forallb isSpace ws = true ->
  match r with [] => True | x :: _ => isSpace x = false end ->
  collapseSpaces true (ws ++ r) = collapseSpaces false r.
Proof.
  induction ws as [ | c ws IH]; intros r F Hr.
  - destruct r as [ | x r]; [reflexivity | ].
    cbn [app collapseSpaces]. now rewrite Hr.
  - cbn [forallb] in F. apply andb_prop in F. destruct F as [Fc F].
    cbn [app collapseSpaces]. rewrite Fc. now apply IH.
Qed.

Lemma replaceLoop_spacesRE :
  forall fuel done todo,
  length todo < fuel ->
  replaceLoop fuel spacesRE (done ++ todo) (str " ") (length done)
    (length done)
  = collapseSpaces false todo.
Proof.
  induction fuel as [ | fuel IH]; intros done todo Lf; [lia | ].
  cbn [replaceLoop]. rewrite exec_app.
  destruct (split_first_run todo)
    as [F | (pre & c & ws & r & E & F & Pc & Fw & Hr)].
  - rewrite (search_spacesRE_none _ _ _ F), (collapse_plain _ _ F).
    now rewrite skipn_app, skipn_all, Nat.sub_diag.
  - subst todo.
    rewrite (search_spacesRE_run pre _ _ c ws r F Pc Fw Hr).
    cbn [index lastIndex].
    replace (Nat.eqb (length done + length pre + S (length ws))
               (length done + length pre))
      with false by (symmetry; apply Nat.eqb_neq; lia).
    rewrite (substring_mid done pre (c :: ws ++ r)).
    rewrite getSubstitution_plain by reflexivity.
    replace (done ++ pre ++ c :: ws ++ r)
      with ((done ++ pre ++ c :: ws) ++ r)
      by (rewrite <- !app_assoc; reflexivity).
    replace (length done + length pre + S (length ws))
      with (length (done ++ pre ++ c :: ws))
      by (rewrite !length_app; cbn [length]; lia).
    rewrite IH
      by (rewrite !length_app in Lf; cbn [length] in Lf;
          rewrite length_app in Lf; lia).
    rewrite (collapse_pre pre _ F). cbn [collapseSpaces]. rewrite Pc.
    now rewrite (collapse_run ws r Fw Hr).
Qed.

(** X16.  The selector text a block is made from is the fragment
    without its white space at the end and with every remaining run of
    white space, whatever code units it is made of, replaced by one
    space. *)
Theorem normalize_collapses_white_space (selector : jsstring) :
  normalizeSelector selector = collapseSpaces false (trimRight selector).
Proof.
  unfold normalizeSelector, replaceAll.
  apply (replaceLoop_spacesRE _ [] (trimRight selector)). lia.
Qed.

(** ** Selector lists *)

Lemma lazy_class p c cont res :
  forall body fuel s r,
  forallb (fun y => p y && negb (N.eqb c y)) body = true ->
  rest s = body ++ c :: r -> length body <= fuel ->
  cont (consume (body ++ [c]) s) = Some res ->
  starLoop (m (Char p)) false (m (Char (N.eqb c)) cont) fuel s = Some res.
Proof.
  induction body as [ | y body IH]; intros fuel s r F E Lf K.
  - cbn [app] in E, K. cbn [consume] in K. rewrite E in K. cbn [tl] in K.
    assert (Hk : m (Char (N.eqb c)) cont s = Some res).
    { rewrite (m_Char_step _ _ _ c r E (N.eqb_refl c)). exact K. }
    destruct fuel; cbn [starLoop]; rewrite Hk; reflexivity.
  - destruct fuel as [ | fuel]; [simpl in Lf; lia | ].
    cbn [forallb] in F. apply andb_prop in F. destruct F as [Fy F].
    apply andb_prop in Fy. destruct Fy as [Fd Fc].
    apply negb_true_iff in Fc. rewrite <- app_comm_cons in E.
    cbn [starLoop]. rewrite (m_Char_fail _ _ _ y _ E Fc). cbn [orElse].
    rewrite (m_Char_step _ _ _ y _ E Fd).
    replace (Nat.eqb (pos (advance y (body ++ c :: r) s)) (pos s)) with false
      by (symmetry; apply Nat.eqb_neq; simpl; lia).
    apply (IH fuel (advance y (body ++ c :: r) s) r F eq_refl);
      [simpl in Lf; lia | ].
    rewrite <- app_comm_cons, (consume_cons _ _ _ _ E) in K. exact K.
Qed.

Lemma namesRE_steps :
  namesRE = Seq (Group 1 (Plus false nameStepRE)) (Alt (lit ",") Eol).
Proof. reflexivity. Qed.

Lemma endK_at p1 s tail :
  rest s = tail -> afterPart tail = true ->
  exists final,
    endK p1 s = Some final
    /\ pos final = pos s + match tail with [] => 0 | _ :: _ => 1 end
    /\ caps final = (1, (p1, pos s)) :: caps s.
Proof.
  intros E T. unfold endK, lit. cbn [m].
  change (rest (setCap 1 p1 s)) with (rest s). rewrite E.
  destruct tail as [ | x r].
  - cbn [orElse]. eexists. split; [reflexivity | ].
    cbn [pos caps setCap]. split; [lia | reflexivity].
  - cbn [afterPart] in T. rewrite T. cbn [orElse]. eexists.
    split; [reflexivity | ]. cbn [pos caps setCap advance].
    split; [lia | reflexivity].
Qed.

Lemma endK_fail p1 s x r :
  rest s = x :: r -> N.eqb (ch ",") x = false -> endK p1 s = None.
Proof.
  intros E T. unfold endK, lit. cbn [m].
  change (rest (setCap 1 p1 s)) with (rest s). now rewrite E, T.
Qed.

Lemma nameStep_plain cont s x r :
  noneOf [ch "["; ch "("] x = true ->
  rest s = x :: r ->
  m nameStepRE cont s = cont (advance x r s).
Proof.
  intros Np E.
  unfold nameStepRE, spanRE, lit. cbn [m]. rewrite E.
  destruct (N.eqb (ch "[") x) eqn:N1;
    [apply N.eqb_eq in N1; subst x; discriminate Np | ].
  destruct (N.eqb (ch "(") x) eqn:N2;
    [apply N.eqb_eq in N2; subst x; discriminate Np | ].
  reflexivity.
Qed.

Lemma nameStep_span cont res s o body c r :
  isBrackets o c = true ->
  forallb (fun y => negb (N.eqb c y)) body = true ->
  rest s = o :: body ++ c :: r ->
  cont (consume (o :: body ++ [c]) s) = Some res ->
  m nameStepRE cont s = Some res.
Proof.
  intros D F E K. rewrite (consume_cons _ _ _ _ E) in K.
  assert (Sp : forall oc cc,
            o = oc -> c = cc ->
            m (spanRE anyChar (Char (N.eqb oc)) (Char (N.eqb cc))) cont s
            = Some res).
  { intros oc cc -> ->. unfold spanRE. cbn [m].
    rewrite E, N.eqb_refl.
    apply (lazy_class anyChar cc cont res body _
             (advance oc (body ++ cc :: r) s) r F eq_refl);
      [ | exact K].
    cbn [rest advance]. rewrite length_app. lia. }
  unfold isBrackets in D. unfold nameStepRE.
  apply orb_prop in D. destruct D as [D | D];
    apply andb_prop in D; destruct D as [Do Dc];
    apply N.eqb_eq in Do; apply N.eqb_eq in Dc.
  - cbn [m]. unfold lit. rewrite (Sp _ _ Do Dc). reflexivity.
  - assert (N1 : m (spanRE anyChar (lit "[") (lit "]")) cont s = None).
    { unfold spanRE, lit. cbn [m]. rewrite E, Do. reflexivity. }
    cbn [m]. rewrite N1. cbn [orElse]. unfold lit.
    rewrite (Sp _ _ Do Dc). reflexivity.
Qed.

Lemma namePiece_first p l :
  namePieceOk p = true ->
  exists x r, pieceText p ++ l = x :: r /\ N.eqb (ch ",") x = false.
Proof.
  destruct p as [x | o body c]; cbn [namePieceOk pieceText]; intros H.
  - exists x, l. split; [reflexivity | ].
    unfold noneOf, oneOf in H. cbn [existsb] in H.
    apply negb_true_iff in H. apply orb_false_elim in H.
    destruct H as [H _]. now rewrite N.eqb_sym.
  - apply andb_prop in H. destruct H as [H _].
    exists o, ((body ++ [c]) ++ l). split; [reflexivity | ].
    unfold isBrackets in H.
    apply orb_prop in H; destruct H as [H | H];
      apply andb_prop in H; destruct H as [H _]; apply N.eqb_eq in H;
      subst o; reflexivity.
Qed.

Lemma piecesText_cons p ps :
  piecesText (p :: ps) = pieceText p ++ piecesText ps.
Proof. reflexivity. Qed.

(** One piece taken by one round of the group. *)
Lemma nameStep_piece cont res s p r :
  namePieceOk p = true -> rest s = pieceText p ++ r ->
  cont (consume (pieceText p) s) = Some res ->
  m nameStepRE cont s = Some res.
Proof.
  intros Fp E K. destruct p as [x | o body c].
  - cbn [namePieceOk] in Fp. cbn [pieceText app] in E.
    rewrite (nameStep_plain cont s x r); [ | | exact E].
    + cbn [pieceText consume] in K. rewrite E in K. exact K.
    + unfold noneOf, oneOf in Fp |- *. cbn [existsb] in Fp |- *.
      apply negb_true_iff in Fp. apply orb_false_elim in Fp.
      destruct Fp as [_ Fp]. now rewrite Fp.
  - cbn [namePieceOk] in Fp. apply andb_prop in Fp. destruct Fp as [Dl Fb].
    cbn [pieceText] in E, K.
    apply (nameStep_span cont res s o body c r Dl Fb); [ | exact K].
    rewrite E. cbn [app]. now rewrite <- app_assoc.
Qed.

Lemma pieceText_length p : 1 <= length (pieceText p).
Proof. destruct p; cbn [pieceText length]; lia. Qed.

(** The lazy loop of the group over the pieces of a member: every
    piece is taken in one round, and the first end tried with success
    is the one behind the last piece. *)
Lemma lazy_name_pieces p1 :
  forall ps fuel s tail,
  forallb namePieceOk ps = true ->
  rest s = piecesText ps ++ tail -> afterPart tail = true ->
  length ps <= fuel ->
  exists final,
    starLoop (m nameStepRE) false (endK p1) fuel s = Some final
    /\ pos final = pos s + length (piecesText ps)
                   + match tail with [] => 0 | _ :: _ => 1 end
    /\ caps final = (1, (p1, pos s + length (piecesText ps))) :: caps s.
Proof.
  induction ps as [ | p ps IH]; intros fuel s tail F E T Lf.
  - cbn [piecesText map concat app] in E.
    destruct (endK_at p1 s tail E T) as (final & Hk & Hp & Hc).
    exists final. cbn [piecesText map concat length].
    rewrite !Nat.add_0_r. split; [ | split; assumption].
    destruct fuel; cbn [starLoop]; rewrite Hk; reflexivity.
  - destruct fuel as [ | fuel]; [simpl in Lf; lia | ].
    cbn [forallb] in F. apply andb_prop in F. destruct F as [Fp F].
    rewrite piecesText_cons, <- app_assoc in E.
    destruct (namePiece_first p (piecesText ps ++ tail) Fp)
      as (x0 & r0 & E0 & T0).
    cbn [starLoop].
    rewrite (endK_fail p1 s x0 r0 (eq_trans E E0) T0). cbn [orElse].
    destruct (consume_spec (pieceText p) s _ E) as (R3 & P3 & C3).
    destruct (IH fuel (consume (pieceText p) s) tail F R3 T)
      as (final & Hs & Hp & Hc); [simpl in Lf; lia | ].
    exists final. split.
    + apply (nameStep_piece _ final s p (piecesText ps ++ tail) Fp E).
      replace (Nat.eqb (pos (consume (pieceText p) s)) (pos s))
        with false
        by (symmetry; apply Nat.eqb_neq; rewrite P3;
            pose proof (pieceText_length p); lia).
      exact Hs.
    + rewrite piecesText_cons, length_app. rewrite P3 in Hp, Hc.
      rewrite C3 in Hc. rewrite !Nat.add_assoc. split; assumption.
Qed.

Lemma pieces_count ps : length ps <= length (piecesText ps).
Proof.
  induction ps as [ | p ps IH]; [cbn; lia | ].
  rewrite piecesText_cons, length_app. pose proof (pieceText_length p).
  cbn [length]. lia.
Qed.

(** The match of [namesRE] at the start of a member. *)
Lemma exec_namesRE_part done ps tail :
  partOk ps = true -> afterPart tail = true ->
  exec namesRE (done ++ piecesText ps ++ tail) (length done)
  = Some (mkMatch (length done)
            (length done + length (piecesText ps)
             + match tail with [] => 0 | _ :: _ => 1 end)
            [(1, (length done, length done + length (piecesText ps)))]).
Proof.
  intros Fp T. destruct ps as [ | p ps]; [discriminate | ].
  cbn [partOk] in Fp.
  pose proof Fp as Fa. cbn [forallb] in Fa. apply andb_prop in Fa.
  destruct Fa as [F1 F].
  set (s0 := mkMState (length done) (lastCu done)
               (piecesText (p :: ps) ++ tail) []).
  assert (E : rest s0 = pieceText p ++ piecesText ps ++ tail).
  { unfold s0. cbn [rest]. now rewrite piecesText_cons, <- app_assoc. }
  destruct (consume_spec (pieceText p) s0 _ E) as (R3 & P3 & C3).
  destruct (lazy_name_pieces (length done) ps
              (S (length (rest (consume (pieceText p) s0))))
              (consume (pieceText p) s0) tail F R3 T)
    as (final & Hs & Hp & Hc).
  { rewrite R3, length_app. pose proof (pieces_count ps). lia. }
  assert (Hm : m namesRE Some s0 = Some final).
  { rewrite namesRE_steps. unfold Plus. cbn [m].
    apply (nameStep_piece _ final s0 p (piecesText ps ++ tail) F1 E).
    exact Hs. }
  rewrite exec_app. rewrite (search_first _ _ _ _ final Hm).
  rewrite Hp, Hc, P3, C3. unfold s0. cbn [pos caps].
  rewrite piecesText_cons, length_app. do 2 f_equal; [lia | ].
  do 3 f_equal. lia.
Qed.

Lemma exec_namesRE_end done :
  exec namesRE (done ++ []) (length done) = None.
Proof. rewrite exec_app. reflexivity. Qed.

Lemma partOk_length ps : partOk ps = true -> 1 <= length (piecesText ps).
Proof.
  destruct ps as [ | p ps]; [discriminate | ]. intros _.
  rewrite piecesText_cons, length_app. pose proof (pieceText_length p). lia.
Qed.

Lemma names_loop ig :
  forall parts done fuel,
  forallb partOk parts = true ->
  length (joinComma (map piecesText parts)) < fuel ->
  namesOfMatches ig (done ++ joinComma (map piecesText parts))
    (execLoop fuel namesRE (done ++ joinComma (map piecesText parts))
       (length done))
  = flat_map (nameOfPart ig) (map piecesText parts).
Proof.
  induction parts as [ | a l IH]; intros done fuel F Lf;
    (destruct fuel as [ | fuel]; [lia | ]).
  - cbn [map joinComma execLoop]. now rewrite exec_namesRE_end.
  - cbn [forallb] in F. apply andb_prop in F. destruct F as [Fa F].
    pose proof (partOk_length a Fa) as La.
    cbn [map flat_map] in Lf |- *.
    set (tail := match map piecesText l with
                 | [] => []
                 | _ :: _ => ch "," :: joinComma (map piecesText l)
                 end).
    assert (Ej : joinComma (piecesText a :: map piecesText l)
                 = piecesText a ++ tail).
    { unfold tail. cbn [joinComma].
      destruct (map piecesText l); [now rewrite app_nil_r | reflexivity]. }
    assert (T : afterPart tail = true).
    { unfold tail. destruct (map piecesText l); reflexivity. }
    rewrite Ej in Lf |- *. cbn [execLoop].
    rewrite (exec_namesRE_part done a tail Fa T).
    cbn [namesOfMatches lastIndex]. unfold group. cbn [groups getCap Nat.eqb].
    rewrite (substring_mid done (piecesText a) tail).
    assert (Rest :
      namesOfMatches ig (done ++ piecesText a ++ tail)
        (execLoop fuel namesRE (done ++ piecesText a ++ tail)
           (length done + length (piecesText a)
            + match tail with [] => 0 | _ :: _ => 1 end))
      = flat_map (nameOfPart ig) (map piecesText l)).
    { unfold tail in *. destruct l as [ | b l'].
      - cbn [map] in *. rewrite Nat.add_0_r.
        replace (done ++ piecesText a ++ [])
          with ((done ++ piecesText a) ++ joinComma (map piecesText []))
          by (cbn [map joinComma]; now rewrite <- app_assoc).
        replace (length done + length (piecesText a))
          with (length (done ++ piecesText a)) by (now rewrite length_app).
        apply (IH (done ++ piecesText a) fuel F).
        cbn [map joinComma length]. rewrite length_app in Lf. lia.
      - change (match map piecesText (b :: l') with
                | [] => []
                | _ :: _ => ch "," :: joinComma (map piecesText (b :: l'))
                end)
          with (ch "," :: joinComma (map piecesText (b :: l'))) in *.
        replace (done ++ piecesText a
                 ++ ch "," :: joinComma (map piecesText (b :: l')))
          with ((done ++ piecesText a ++ [ch ","])
                ++ joinComma (map piecesText (b :: l')))
          by (rewrite <- !app_assoc; reflexivity).
        replace (length done + length (piecesText a) + 1)
          with (length (done ++ piecesText a ++ [ch ","]))
          by (rewrite !length_app; cbn [length]; lia).
        apply (IH (done ++ piecesText a ++ [ch ","]) fuel F).
        rewrite length_app in Lf. cbn [length] in Lf. lia. }
    rewrite Rest. unfold nameOfPart.
    destruct (trim (piecesText a)); reflexivity.
Qed.

Lemma commandRE_none sel :
  startsWith (str "@") sel = false -> matchStr commandRE sel = None.
Proof.
  intros Hs. unfold matchStr.
  destruct (exec commandRE sel 0) as [mt | ] eqn:E; [ | reflexivity].
  exfalso. unfold commandRE in E. apply exec_anchored in E.
  destruct E as (_ & s' & Em & _). cbn [m pos Nat.eqb rest] in Em.
  destruct sel as [ | c t]; [discriminate | ].
  unfold lit in Em. cbn [m rest] in Em.
  change (str "@") with [ch "@"] in Hs. cbn [startsWith] in Hs.
  rewrite andb_true_r in Hs. rewrite Hs in Em. discriminate.
Qed.

(** X17.  A selector list is split at the commas that stand outside
    bracket spans, where a span runs from a [[] to the first []] after
    it, or from a [(] to the first [)] after it: brackets are not
    balanced.  When every member is made of ordinary code units (no
    comma, no [[], no [(]) and of such spans, the body of each without
    the bracket that closes it, the names are the members in order,
    each without the white space at its ends, and the members that are
    white space only are left out.  A comma in the body of such a span
    does not split. *)
Theorem names_split_at_outer_commas (P : CSSRangeParser) (ig : nat)
    (parts : list (list piece)) :
  forallb partOk parts = true ->
  startsWith (str "@") (joinComma (map piecesText parts)) = false ->
  parseToNames P ig (joinComma (map piecesText parts))
  = flat_map (nameOfPart ig) (map piecesText parts).
Proof.
  intros F Hs. unfold parseToNames. rewrite (commandRE_none _ Hs).
  unfold execAll.
  apply (names_loop ig parts [] _ F). lia.
Qed.

(** An instance for X17: [.a, .b[x,y]] has two names. *)
Lemma names_split_at_outer_commas_witness :
  parseToNames (newParser (mkTextDocument [] (str "css"))) 0
    (str ".a, .b[x,y]")
  = [mkLeafName (str ".a") (str ".a") true;
     mkLeafName (str ".b[x,y]") (str ".b[x,y]") true].
Proof.
  apply (names_split_at_outer_commas
           (newParser (mkTextDocument [] (str "css"))) 0
           [[Plain (ch "."); Plain (ch "a")];
            [Plain (ch " "); Plain (ch "."); Plain (ch "b");
             Span (ch "[") (str "x,y") (ch "]")]]);
    reflexivity.
Defined.

(** A span ends at the first closing bracket: in
    [.x:not(:is(.a, .b), .c), .d] the span is [(:is(.a, .b)], and the
    comma behind it splits although the parenthesis of [:not] is still
    open. *)
Remark names_brackets_not_balanced :
  map raw (parseToNames (newParser (mkTextDocument [] (str "css"))) 0
             (str ".x:not(:is(.a, .b), .c), .d"))
  = [str ".x:not(:is(.a, .b)"; str ".c)"; str ".d"].
Proof. vm_compute. reflexivity. Qed.

(** ** The rightmost descendant *)

Lemma descendantRE_steps :
  descendantRE = Seq (Plus false descendantStepRE) Eol.
Proof. reflexivity. Qed.

Lemma descendantStep_plain cont s x r :
  noneOf [ch "["; ch "("] x = true ->
  rest s = x :: r ->
  m descendantStepRE cont s
  = if negb (isCombinator x) then cont (advance x r s) else None.
Proof.
  intros Np E.
  unfold descendantStepRE, spanRE, lit. cbn [m]. rewrite E.
  destruct (N.eqb (ch "[") x) eqn:N1;
    [apply N.eqb_eq in N1; subst x; discriminate Np | ].
  destruct (N.eqb (ch "(") x) eqn:N2;
    [apply N.eqb_eq in N2; subst x; discriminate Np | ].
  reflexivity.
Qed.

Lemma noneOf_one c y :
  negb (N.eqb c y) = true ->
  (noneOf [c] y && negb (N.eqb c y))%bool = true.
Proof.
  intros H. rewrite H. unfold noneOf, oneOf. cbn [existsb].
  rewrite N.eqb_sym, orb_false_r, H. reflexivity.
Qed.

Lemma descendantStep_span cont res s o body c r :
  isBrackets o c = true ->
  forallb (fun y => negb (N.eqb c y)) body = true ->
  rest s = o :: body ++ c :: r ->
  cont (consume (o :: body ++ [c]) s) = Some res ->
  m descendantStepRE cont s = Some res.
Proof.
  intros D F E K. rewrite (consume_cons _ _ _ _ E) in K.
  assert (Sp : forall oc cc,
            o = oc -> c = cc ->
            m (spanRE (noneOf [cc]) (Char (N.eqb oc)) (Char (N.eqb cc))) cont s
            = Some res).
  { intros oc cc -> ->. unfold spanRE. cbn [m].
    rewrite E, N.eqb_refl.
    apply (lazy_class (noneOf [cc]) cc cont res body _
             (advance oc (body ++ cc :: r) s) r);
      [ | reflexivity | | exact K].
    - clear -F. induction body as [ | y body IH]; [reflexivity | ].
      cbn [forallb] in F |- *. apply andb_prop in F. destruct F as [Fy F].
      apply andb_true_intro. split; [now apply noneOf_one | now apply IH].
    - cbn [rest advance]. rewrite length_app. lia. }
  unfold isBrackets in D. unfold descendantStepRE.
  apply orb_prop in D. destruct D as [D | D];
    apply andb_prop in D; destruct D as [Do Dc];
    apply N.eqb_eq in Do; apply N.eqb_eq in Dc.
  - cbn [m]. unfold lit. rewrite (Sp _ _ Do Dc). reflexivity.
  - assert (N1 : m (spanRE (noneOf [ch "]"]) (lit "[") (lit "]")) cont s
                 = None).
    { unfold spanRE, lit. cbn [m]. rewrite E, Do. reflexivity. }
    cbn [m]. rewrite N1. cbn [orElse]. unfold lit.
    rewrite (Sp _ _ Do Dc). reflexivity.
Qed.

Lemma descendantStep_piece cont res s p r :
  descendantPieceOk p = true -> rest s = pieceText p ++ r ->
  cont (consume (pieceText p) s) = Some res ->
  m descendantStepRE cont s = Some res.
Proof.
  intros Fp E K. destruct p as [x | o body c].
  - cbn [descendantPieceOk] in Fp. apply andb_prop in Fp.
    destruct Fp as [Fc Fb]. cbn [pieceText app] in E.
    rewrite (descendantStep_plain cont s x r Fb E), Fc.
    cbn [pieceText consume] in K. rewrite E in K. exact K.
  - cbn [descendantPieceOk] in Fp. apply andb_prop in Fp.
    destruct Fp as [Dl Fb]. cbn [pieceText] in E, K.
    apply (descendantStep_span cont res s o body c r Dl Fb); [ | exact K].
    rewrite E. cbn [app]. now rewrite <- app_assoc.
Qed.

(** The lazy loop of the group over the pieces of a compound selector
    that ends the text. *)
Lemma lazy_descendant_pieces :
  forall ps fuel s,
  forallb descendantPieceOk ps = true ->
  rest s = piecesText ps -> length ps <= fuel ->
  starLoop (m descendantStepRE) false (m Eol Some) fuel s
  = Some (consume (piecesText ps) s).
Proof.
  induction ps as [ | p ps IH]; intros fuel s F E Lf.
  - cbn [piecesText map concat] in E |- *. cbn [consume].
    assert (Hk : m Eol Some s = Some s) by (cbn [m]; now rewrite E).
    destruct fuel; cbn [starLoop]; rewrite Hk; reflexivity.
  - destruct fuel as [ | fuel]; [simpl in Lf; lia | ].
    cbn [forallb] in F. apply andb_prop in F. destruct F as [Fp F].
    rewrite piecesText_cons in E.
    pose proof (pieceText_length p) as Lp.
    assert (Hk : m Eol Some s = None).
    { cbn [m]. rewrite E. destruct (pieceText p); [simpl in Lp; lia | ].
      reflexivity. }
    cbn [starLoop]. rewrite Hk. cbn [orElse].
    destruct (consume_spec (pieceText p) s _ E) as (R3 & P3 & C3).
    apply (descendantStep_piece _ _ s p (piecesText ps) Fp E).
    replace (Nat.eqb (pos (consume (pieceText p) s)) (pos s))
      with false by (symmetry; apply Nat.eqb_neq; rewrite P3; lia).
    rewrite (IH fuel (consume (pieceText p) s) F R3)
      by (simpl in Lf; lia).
    rewrite piecesText_cons. clear -E. revert s E.
    generalize (piecesText ps) as rst.
    induction (pieceText p) as [ | x l IHl]; intros rst s E; [reflexivity | ].
    cbn [app consume]. rewrite E. cbn [app tl].
    now rewrite (IHl rst (advance x (l ++ rst) s) eq_refl).
Qed.

Lemma lastCu_cons x y l : lastCu (x :: y :: l) = lastCu (y :: l).
Proof.
  unfold lastCu. cbn [rev]. destruct (rev l ++ [y]) eqn:E.
  - destruct (rev l); discriminate.
  - reflexivity.
Qed.

(** A stretch without opening brackets that ends with a combinator
    cannot be crossed. *)
Lemma descendant_blocked :
  forall l fuel s r c,
  forallb (noneOf [ch "["; ch "("]) l = true ->
  lastCu l = Some c -> isCombinator c = true ->
  rest s = l ++ r ->
  starLoop (m descendantStepRE) false (m Eol Some) fuel s = None.
Proof.
  induction l as [ | x l IH]; intros fuel s r c F Hl Hc E; [discriminate | ].
  cbn [forallb] in F. apply andb_prop in F. destruct F as [Fx F].
  rewrite <- app_comm_cons in E.
  assert (Hk : m Eol Some s = None) by (cbn [m]; now rewrite E).
  destruct fuel as [ | fuel]; cbn [starLoop]; [exact Hk | ].
  rewrite Hk. cbn [orElse].
  rewrite (descendantStep_plain _ s x _ Fx E).
  destruct (isCombinator x) eqn:Cx; [reflexivity | ]. cbn [negb].
  destruct (Nat.eqb _ _); [reflexivity | ].
  destruct l as [ | y l'].
  - unfold lastCu in Hl. cbn in Hl. congruence.
  - rewrite lastCu_cons in Hl.
    apply (IH fuel (advance x ((y :: l') ++ r) s) r c F Hl Hc eq_refl).
Qed.

Lemma descendantRE_blocked l s r c :
  forallb (noneOf [ch "["; ch "("]) l = true ->
  lastCu l = Some c -> isCombinator c = true ->
  rest s = l ++ r ->
  m descendantRE Some s = None.
Proof.
  intros F Hl Hc E. rewrite descendantRE_steps. unfold Plus. cbn [m].
  destruct l as [ | x l]; [discriminate | ].
  cbn [forallb] in F. apply andb_prop in F. destruct F as [Fx F].
  rewrite <- app_comm_cons in E.
  rewrite (descendantStep_plain _ s x _ Fx E).
  destruct (isCombinator x) eqn:Cx; [reflexivity | ]. cbn [negb].
  destruct l as [ | y l'].
  - unfold lastCu in Hl. cbn in Hl. congruence.
  - rewrite lastCu_cons in Hl.
    apply (descendant_blocked (y :: l') _
             (advance x ((y :: l') ++ r) s) r c F Hl Hc eq_refl).
Qed.

Lemma search_descendant_pre :
  forall pre p pv suf,
  forallb (noneOf [ch "["; ch "("]) pre = true ->
  endsWithCombinator pre = true ->
  exists pv', search descendantRE p pv (pre ++ suf)
              = search descendantRE (p + length pre) pv' suf.
Proof.
  induction pre as [ | x pre IH]; intros p pv suf F H.
  - exists pv. cbn [app length]. now rewrite Nat.add_0_r.
  - unfold endsWithCombinator in H.
    destruct (lastCu (x :: pre)) as [c | ] eqn:Hl;
      [ | unfold lastCu in Hl; cbn [rev] in Hl;
          destruct (rev pre); discriminate].
    rewrite <- app_comm_cons. cbn [search].
    rewrite (descendantRE_blocked (x :: pre)
               (mkMState p pv (x :: pre ++ suf) []) suf c F Hl H eq_refl).
    cbn [forallb] in F. apply andb_prop in F. destruct F as [_ F].
    destruct (IH (S p) (Some x) suf F) as (pv' & Es).
    + unfold endsWithCombinator. destruct pre as [ | y l]; [reflexivity | ].
      rewrite lastCu_cons in Hl. now rewrite Hl.
    + exists pv'. rewrite Es. cbn [length]. f_equal. lia.
Qed.

(** X18.  The rightmost descendant of a selector is what follows its
    last combinator outside bracket spans, where a span runs from a [[]
    to the first []] after it, or from a [(] to the first [)] after it:
    brackets are not balanced.  When what stands before has no opening
    bracket and is empty or ends with a combinator or white space, and
    what follows is made of code units that are no combinators and no
    opening brackets and of such spans, the body of each without the
    bracket that closes it, what follows is returned.  White space and
    combinators in the body of such a span do not separate. *)
Theorem rightmost_descendant_after_last_combinator (pre : jsstring)
    (ps : list piece) :
  forallb (noneOf [ch "["; ch "("]) pre = true ->
  endsWithCombinator pre = true ->
  forallb descendantPieceOk ps = true ->
  getRightMostDescendant (pre ++ piecesText ps) = piecesText ps.
Proof.
  intros F H Fp. unfold getRightMostDescendant, matchStr, exec.
  cbn [length Nat.ltb Nat.leb firstn skipn].
  destruct (search_descendant_pre pre 0 (lastCu []) (piecesText ps) F H)
    as (pv' & Es).
  rewrite Es. cbn [Nat.add].
  destruct ps as [ | p ps].
  - reflexivity.
  - cbn [forallb] in Fp. apply andb_prop in Fp. destruct Fp as [F1 F2].
    set (s0 := mkMState (length pre) pv' (piecesText (p :: ps)) []).
    assert (E : rest s0 = pieceText p ++ piecesText ps) by reflexivity.
    destruct (consume_spec (pieceText p) s0 _ E) as (R3 & P3 & C3).
    assert (E' : rest (consume (pieceText p) s0) = piecesText ps ++ [])
      by (now rewrite app_nil_r).
    destruct (consume_spec (piecesText ps) _ _ E') as (R4 & P4 & C4).
    assert (Hm : m descendantRE Some s0
                 = Some (consume (piecesText ps) (consume (pieceText p) s0))).
    { rewrite descendantRE_steps. unfold Plus. cbn [m].
      apply (descendantStep_piece _ _ s0 p (piecesText ps) F1 E).
      apply (lazy_descendant_pieces ps _ _ F2 R3).
      rewrite R3. pose proof (pieces_count ps). lia. }
    rewrite (search_first _ _ _ _ _ Hm). unfold matched.
    cbn [index lastIndex]. rewrite P4, P3. unfold s0. cbn [pos].
    pose proof (substring_mid pre (piecesText (p :: ps)) []) as Hs.
    rewrite app_nil_r, piecesText_cons, length_app, Nat.add_assoc in Hs.
    rewrite piecesText_cons. exact Hs.
Qed.

(** An instance for X18: behind the [>] of [.a > .b[x = y]:hover]. *)
Lemma rightmost_descendant_after_last_combinator_witness :
  getRightMostDescendant (str ".a > .b[x = y]:hover")
  = str ".b[x = y]:hover".
Proof.
  apply (rightmost_descendant_after_last_combinator (str ".a > ")
           [Plain (ch "."); Plain (ch "b");
            Span (ch "[") (str "x = y") (ch "]");
            Plain (ch ":"); Plain (ch "h"); Plain (ch "o"); Plain (ch "v");
            Plain (ch "e"); Plain (ch "r")]);
    reflexivity.
Defined.

(** A span ends at the first closing bracket: in [.a:not(:is(.b) .c)]
    the span is [(:is(.b)], and the space behind it separates although
    the parenthesis of [:not] is still open. *)
Remark descendant_brackets_not_balanced :
  getRightMostDescendant (str ".a:not(:is(.b) .c)") = str ".c)".
Proof. vm_compute. reflexivity. Qed.

(** ** [@at-root] *)

Lemma commandRE_at_root rest' :
  match rest' with [] => true | x :: _ => negb (isWordOrDash x) end = true ->
  matchStr commandRE (str "@at-root" ++ rest') = Some (mkMatch 0 8 []).
Proof.
  intros Hr. unfold matchStr, exec.
  cbn [length Nat.ltb Nat.leb firstn skipn lastCu rev].
  set (s2 := mkMState 2 (Some (ch "a")) (str "t-root" ++ rest') []).
  assert (Hm : m commandRE Some
                 (mkMState 0 None (str "@at-root" ++ rest') [])
               = Some (consume (str "t-root") s2)).
  { change (m commandRE Some (mkMState 0 None (str "@at-root" ++ rest') []))
      with (starLoop (m (Char isWordOrDash)) true Some
              (S (length (str "t-root" ++ rest'))) s2).
    apply (greedy_class isWordOrDash Some _ (str "t-root") _ s2 rest');
      [reflexivity | reflexivity | rewrite length_app; lia | | reflexivity].
    destruct rest' as [ | x r]; [exact I | ].
    now apply negb_true_iff in Hr. }
  rewrite (search_first _ _ _ _ _ Hm). reflexivity.
Qed.

(** X19.  In SCSS a fragment that begins with [@at-root], followed by
    something that does not continue the keyword, gives the name
    [@at-root], which is no selector, and then the names of the selector
    list that follows the keyword and its white space. *)
Theorem at_root_is_split_off (P : CSSRangeParser) (ig : nat)
    (rest' : jsstring) (parts : list (list piece)) :
  str_eqb (languageId P) (str "scss") = true ->
  match rest' with [] => true | x :: _ => negb (isWordOrDash x) end = true ->
  forallb partOk parts = true ->
  trimLeft rest' = joinComma (map piecesText parts) ->
  parseToNames P ig (str "@at-root" ++ rest')
  = mkLeafName (str "@at-root") (str "@at-root") false
    :: flat_map (nameOfPart ig) (map piecesText parts).
Proof.
  intros Hl Hr F Et. unfold parseToNames.
  rewrite (commandRE_at_root rest' Hr), Hl.
  change (matched (str "@at-root" ++ rest') (mkMatch 0 8 []))
    with (str "@at-root").
  change (str_eqb (str "@at-root") (str "@at-root")) with true.
  cbn [andb].
  change (skipn (length (str "@at-root")) (str "@at-root" ++ rest'))
    with rest'.
  rewrite Et. f_equal. unfold execAll.
  apply (names_loop ig parts [] _ F). lia.
Qed.

(** An instance for X19: [@at-root .a, .b]. *)
Lemma at_root_is_split_off_witness :
  parseToNames (newParser (mkTextDocument [] (str "scss"))) 0
    (str "@at-root .a, .b")
  = [mkLeafName (str "@at-root") (str "@at-root") false;
     mkLeafName (str ".a") (str ".a") true;
     mkLeafName (str ".b") (str ".b") true].
Proof.
  apply (at_root_is_split_off
           (newParser (mkTextDocument [] (str "scss"))) 0 (str " .a, .b")
           [[Plain (ch "."); Plain (ch "a")];
            [Plain (ch " "); Plain (ch "."); Plain (ch "b")]]);
    reflexivity.
Defined.

(** ** Blocks under [@keyframes] *)

(** X20.  A block opened in a round after which the deep-ignore counter
    is not 0, that is a block whose selector begins with [@keyframes]
    or that is opened while the counter is positive, has no main
    identifier in any of its names in the result. *)
Theorem ignored_block_has_no_main (P : CSSRangeParser) (n : nat)
    (mt : Match) (nr : NamedRange) :
  nth_error (execAll blockRE (getText (document P))) n = Some mt ->
  opens (getText (document P)) mt = true ->
  ignoreDeep (stateAt P (S n)) <> 0 ->
  nth_error (parse P) (length (ranges (stateAt P n))) = Some nr ->
  Forall (fun fm => fmMain fm = []) (nrNames nr).
Proof.
  intros Hm Ho Hi Hn.
  rewrite (stateAt_S P n mt Hm) in Hi.
  pose proof (stateAt_extends P (S n)) as Ex.
  rewrite (stateAt_S P n mt Hm) in Ex.
  unfold step in Hi, Ex. unfold opens in Ho. rewrite Ho in Hi, Ex.
  set (sel := match group (getText (document P)) mt 1 with
              | Some sel => sel
              | None => []
              end) in *.
  destruct (openBlock_last P (stateAt P n) (lastIndex mt) sel)
    as (leaf & Hl & _ & Hns).
  specialize (Hns Hi).
  destruct (extends_nth _ _ _ _ Ex Hl) as (r' & Hr' & Hc).
  destruct (parse_nth P _ nr Hn) as (r & Hr & _ & En).
  rewrite Hr in Hr'. inv Hr'.
  assert (Enames : names r' = names leaf).
  { unfold core in Hc. now inv Hc. }
  rewrite En, Enames. apply Forall_forall. intros fm Hfm.
  apply in_map_iff in Hfm. destruct Hfm as (ln & <- & Hin).
  rewrite forallb_forall in Hns. specialize (Hns ln Hin).
  unfold formatLeafNameToFullMainName. now rewrite Hns.
Qed.

(** An instance for X20: the block [from] of
    [@keyframes k { from { } }]. *)
Lemma ignored_block_has_no_main_witness :
  Forall (fun fm => fmMain fm = [])
    [mkFullMainName (str "from") []].
Proof.
  apply (ignored_block_has_no_main
           (newParser (mkTextDocument (str "@keyframes k { from { } }")
                         (str "css")))
           1 (mkMatch 14 21 [(2, (20, 21)); (1, (15, 20))])
           (mkNamedRange [mkFullMainName (str "from") []] (16, 25)%Z));
    [reflexivity | reflexivity | vm_compute; lia | reflexivity].
Defined.

(** ** The language of the document *)

Lemma step_fields P Q text st mt :
  supportsNesting P = supportsNesting Q -> languageId P = languageId Q ->
  step P text st mt = step Q text st mt.
Proof.
  intros Hs Hl.
  unfold step, openBlock, closeBlock, newLeafRange, parseToNames.
  now rewrite Hs, Hl.
Qed.

Lemma parse_fields P Q :
  supportsNesting P = supportsNesting Q -> languageId P = languageId Q ->
  getText (document P) = getText (document Q) ->
  parse P = parse Q.
Proof.
  intros Hs Hl Ht. unfold parse, scan, scanFrom. rewrite Ht.
  do 2 f_equal.
  generalize (execAll blockRE (getText (document Q))) as ms.
  generalize initScan as st.
  intros st ms. revert st.
  induction ms as [ | mt ms IH]; intros st; [reflexivity | ].
  cbn [fold_left]. rewrite (step_fields P Q _ st mt Hs Hl). apply IH.
Qed.

(** X21.  A document whose language is none of [css], [less] and
    [scss] is parsed as a CSS document with the same text. *)
Theorem unsupported_language_parses_as_css (doc : TextDocument) :
  existsb (str_eqb (docLanguageId doc)) supportedLanguages = false ->
  parse (newParser doc)
  = parse (newParser (mkTextDocument (getText doc) (str "css"))).
Proof.
  intros H. apply parse_fields; unfold newParser; rewrite H; reflexivity.
Qed.

(** An instance for X21: a [.a { .b { } }] of language [html] gives
    the ranges that CSS gives, the inner one ended by the last [}]. *)
Lemma unsupported_language_parses_as_css_witness :
  parse (newParser (mkTextDocument (str ".a { .b { } }") (str "html")))
  = parse (newParser (mkTextDocument (str ".a { .b { } }") (str "css"))).
Proof.
  apply (unsupported_language_parses_as_css
           (mkTextDocument (str ".a { .b { } }") (str "html"))).
  reflexivity.
Defined.

(** ** Every range has a name *)

Lemma orElse_Some {A} (a : option A) (b : unit -> option A) :
  b tt <> None -> orElse a b <> None.
Proof. destruct a; cbn [orElse]; [discriminate | auto]. Qed.

Lemma trimLeft_nonempty l :
  existsb (fun x => negb (isSpace x)) l = true -> trimLeft l <> [].
Proof.
  induction l as [ | c l IH]; [discriminate | ].
  cbn [existsb trimLeft]. destruct (isSpace c); [exact IH | discriminate].
Qed.

Lemma trimRight_head c t :
  isSpace c = false -> exists t', trimRight (c :: t) = c :: t'.
Proof.
  intros Hc. unfold trimRight.
  destruct (trimLeft_suffix (rev (c :: t))) as (pre & E).
  apply (f_equal (@rev cu)) in E.
  rewrite rev_involutive, rev_app_distr in E.
  assert (Hn : trimLeft (rev (c :: t)) <> []).
  { apply trimLeft_nonempty. cbn [rev]. rewrite existsb_app.
    cbn [existsb]. rewrite Hc. cbn [negb orb]. now rewrite orb_true_r. }
  destruct (rev (trimLeft (rev (c :: t)))) as [ | x l] eqn:Er.
  - apply (f_equal (@rev cu)) in Er. rewrite rev_involutive in Er.
    contradiction.
  - cbn [app] in E. inv E. now exists l.
Qed.

Lemma trim_head c t :
  isSpace c = false -> exists t', trim (c :: t) = c :: t'.
Proof.
  intros Hc. unfold trim. cbn [trimLeft]. rewrite Hc.
  now apply trimRight_head.
Qed.

Lemma normalizeSelector_head c t :
  isSpace c = false -> exists t', normalizeSelector (c :: t) = c :: t'.
Proof.
  intros Hc. destruct (trimRight_head c t Hc) as (t' & Et).
  unfold normalizeSelector, replaceAll. rewrite Et.
  rewrite (replaceLoop_spacesRE _ [] (c :: t')) by lia.
  cbn [collapseSpaces]. rewrite Hc. eauto.
Qed.

(** The lazy loop of [namesRE] always finds an end: every code unit
    can be taken by the last alternative of the group. *)
Lemma names_total p1 :
  forall fuel s, length (rest s) <= fuel ->
  starLoop (m nameStepRE) false (endK p1) fuel s <> None.
Proof.
  induction fuel as [ | fuel IH]; intros s Lf.
  - cbn [starLoop]. destruct (rest s) as [ | c t] eqn:E; [ | simpl in Lf; lia].
    destruct (endK_at p1 s [] E eq_refl) as (final & -> & _). discriminate.
  - cbn [starLoop]. destruct (rest s) as [ | c t] eqn:E.
    + destruct (endK_at p1 s [] E eq_refl) as (final & -> & _). discriminate.
    + apply orElse_Some. unfold nameStepRE. cbn [m].
      do 2 apply orElse_Some. rewrite E. cbn [anyChar].
      replace (Nat.eqb (pos (advance c t s)) (pos s)) with false
        by (symmetry; apply Nat.eqb_neq; simpl; lia).
      apply IH. cbn [rest advance]. simpl in Lf. lia.
Qed.

Lemma namesRE_group s s' :
  matches namesRE s s' ->
  exists e, caps s' = (1, (pos s, e)) :: caps s /\ pos s < e.
Proof.
  intros M. rewrite namesRE_steps in M. unfold Plus in M.
  apply inv_Seq in M. destruct M as (s1 & M1 & M2).
  pose proof (matches_caps _ _ _ M2 eq_refl) as C2.
  apply inv_Group in M1. destruct M1 as (s2 & M1 & ->).
  pose proof (matches_caps _ _ _ M1 eq_refl) as C1.
  apply inv_Seq in M1. destruct M1 as (s3 & Mb & Ms).
  apply matches_span in Ms. destruct Ms as (mid3 & _ & P3).
  assert (S (pos s) <= pos s3).
  { unfold nameStepRE, spanRE in Mb.
    apply inv_Alt in Mb. destruct Mb as [Mb | Mb];
      [ | apply inv_Alt in Mb; destruct Mb as [Mb | Mb]].
    - apply inv_Seq in Mb. destruct Mb as (s4 & Mo & Mr).
      apply inv_Char in Mo. destruct Mo as (c & t & _ & _ & ->).
      apply matches_span in Mr. destruct Mr as (mid & _ & P). simpl in P. lia.
    - apply inv_Seq in Mb. destruct Mb as (s4 & Mo & Mr).
      apply inv_Char in Mo. destruct Mo as (c & t & _ & _ & ->).
      apply matches_span in Mr. destruct Mr as (mid & _ & P). simpl in P. lia.
    - apply inv_Char in Mb. destruct Mb as (c & t & _ & _ & ->). simpl. lia. }
  exists (pos s2). rewrite C2. cbn [caps setCap]. rewrite C1.
  split; [reflexivity | lia].
Qed.

Lemma parseToNames_nonempty P ig c t :
  isSpace c = false -> parseToNames P ig (c :: t) <> [].
Proof.
  intros Hc. unfold parseToNames.
  destruct (matchStr commandRE (c :: t)) as [mt | ].
  - destruct (_ && _)%bool; discriminate.
  - unfold execAll. cbn [execLoop]. unfold exec.
    cbn [length Nat.ltb Nat.leb firstn skipn lastCu rev].
    set (s0 := mkMState 0 None (c :: t) []).
    destruct (m namesRE Some s0) as [s' | ] eqn:Em.
    + rewrite (search_first _ _ _ _ _ Em).
      apply m_sound in Em. destruct Em as (s'' & M & K). inv K.
      destruct (namesRE_group _ _ M) as (e & Ce & Pe).
      cbn [pos caps s0] in Ce, Pe.
      cbn [namesOfMatches]. unfold group. cbn [groups]. rewrite Ce.
      cbn [getCap Nat.eqb]. unfold substring. rewrite Nat.sub_0_r.
      cbn [skipn]. destruct e as [ | e]; [lia | ]. cbn [firstn].
      destruct (trim_head c (firstn e t) Hc) as (t' & ->). discriminate.
    + exfalso. revert Em. rewrite namesRE_steps. unfold Plus. cbn [m].
      unfold nameStepRE at 1. cbn [m]. do 2 apply orElse_Some.
      unfold s0 at 1. cbn [rest anyChar].
      apply (names_total 0). lia.
Qed.

Lemma combineLoop_nonempty pf :
  (pf = None \/ exists p pfs, pf = Some (p :: pfs)) ->
  forall ns li, ns <> [] -> combineLoop pf li ns <> [].
Proof.
  intros Hpf [ | n ns] li Hn; [contradiction | ]. cbn [combineLoop].
  destruct (negb (isSelector n)); [discriminate | ].
  destruct Hpf as [-> | (p & pfs & ->)]; [discriminate | ].
  destruct (testGlobal referenceRE (full n) li) as [found li'].
  destruct found; discriminate.
Qed.

(** The parent names that nesting resolution finds outside of a
    deep-ignore region are not an empty list. *)
Lemma closest_names_nonempty st :
  InvNest st -> InvGood st -> ignoreDeep st = 0 ->
  getClosestSelectorTypeFullNames st = None
  \/ exists p pfs, getClosestSelectorTypeFullNames st = Some (p :: pfs).
Proof.
  intros (E & D & Lk & _) G Z0.
  unfold InvGood in G. rewrite Z0 in G. cbn [skipn] in G.
  destruct (closest_chain _ _ (length (ranges st)) Lk G)
    as (path & Pp & Ec); [now apply descending_length | ].
  rewrite (hd_chainOf _ E) in Ec.
  unfold getClosestSelectorTypeFullNames. rewrite Ec.
  destruct (find hasSelector path) as [r | ] eqn:Ef; [right | now left].
  apply find_some in Ef. destruct Ef as [_ Hs].
  unfold hasSelector in Hs. apply existsb_exists in Hs.
  destruct Hs as (n & Hin & Hn).
  assert (Hf : In n (filter isSelector (names r)))
    by (apply filter_In; auto).
  destruct (filter isSelector (names r)) as [ | x l]; [contradiction | ].
  cbn [map]. eauto.
Qed.

(** The last alternative of the fragment group takes any code unit, so
    the lazy loop reaches a terminator when there is one. *)
Lemma fragment_total p1 :
  forall fuel s, existsb isTerminator (rest s) = true ->
  length (rest s) <= fuel ->
  starLoop (m fragmentStepRE) false (terminatorK p1) fuel s <> None.
Proof.
  induction fuel as [ | fuel IH]; intros s Ht Lf.
  - destruct (rest s); [discriminate | simpl in Lf; lia].
  - cbn [starLoop]. destruct (rest s) as [ | c t] eqn:E; [discriminate | ].
    cbn [existsb] in Ht. destruct (isTerminator c) eqn:Tc.
    + destruct (terminatorK_at p1 s c t E Tc) as (final & -> & _).
      discriminate.
    + cbn [orb] in Ht. apply orElse_Some. unfold fragmentStepRE. cbn [m].
      do 3 apply orElse_Some. rewrite E. cbn [anyChar].
      replace (Nat.eqb (pos (advance c t s)) (pos s)) with false
        by (symmetry; apply Nat.eqb_neq; simpl; lia).
      apply IH; cbn [rest advance]; [assumption | simpl in Lf; lia].
Qed.

Lemma isTerminator_not_space c : isTerminator c = true -> isSpace c = false.
Proof.
  intros H. apply terminator_codes in H.
  destruct H as [-> | [-> | ->]]; reflexivity.
Qed.

(** A non-empty group 1 of a match of [blockRE] begins with a code unit
    that is no white space: [\s*] has taken all of it. *)
Lemma group1_starts_nonspace text from mt a b :
  exec blockRE text from = Some mt ->
  getCap 1 (groups mt) = Some (a, b) -> a < b ->
  exists c, nth_error text a = Some c /\ isSpace c = false.
Proof.
  unfold exec. destruct (Nat.ltb (length text) from) eqn:L; [discriminate | ].
  intros H G Lab. apply search_sound in H.
  destruct H as (pre & t' & pv' & s' & Et & Ei & Em & Ep & Ec).
  set (s0 := mkMState (index mt) pv' t' []) in *.
  destruct (split_run isSpace t') as (ws & r & Er & Fw & Hr).
  destruct (consume_spec ws s0 r Er) as (R1 & P1 & C1).
  cbn [pos caps s0] in P1, C1.
  set (s1 := consume ws s0) in *.
  (* the fragment and the terminator, from the match found *)
  pose proof Em as Em'. apply m_sound in Em'.
  destruct Em' as (s'' & M & K). injection K as K. subst s''.
  apply blockRE_matches in M; [ | reflexivity].
  destruct M as [[C _] | (a' & b' & c & mid & C & Pa & Pb & Pe & T & Erest & Eb)];
    [rewrite <- Ec, C in G; discriminate | ].
  rewrite <- Ec, C in G. cbn [getCap Nat.eqb] in G.
  injection G as Ga Gb. subst a' b'.
  cbn [rest pos s0] in Erest, Pa.
  assert (Hterm : existsb isTerminator r = true).
  { assert (Hin : In c (ws ++ r))
      by (rewrite <- Er, Erest; apply in_or_app; right; now left).
    apply in_app_or in Hin. destruct Hin as [Hin | Hin].
    - rewrite forallb_forall in Fw. specialize (Fw c Hin).
      rewrite (isTerminator_not_space c T) in Fw. discriminate.
    - apply existsb_exists. eauto. }
  (* what follows the white space succeeds, so all of it is taken *)
  set (K := m (Alt lineCommentRE
                 (Alt blockCommentRE
                    (Seq (Group 1 fragmentRE) (Group 2 (Char isTerminator)))))
              Some).
  destruct (K s1) as [res | ] eqn:EK.
  - assert (Hm : m blockRE Some s0 = Some res).
    { unfold blockRE. cbn [m].
      apply (greedy_spaces _ res ws _ s0 r Fw Er); [ | exact Hr | exact EK].
      unfold s0. cbn [rest]. rewrite Er, length_app. lia. }
    rewrite Hm in Em. injection Em as Em. subst res.
    unfold K in EK. apply m_sound in EK. destruct EK as (s'' & M & K').
    injection K' as K'. subst s''.
    assert (Ha : a = pos s1).
    { apply inv_Alt in M. destruct M as [M | M];
        [ | apply inv_Alt in M; destruct M as [M | M]].
      - apply matches_caps in M; [ | reflexivity].
        rewrite C, C1 in M. discriminate.
      - apply matches_caps in M; [ | reflexivity].
        rewrite C, C1 in M. discriminate.
      - apply inv_Seq in M. destruct M as (s2 & M1 & M2).
        apply inv_Group in M1. destruct M1 as (s3 & Mfr & ->).
        apply inv_Group in M2. destruct M2 as (s4 & Mt & ->).
        apply inv_Char in Mt. destruct Mt as (c4 & t4 & _ & _ & ->).
        pose proof (matches_caps _ _ _ Mfr eq_refl) as C3.
        cbn [caps setCap advance pos] in C. rewrite C3, C1 in C.
        congruence. }
    rewrite P1 in Ha.
    (* the group is not empty, so it begins with the head of [r] *)
    unfold s0 in Eb. cbn [pos] in Eb.
    assert (Hmid : length ws < length mid) by lia.
    rewrite Er in Erest.
    assert (Hr' : exists x r', r = x :: r').
    { destruct r as [ | x r']; [ | eauto].
      rewrite app_nil_r in Erest. apply (f_equal (@length cu)) in Erest.
      rewrite length_app in Erest. cbn [length] in Erest. lia. }
    destruct Hr' as (x & r' & ->). exists x. split; [ | exact Hr].
    assert (Etext : text = (firstn from text ++ pre ++ ws) ++ x :: r').
    { rewrite <- (firstn_skipn from text) at 1. rewrite Et, Er.
      now rewrite <- !app_assoc. }
    rewrite Etext, nth_error_app2; rewrite !length_app;
      apply Nat.ltb_ge in L; rewrite firstn_length_le by lia;
      [ | lia].
    replace (a - (from + (length pre + length ws))) with 0 by lia.
    reflexivity.
  - exfalso. revert EK. unfold K. cbn [m]. do 2 apply orElse_Some.
    apply (fragment_total (pos s1)); [now rewrite R1 | lia].
Qed.

Lemma execLoop_In r text mt :
  forall fuel from, In mt (execLoop fuel r text from) ->
  exists from', exec r text from' = Some mt.
Proof.
  induction fuel as [ | fuel IH]; intros from H; [contradiction | ].
  cbn [execLoop] in H. destruct (exec r text from) as [m0 | ] eqn:E;
    [ | contradiction].
  destruct H as [-> | H]; [eauto | eapply IH; eassumption].
Qed.

Lemma fold_invariant_In P text (J : Scan -> Prop) (all : list Match) :
  (forall L st mt, In mt all -> wfBlockMatch text L mt -> Inv P text L st ->
                   J st -> J (step P text st mt)) ->
  forall ms L st,
  incl ms all -> wfMatches text L ms -> Inv P text L st -> J st ->
  J (fold_left (step P text) ms st).
Proof.
  intros Hstep. induction ms as [ | mt ms IH]; intros L st Hin W I HJ;
    cbn [fold_left]; [assumption | ].
  inversion W as [ | ? ? ? Wm Wms]; subst.
  apply (IH (lastIndex mt)).
  - intros x Hx. apply Hin. now right.
  - assumption.
  - unfold Inv in *. now apply Inv_step with (L := L).
  - apply Hstep with (L := L); auto. apply Hin. now left.
Qed.

Lemma named_step P text L st mt :
  (exists from, exec blockRE text from = Some mt) ->
  wfBlockMatch text L mt -> Inv P text L st ->
  (forall i r, nth_error (ranges st) i = Some r -> names r <> []) ->
  forall i r, nth_error (ranges (step P text st mt)) i = Some r ->
  names r <> [].
Proof.
  intros (from & Ex) W (IP & IN & IF) HJ.
  destruct (step_cases P text st mt L W)
    as (L1 & L2 & [-> | [(a & b & Es & La & Lab & Li & G2 & G1) | [-> _]]]).
  - exact HJ.
  - assert (G1' : group text mt 1 = Some (substring text a b))
      by (unfold group; now rewrite G1).
    destruct (truthy (Some (substring text a b))) eqn:Tr.
    2:{ assert (Est : step P text st mt = st).
        { unfold step. rewrite G2, G1', Tr. reflexivity. }
        rewrite Est. exact HJ. }
    assert (Lt : a < b).
    { unfold truthy, substring in Tr.
      destruct (Nat.eq_dec a b) as [-> | ]; [ | lia].
      rewrite Nat.sub_diag in Tr. discriminate. }
    destruct (group1_starts_nonspace text from mt a b Ex G1 Lt)
      as (c & Nc & Hc).
    assert (Esel : exists t, substring text a b = c :: t).
    { unfold substring. apply nth_error_split in Nc.
      destruct Nc as (l1 & l2 & -> & <-).
      rewrite skipn_app, skipn_all, Nat.sub_diag. cbn [skipn app].
      destruct (b - length l1) as [ | k] eqn:Ek; [lia | ].
      cbn [firstn]. eauto. }
    destruct Esel as (t & Esel). rewrite Es, Esel.
    destruct (normalizeSelector_head c t Hc) as (t' & En).
    unfold openBlock, newLeafRange. rewrite En.
    cbn [ranges stack current ignoreDeep].
    set (ig := if (Nat.ltb 0 (ignoreDeep st)
                   || shouldIgnoreDeeply (c :: t'))%bool
               then S (ignoreDeep st) else ignoreDeep st).
    pose proof (parseToNames_nonempty P ig c t' Hc) as Hp.
    intros i r H. apply nth_error_snoc in H. destruct H as [H | [_ ->]];
      [eapply HJ; eassumption | ].
    cbn [names].
    destruct (supportsNesting P && Nat.eqb ig 0)%bool eqn:Eb; [ | exact Hp].
    destruct (current st) as [cur | ] eqn:Ecur; [ | exact Hp].
    apply andb_prop in Eb. destruct Eb as [N Z0]. apply Nat.eqb_eq in Z0.
    destruct (IN N) as [Inest Igood].
    assert (Zst : ignoreDeep st = 0).
    { unfold ig in Z0. destruct (_ || _)%bool; [discriminate | assumption]. }
    unfold combineNestingNames. apply combineLoop_nonempty; [ | exact Hp].
    assert (Eg : getClosestSelectorTypeFullNames
                   (mkScan (ranges st) (stack st) (Some cur) ig)
                 = getClosestSelectorTypeFullNames st).
    { unfold getClosestSelectorTypeFullNames.
      cbn [ranges current]. now rewrite Ecur. }
    rewrite Eg. now apply closest_names_nonempty.
  - rewrite closeBlock_ranges. destruct (current st) as [c | ]; [ | exact HJ].
    intros i r H. apply setEnd_nth in H.
    destruct H as (r0 & H0 & -> & _). eapply HJ; eassumption.
Qed.

(** X22.  Every range of the result has at least one name. *)
Theorem every_range_has_a_name (P : CSSRangeParser) (i : nat)
    (nr : NamedRange) :
  nth_error (parse P) i = Some nr -> nrNames nr <> [].
Proof.
  intros H. destruct (parse_nth P i nr H) as (r & Hr & _ & En).
  assert (J : forall i r, nth_error (ranges (scan P)) i = Some r ->
                          names r <> []).
  { unfold scan, scanFrom.
    set (text := getText (document P)).
    assert (F : forall i r,
              nth_error (ranges (fold_left (step P text)
                                   (execAll blockRE text) initScan)) i
              = Some r -> names r <> []).
    { apply (fold_invariant_In P text
               (fun st => forall i r, nth_error (ranges st) i = Some r ->
                                      names r <> [])
               (execAll blockRE text)) with (L := 0).
      - intros L st mt Hin W I HJ.
        apply (named_step P text L st mt); auto.
        unfold execAll in Hin. eapply execLoop_In. eassumption.
      - apply incl_refl.
      - apply execAll_wf.
      - apply Inv_initScan.
      - intros [ | k] r0 H0; discriminate H0. }
    intros j r0. unfold closeAtEnd.
    destruct (current _) as [a | ]; [ | apply F].
    destruct (nth_error _ a) as [ra | ]; [ | apply F].
    destruct (Z.eqb (end_ ra) 0); [ | apply F].
    cbn [ranges]. intros H0. apply setEnd_nth in H0.
    destruct H0 as (r1 & H1 & -> & _). eapply F; eassumption. }
  rewrite En. intros Hm. apply map_eq_nil in Hm.
  exact (J i r Hr Hm).
Qed.

(** An instance for X22: the outer range of [.a { .b { } }] in SCSS. *)
Lemma every_range_has_a_name_witness :
  [mkFullMainName (str ".a") (str ".a")] <> [].
Proof.
  apply (every_range_has_a_name
           (newParser (mkTextDocument (str ".a { .b { } }") (str "scss"))) 0
           (mkNamedRange [mkFullMainName (str ".a") (str ".a")] (1, 13)%Z)).
  reflexivity.
Defined.

(** ** The start of a range lies in its selector *)

(** X23.  The fragment a block is opened for begins with a code unit
    that is no white space, and the start offset of the range lies in
    that fragment: at or after its first code unit and before the [{]. *)
Theorem block_start_within_fragment (P : CSSRangeParser) (n : nat)
    (mt : Match) (a b : nat) (leaf : LeafRange) :
  nth_error (execAll blockRE (getText (document P))) n = Some mt ->
  opens (getText (document P)) mt = true ->
  getCap 1 (groups mt) = Some (a, b) ->
  nth_error (ranges (scan P)) (length (ranges (stateAt P n))) = Some leaf ->
  (Z.of_nat a <= start leaf < Z.of_nat b)%Z
  /\ exists c, nth_error (getText (document P)) a = Some c
               /\ isSpace c = false.
Proof.
  intros En Ho G1 Hl. set (text := getText (document P)) in *.
  unfold opens in Ho. apply andb_prop in Ho. destruct Ho as [Ho T].
  destruct (wfMatches_nth _ _ _ _ _ (execAll_wf _) En) as (from & _ & W).
  apply wf_groups in W.
  destruct W as [[G _] | (a0 & b0 & c & C1 & G1' & G2 & N & _ & _ & Lab & Li & Lb)];
    [rewrite G in T; discriminate | ].
  rewrite G1 in C1. injection C1 as <- <-.
  rewrite G2, isChar_Some in Ho. apply N.eqb_eq in Ho. subst c.
  rewrite G1' in T.
  assert (Lt : a < b).
  { unfold truthy, substring in T.
    destruct (Nat.eq_dec a b) as [-> | ]; [ | lia].
    rewrite Nat.sub_diag in T. discriminate. }
  assert (Ex : exists from', exec blockRE text from' = Some mt).
  { apply nth_error_In in En. unfold execAll in En.
    eapply execLoop_In. eassumption. }
  destruct Ex as (from' & Ex).
  destruct (group1_starts_nonspace text from' mt a b Ex G1 Lt)
    as (c & Nc & Hc).
  split; [ | eauto].
  assert (Esel : exists t, substring text a b = c :: t).
  { unfold substring. pose proof Nc as Nc'. apply nth_error_split in Nc'.
    destruct Nc' as (l1 & l2 & E12 & <-). rewrite E12.
    rewrite skipn_app, skipn_all, Nat.sub_diag. cbn [skipn app].
    destruct (b - length l1) as [ | k] eqn:Ek; [lia | ].
    cbn [firstn]. eauto. }
  destruct Esel as (t & Esel).
  destruct (normalizeSelector_head c t Hc) as (t' & Enorm).
  pose proof (normalizeSelector_length (substring text a b)) as Hlen.
  rewrite (substring_length text a b) in Hlen by lia.
  pose proof (stateAt_S P n _ En) as St. fold text in St.
  rewrite (step_open P _ _ _ _ G2 G1' T) in St.
  destruct (openBlock_fields P (stateAt P n) (lastIndex mt)
              (substring text a b)) as (nm & ig & Eo).
  rewrite Eo in St.
  assert (Hn : nth_error (ranges (stateAt P (S n)))
                 (length (ranges (stateAt P n)))
               = Some (mkLeafRange nm
                   (Z.of_nat (lastIndex mt)
                    - Z.of_nat (length (normalizeSelector
                                          (substring text a b))) - 1)
                   0 (current (stateAt P n)))).
  { rewrite St. cbn [ranges].
    rewrite nth_error_app2, Nat.sub_diag by lia. reflexivity. }
  destruct (extends_nth _ _ _ _ (stateAt_extends P (S n)) Hn)
    as (leaf' & Hl' & Hcore).
  rewrite Hl in Hl'. injection Hl' as <-.
  unfold core in Hcore. cbn [names start parent] in Hcore.
  assert (Hs : start leaf
               = (Z.of_nat (lastIndex mt)
                  - Z.of_nat (length (normalizeSelector
                                        (substring text a b))) - 1)%Z)
    by congruence.
  rewrite Hs, Li. rewrite Esel, Enorm in *. cbn [length] in *. lia.
Qed.

(** An instance for X23: the inner block of [.a {  .b  { } }], whose
    fragment [.b  ] lies at offsets 6 to 10; the range starts at 8. *)
Lemma block_start_within_fragment_witness :
  (6 <= 8 < 10)%Z
  /\ exists c, nth_error (str ".a {  .b  { } }") 6 = Some c
               /\ isSpace c = false.
Proof.
  apply (block_start_within_fragment
           (newParser (mkTextDocument (str ".a {  .b  { } }") (str "scss")))
           1 (mkMatch 4 11 [(2, (10, 11)); (1, (6, 10))]) 6 10
           (mkLeafRange [mkLeafName (str ".b") (str ".a .b") true]
              8 13 (Some 0)));
    reflexivity.
Defined.
